(** * pyopenreil/VM.py: a shallow embedding of the REIL emulator

    The development follows the layout of [VM.py]: the exception classes,
    then [Math], [Mem], [Cpu], [Stack] and [Abi].  Python integers are
    unbounded and are embedded as [Z]; Python 2 byte strings are lists of
    [Byte.byte]; dictionaries are finite maps.  Exceptions are values of
    [exn]; a method that mutates its object is a state transformer that
    returns the new object next to its outcome, so that the effects made
    before an exception is raised stay visible. *)

From Stdlib Require Import ZArith Lia Strings.Byte Ascii String.
From stdpp Require Import gmap strings list fin_maps.

Open Scope Z_scope.

(** ** Constants and classes of REIL.py

    [VM.py] starts with [from REIL import *]; it takes the width tags,
    the operand kinds, the opcodes, [Arg] and the instruction class from
    there. *)

(** Modelled from the spec: the width tags U1, U8, U16, U32, U64 of REIL.py. *)
Inductive Width := U1 | U8 | U16 | U32 | U64.

(** Modelled from the spec: the operand kinds of REIL.py. *)
Inductive ArgType := A_NONE | A_REG | A_TEMP | A_CONST.

(** Modelled from the spec: the opcodes of REIL.py.  [I_INVALID n] stands
    for any opcode value that is not a member of REIL_INSN. *)
Inductive Opcode :=
| I_NONE | I_JCC | I_STM | I_LDM
| I_STR | I_ADD | I_SUB | I_NEG | I_MUL | I_DIV | I_MOD
| I_SMUL | I_SDIV | I_SMOD | I_SHL | I_SHR
| I_AND | I_OR | I_XOR | I_NOT | I_EQ | I_LT
| I_INVALID (code : Z).

(** Modelled from the spec: membership in the tuple REIL_INSN of REIL.py. *)
Definition in_REIL_INSN (op : Opcode) : bool :=
  match op with I_INVALID _ => false | _ => true end.

(** Modelled from the spec: the class Arg of REIL.py, an operand with its
    kind, its width, its register name (absent on constants) and its
    value. *)
Record Arg := mkArg {
  arg_type : ArgType;
  arg_size : Width;
  arg_name : option string;
  arg_val : Z
}.

(** Modelled from the spec: the number of bits an operand of a width
    exposes. *)
Definition width_bits (w : Width) : Z :=
  match w with U1 => 1 | U8 => 8 | U16 => 16 | U32 => 32 | U64 => 64 end.

(** Modelled from the spec: Arg.get_val of REIL.py; an operand of width W
    exposes the low W bits of its value. *)
Definition get_val (a : Arg) : Z :=
  Z.land (arg_val a) (Z.ones (width_bits (arg_size a))).

(** [Arg(A_CONST, size, val = v)] *)
Definition Const (size : Width) (v : Z) : Arg :=
  mkArg A_CONST size None v.

(** Modelled from the spec: the instruction class of REIL.py.  [insn_next]
    is the value of the method [next()]: the address and index of the
    instruction that follows when no branch is taken. *)
Record Insn := mkInsn {
  insn_addr : Z;
  insn_inum : Z;
  insn_op : Opcode;
  insn_a : Arg;
  insn_b : Arg;
  insn_c : Arg;
  insn_next : Z * Z
}.

(** ** Exceptions *)

(** The exception classes of [VM.py] with their [addr] and [inum]
    attributes, and the built-in exceptions that the modelled statements
    can raise.  [StructError] is [struct.error]. *)
Inductive exn :=
| MemError (addr : Z)
| MemReadError (addr : Z)
| MemWriteError (addr : Z)
| CpuError (addr inum : Z)
| CpuReadError (addr inum : Z)
| CpuInstructionError (addr inum : Z)
| KeyError
| IndexError
| TypeError
| AttributeError
| ZeroDivisionError
| StructError.

(** [isinstance(e, CpuError)]: CpuReadError and CpuInstructionError derive
    from CpuError. *)
Definition is_CpuError (e : exn) : bool :=
  match e with
  | CpuError _ _ | CpuReadError _ _ | CpuInstructionError _ _ => true
  | _ => false
  end.

(** [isinstance(e, MemReadError)] *)
Definition is_MemReadError (e : exn) : bool :=
  match e with MemReadError _ => true | _ => false end.

(** [isinstance(e, MemWriteError)] *)
Definition is_MemWriteError (e : exn) : bool :=
  match e with MemWriteError _ => true | _ => false end.

(** The attribute [e.addr] of the exceptions that carry one. *)
Definition exn_addr (e : exn) : option Z :=
  match e with
  | MemError a | MemReadError a | MemWriteError a => Some a
  | CpuError a _ | CpuReadError a _ | CpuInstructionError a _ => Some a
  | _ => None
  end.

(** The outcome of a call: a value or a raised exception. *)
Inductive result (A : Type) :=
| Return (x : A)
| Raise (e : exn).
Arguments Return {A} x.
Arguments Raise {A} e.

Definition raises {A} (r : result A) : Prop := exists e, r = Raise e.

Definition result_bind {A B} (r : result A) (k : A -> result B) : result B :=
  match r with
  | Return x => k x
  | Raise e => Raise e
  end.

(** ** State and exceptions

    A method of an object of type [S] is a function from the object to
    the updated object and the outcome. *)
Definition ST (S A : Type) : Type := S -> S * result A.

Definition ret {S A} (x : A) : ST S A := fun s => (s, Return x).

Definition raise {S A} (e : exn) : ST S A := fun s => (s, Raise e).

Definition bind {S A B} (m : ST S A) (k : A -> ST S B) : ST S B :=
  fun s =>
    match m s with
    | (s', Return x) => k x s'
    | (s', Raise e) => (s', Raise e)
    end.

(** [lift r]: the outcome of a computation that does not touch the object. *)
Definition lift {S A} (r : result A) : ST S A := fun s => (s, r).

(** [try: m except <handles>: h e]; the handler runs in the state the
    body left behind. *)
Definition try_except {S A} (m : ST S A) (handles : exn -> bool)
    (h : exn -> ST S A) : ST S A :=
  fun s =>
    match m s with
    | (s', Return x) => (s', Return x)
    | (s', Raise e) => if handles e then h e s' else (s', Raise e)
    end.

Declare Scope st_scope.
Delimit Scope st_scope with st.
Notation "x <- m ;; k" := (bind m (fun x => k))
  (at level 100, m at next level, right associativity) : st_scope.
Notation "m ;;; k" := (bind m (fun _ => k))
  (at level 100, right associativity) : st_scope.

(** [range(0, n)] *)
Definition range (n : Z) : list Z := Z.of_nat <$> seq 0 (Z.to_nat n).

(** ** class Math *)
Module Math.

(** A numpy integer scalar: its signedness, its number of bits and its
    value, which lies in the range of the type. *)
Record npint := mkNp {
  np_signed : bool;
  np_bits : Z;
  np_val : Z
}.

(** Conversion of an integer to a numpy integer type: the value wraps
    around modulo [2^bits] into the range of the type. *)
Definition np_wrap (signed : bool) (bits : Z) (z : Z) : Z :=
  if signed
  then (z + 2 ^ (bits - 1)) mod 2 ^ bits - 2 ^ (bits - 1)
  else z mod 2 ^ bits.

Definition np (signed : bool) (bits : Z) (z : Z) : npint :=
  mkNp signed bits (np_wrap signed bits z).

(** The numpy types of the tables in [val_u] and [val_s]: U1 and U8 map
    to the 8-bit types. *)
Definition np_width (w : Width) : Z :=
  match w with U1 => 8 | U8 => 8 | U16 => 16 | U32 => 32 | U64 => 64 end.

Definition val (arg : Arg) : Z := get_val arg.

Definition val_u (arg : Arg) : npint :=
  np false (np_width (arg_size arg)) (val arg).

Definition val_s (arg : Arg) : npint :=
  np true (np_width (arg_size arg)) (np_val (val_u arg)).

(** A binary operator on two numpy scalars of the same signedness: the
    result has the wider of the two types and wraps around in it. *)
Definition np_binop (f : Z -> Z -> Z) (x y : npint) : npint :=
  np (np_signed x) (Z.max (np_bits x) (np_bits y)) (f (np_val x) (np_val y)).

Definition np_unop (f : Z -> Z) (x : npint) : npint :=
  np (np_signed x) (np_bits x) (f (np_val x)).

(** numpy's [/] on integer scalars under Python 2 (no true division):
    the quotient rounded towards minus infinity; a zero divisor gives 0
    and a warning, not an exception. *)
Definition np_divide (a b : Z) : Z :=
  if b =? 0 then 0 else a / b.

(** numpy's [%] on integer scalars: the remainder of the division
    above, which is zero or has the sign of the divisor; a zero divisor
    gives 0 and a warning. *)
Definition np_remainder (a b : Z) : Z :=
  if (a =? 0) || (b =? 0) then 0 else a mod b.

(** The truth value of a comparison, as the integer [.item()] gives. *)
Definition np_bool (b : bool) : Z := if b then 1 else 0.

(** [eval_u] and [eval_s] for the operators that use both operands.  An
    absent operand ([None]) makes the operator fail; the model raises
    [TypeError] for every such case. *)
Definition eval_u (fn : npint -> npint -> npint) (a b : option Arg)
    : result Z :=
  match a, b with
  | Some a, Some b => Return (np_val (fn (val_u a) (val_u b)))
  | _, _ => Raise TypeError
  end.

Definition eval_s (fn : npint -> npint -> npint) (a b : option Arg)
    : result Z :=
  match a, b with
  | Some a, Some b => Return (np_val (fn (val_s a) (val_s b)))
  | _, _ => Raise TypeError
  end.

(** [eval_u] for the operators whose lambda ignores [b]. *)
Definition eval_u1 (fn : npint -> npint) (a : option Arg) : result Z :=
  match a with
  | Some a => Return (np_val (fn (val_u a)))
  | None => Raise TypeError
  end.

(** [eval_u] for the comparisons, whose result is a boolean. *)
Definition eval_cmp (fn : Z -> Z -> bool) (a b : option Arg) : result Z :=
  match a, b with
  | Some a, Some b =>
      Return (np_bool (fn (np_val (val_u a)) (np_val (val_u b))))
  | _, _ => Raise TypeError
  end.

(** [Math.eval]: the dictionary of lambdas indexed by the opcode; an
    opcode that is not a key raises [KeyError]. *)
Definition eval (op : Opcode) (a b : option Arg) : result Z :=
  match op with
  | I_STR =>
      match a with
      | Some a => Return (get_val a)
      | None => Raise AttributeError
      end
  | I_ADD => eval_u (np_binop Z.add) a b
  | I_SUB => eval_u (np_binop Z.sub) a b
  | I_NEG => eval_u1 (np_unop Z.opp) a
  | I_MUL => eval_u (np_binop Z.mul) a b
  | I_DIV => eval_u (np_binop np_divide) a b
  | I_MOD => eval_u (np_binop np_remainder) a b
  | I_SMUL => eval_s (np_binop Z.mul) a b
  | I_SDIV => eval_s (np_binop np_divide) a b
  | I_SMOD => eval_s (np_binop np_remainder) a b
  | I_SHL => eval_u (np_binop Z.shiftl) a b
  | I_SHR => eval_u (np_binop Z.shiftr) a b
  | I_AND => eval_u (np_binop Z.land) a b
  | I_OR => eval_u (np_binop Z.lor) a b
  | I_XOR => eval_u (np_binop Z.lxor) a b
  | I_NOT => eval_u1 (np_unop Z.lnot) a
  | I_EQ => eval_cmp Z.eqb a b
  | I_LT => eval_cmp Z.ltb a b
  | I_NONE | I_JCC | I_STM | I_LDM | I_INVALID _ => Raise KeyError
  end.

End Math.

(** ** class Mem *)

(** A Python 2 [str] used as a byte string. *)
Abbreviation bytes := (list byte) (only parsing).

(** [ord] and [chr] on one byte. *)
Definition Z_of_byte (b : byte) : Z := Z.of_N (Byte.to_N b).

Definition byte_of_Z (z : Z) : byte :=
  match Byte.of_N (Z.to_N (z mod 256)) with
  | Some b => b
  | None => x00
  end.

(** [len(data)] *)
Definition len {A} (l : list A) : Z := Z.of_nat (length l).

(** The external memory reader of a storage: [reader.read(addr, size)]
    answers with a byte string or with [None]. *)
Definition Reader : Type := Z -> Z -> option bytes.

Module Mem.

Definition DEF_ALLOC_BASE : Z := 0x11000000.

(** [map_length = { U8: 1, U16: 2, U32: 4, U64: 8 }]; a tag that is
    not a key raises [KeyError]. *)
Definition map_length (size : Width) : result Z :=
  match size with
  | U8 => Return 1
  | U16 => Return 2
  | U32 => Return 4
  | U64 => Return 8
  | U1 => Raise KeyError
  end.

(** [map_size = { 1: U8, 2: U16, 4: U32, 8: U64 }] *)
Definition map_size (n : Z) : result Width :=
  if n =? 1 then Return U8
  else if n =? 2 then Return U16
  else if n =? 4 then Return U32
  else if n =? 8 then Return U64
  else Raise KeyError.

(** The format characters of the [struct] module that [map_format]
    uses, with the number of bytes each stands for. *)
Inductive Format := fmt_B | fmt_H | fmt_I | fmt_Q.

Definition calcsize (f : Format) : Z :=
  match f with fmt_B => 1 | fmt_H => 2 | fmt_I => 4 | fmt_Q => 8 end.

(** [map_format = { U8: 'B', U16: 'H', U32: 'I', U64: 'Q' }] *)
Definition map_format (size : Width) : result Format :=
  match size with
  | U8 => Return fmt_B
  | U16 => Return fmt_H
  | U32 => Return fmt_I
  | U64 => Return fmt_Q
  | U1 => Raise KeyError
  end.

(** The [n] little-endian bytes of [v]. *)
Fixpoint le_bytes (n : nat) (v : Z) : bytes :=
  match n with
  | O => []
  | S n' => byte_of_Z v :: le_bytes n' (v / 256)
  end.

(** The unsigned value of a little-endian byte string. *)
Fixpoint le_value (l : bytes) : Z :=
  match l with
  | [] => 0
  | b :: l' => Z_of_byte b + 256 * le_value l'
  end.

(** [struct.pack(fmt, val)] for an unsigned format: [struct.error]
    when [val] is outside the range of the format. *)
Definition struct_pack (f : Format) (v : Z) : result bytes :=
  if (0 <=? v) && (v <? 2 ^ (8 * calcsize f))
  then Return (le_bytes (Z.to_nat (calcsize f)) v)
  else Raise StructError.

(** [struct.unpack(fmt, val)[0]]: [struct.error] when the length of the
    string is not the size of the format. *)
Definition struct_unpack (f : Format) (s : bytes) : result Z :=
  if len s =? calcsize f then Return (le_value s) else Raise StructError.

Definition pack (size : Width) (v : Z) : result bytes :=
  result_bind (map_format size) (fun f => struct_pack f v).

Definition unpack (size : Width) (s : bytes) : result Z :=
  result_bind (map_format size) (fun f => struct_unpack f s).

(** The attributes of a [Mem] object.  [queries] is not an attribute of
    the Python object: it records the calls made to [reader.read], the
    most recent first, so that statements about consulting the reader
    can be written. *)
Record t := mk {
  data : gmap Z byte;
  reader : option Reader;
  strict : bool;
  alloc_base : Z;
  alloc_last : Z;
  queries : list (Z * Z)
}.

Definition set_data (d : gmap Z byte) (m : t) : t :=
  mk d (reader m) (strict m) (alloc_base m) (alloc_last m) (queries m).

Definition set_reader (r : option Reader) (m : t) : t :=
  mk (data m) r (strict m) (alloc_base m) (alloc_last m) (queries m).

Definition set_alloc_last (a : Z) (m : t) : t :=
  mk (data m) (reader m) (strict m) (alloc_base m) a (queries m).

Definition add_query (q : Z * Z) (m : t) : t :=
  mk (data m) (reader m) (strict m) (alloc_base m) (alloc_last m)
     (q :: queries m).

(** [Mem(reader = reader, strict = strict)], the [data] argument left
    at its default. *)
Definition init (reader : option Reader) (strict : bool) : t :=
  mk ∅ reader strict DEF_ALLOC_BASE DEF_ALLOC_BASE [].

Definition clear : ST t unit :=
  fun m => (set_data ∅ m, Return tt).

(** The loop of [_read] over the indices that are left, [acc] being
    the string [data] built so far. *)
Fixpoint _read_loop (d : gmap Z byte) (addr : Z) (idx : list Z)
    (acc : bytes) : result bytes :=
  match idx with
  | [] => Return acc
  | i :: idx' =>
      match d !! (addr + i) with
      | None => Raise (MemReadError addr)
      | Some b => _read_loop d addr idx' (acc ++ [b])
      end
  end.

Definition _read (addr size : Z) : ST t bytes :=
  fun m => (m, _read_loop (data m) addr (range size) []).

(** The loop of [_write]: the bytes stored before the first undefined
    address stay in the dictionary when the exception is raised. *)
Fixpoint _write_loop (d : gmap Z byte) (addr : Z) (s : bytes)
    (idx : list Z) : gmap Z byte * result unit :=
  match idx with
  | [] => (d, Return tt)
  | i :: idx' =>
      match d !! (addr + i) with
      | None => (d, Raise (MemWriteError addr))
      | Some _ =>
          match s !! Z.to_nat i with
          | None => (d, Raise IndexError)
          | Some b => _write_loop (<[addr + i := b]> d) addr s idx'
          end
      end
  end.

Definition _write (addr size : Z) (s : bytes) : ST t unit :=
  fun m =>
    let '(d, r) := _write_loop (data m) addr s (range size) in
    (set_data d m, r).

Definition alloc_addr (size : Z) : ST t Z :=
  fun m => (set_alloc_last (alloc_last m + size) m, Return (alloc_last m)).

(** The byte [alloc] stores at index [i]: the byte of [data], or a zero
    byte when there is no [data] or it is too short. *)
Definition alloc_byte (s : option bytes) (i : Z) : byte :=
  match s with
  | None => x00
  | Some s => if len s <=? i then x00 else default x00 (s !! Z.to_nat i)
  end.

Definition alloc_loop (d : gmap Z byte) (addr : Z) (s : option bytes)
    (idx : list Z) : gmap Z byte :=
  foldl (fun d i => <[addr + i := alloc_byte s i]> d) d idx.

(** [alloc(addr = None, size = None, data = None)].  With neither a
    size nor data, [size] stays [None] and the first use of it raises
    [TypeError]. *)
Definition alloc (addr : option Z) (size : option Z) (s : option bytes)
    : ST t Z :=
  let size :=
    match size, s with
    | None, Some s => Some (len s)
    | _, _ => size
    end in
  match size with
  | None => raise TypeError
  | Some size =>
      (addr <- match addr with
               | None => alloc_addr size
               | Some a => ret a
               end;;
       fun m =>
         (set_data (alloc_loop (data m) addr s (range size)) m,
          Return addr))%st
  end.

(** [self.reader.read(addr, size)] on the reader [r]. *)
Definition reader_read (r : Reader) (addr size : Z) : ST t (option bytes) :=
  fun m => (add_query (addr, size) m, Return (r addr size)).

Definition read (addr size : Z) : ST t bytes :=
  try_except (_read addr size) is_MemReadError (fun e m =>
    match reader m with
    | None => raise e m
    | Some r =>
        (got <- reader_read r addr size;;
         match got with
         | None => raise e
         | Some s =>
             (* copy data from external storage *)
             alloc (Some addr) None (Some s);;;
             ret s
         end)%st m
    end).

Definition write (addr size : Z) (s : bytes) : ST t unit :=
  try_except (_write addr size s) is_MemWriteError (fun e m =>
    ((if strict m then
        match reader m with
        | None => raise e
        | Some r =>
            (* invalid address, check if memory reader knows it *)
            got <- reader_read r addr size;;
            match got with
            | None => raise e
            | Some _ => ret tt
            end
        end
      else ret tt);;;
     (* allocate memory at address that was not available *)
     alloc (Some addr) None (Some s);;;
     ret tt)%st m).

Definition store (addr : Z) (size : Width) (v : Z) : ST t unit :=
  (n <- lift (map_length size);;
   s <- lift (pack size v);;
   write addr n s)%st.

Definition load (addr : Z) (size : Width) : ST t Z :=
  (n <- lift (map_length size);;
   s <- read addr n;;
   lift (unpack size s))%st.

End Mem.

(** ** Collaborators of the CPU *)

(** Modelled from the spec: the architecture description that
    [get_arch] returns: the pointer width in bytes and the register
    names [Registers.ip], [Registers.sp], [Registers.accum],
    [Registers.general] and [Registers.flags]. *)
Record Arch := mkArch {
  ptr_len : Z;
  Registers_ip : string;
  Registers_sp : string;
  Registers_accum : string;
  Registers_general : list string;
  Registers_flags : list string
}.

(** Modelled from the spec: the code storage.  [get_insn addr] is the
    list of REIL instructions of the native instruction at [addr], or
    [None] when the storage raises [StorageError]; [storage_reader] is
    its attribute [reader]. *)
Record Storage := mkStorage {
  get_insn : Z -> option (list Insn);
  storage_reader : option Reader
}.

(** [class Reg] *)
Record Reg := mkReg {
  reg_name : string;
  reg_val : Z;
  is_temp : bool
}.

(** [str.upper] *)
Definition upper_ascii (c : ascii) : ascii :=
  let n := N_of_ascii c in
  if ((97 <=? n) && (n <=? 122))%N then ascii_of_N (n - 32) else c.

Fixpoint upper (s : string) : string :=
  match s with
  | EmptyString => EmptyString
  | String c s' => String (upper_ascii c) (upper s')
  end.

(** ** class Cpu *)
Module Cpu.

Definition DEF_REG_VAL : Z := 0.

(** The attributes of a [Cpu] object; [math] has no state. *)
Record t := mk {
  mem : Mem.t;
  regs : gmap string Reg;
  arch : Arch
}.

Definition set_mem (m : Mem.t) (c : t) : t := mk m (regs c) (arch c).

Definition set_regs (r : gmap string Reg) (c : t) : t :=
  mk (mem c) r (arch c).

(** A method of [self.mem] called from the CPU. *)
Definition on_mem {A} (f : ST Mem.t A) : ST t A :=
  fun c => let '(m, r) := f (mem c) in (set_mem m c, r).

(** [Cpu(arch)] after [reset()], with a fresh [Mem()]. *)
Definition init (a : Arch) : t := mk (Mem.init None true) ∅ a.

Definition set_storage (storage : option Storage) : ST t unit :=
  fun c =>
    let r := match storage with
             | None => None
             | Some s => storage_reader s
             end in
    (set_mem (Mem.set_reader r (mem c)) c, Return tt).

Definition reset_temp : ST t unit :=
  fun c =>
    (set_regs (filter (fun kr => is_temp (snd kr) = false) (regs c)) c,
     Return tt).

(** The canonical register name that [reg] computes. *)
Definition canonical (name : string) (is_temp : bool) : string :=
  let name := upper name in
  let p := substring 0 2 name in
  if (String.eqb p "R_" || String.eqb p "V_")%bool then name
  else ((if is_temp then "V" else "R") ++ "_" ++ name)%string.

(** [reg(name, val, is_temp)]: the register object under the canonical
    name, created first when it is not there. *)
Definition reg (name : string) (v : Z) (is_temp : bool) : ST t Reg :=
  fun c =>
    let name := canonical name is_temp in
    match regs c !! name with
    | None =>
        let r := mkReg name v is_temp in
        (set_regs (<[name := r]> (regs c)) c, Return r)
    | Some r => (c, Return r)
    end.

(** [r.val = v] on a register object [r] of the dictionary. *)
Definition set_val (r : Reg) (v : Z) : ST t unit :=
  fun c =>
    (set_regs (<[reg_name r := mkReg (reg_name r) v (is_temp r)]> (regs c)) c,
     Return tt).

(** [self.reg(name, ...)] where [name] may be [None]: [None.upper()]
    raises [AttributeError]. *)
Definition reg_of (name : option string) (is_temp : bool) : ST t Reg :=
  match name with
  | None => raise AttributeError
  | Some n => reg n DEF_REG_VAL is_temp
  end.

Definition arg (a : Arg) : ST t (option Arg) :=
  match arg_type a with
  | A_REG =>
      (r <- reg_of (arg_name a) false;;
       ret (Some (Const (arg_size a) (reg_val r))))%st
  | A_TEMP =>
      (r <- reg_of (arg_name a) true;;
       ret (Some (Const (arg_size a) (reg_val r))))%st
  | A_CONST => ret (Some a)
  | A_NONE => ret None
  end.

Definition evaluate (op : Opcode) (size : Width) (a b : option Arg)
    : result Arg :=
  result_bind (Math.eval op a b) (fun v => Return (Const size v)).

(** [x.get_val()] on a resolved operand, [AttributeError] on [None]. *)
Definition get_val_of (x : option Arg) : result Z :=
  match x with
  | Some x => Return (get_val x)
  | None => Raise AttributeError
  end.

Definition insn_none (insn : Insn) (a b c : option Arg) : ST t (option Z) :=
  ret None.

Definition insn_jcc (insn : Insn) (a b c : option Arg) : ST t (option Z) :=
  (cond <- lift (get_val_of a);;
   if negb (cond =? 0)
   then (target <- lift (get_val_of c);; ret (Some target))
   else ret None)%st.

Definition insn_stm (insn : Insn) (a b c : option Arg) : ST t (option Z) :=
  (addr <- lift (get_val_of c);;
   v <- lift (get_val_of a);;
   on_mem (Mem.store addr (arg_size (insn_a insn)) v);;;
   ret None)%st.

Definition insn_ldm (insn : Insn) (a b c : option Arg) : ST t (option Z) :=
  (addr <- lift (get_val_of a);;
   v <- on_mem (Mem.load addr (arg_size (insn_c insn)));;
   r <- reg_of (arg_name (insn_c insn)) false;;
   set_val r v;;;
   ret None)%st.

Definition insn_other (insn : Insn) (a b c : option Arg) : ST t (option Z) :=
  (res <- lift (evaluate (insn_op insn) (arg_size (insn_c insn)) a b);;
   r <- reg_of (arg_name (insn_c insn)) false;;
   set_val r (get_val res);;;
   ret None)%st.

Definition is_KeyError (e : exn) : bool :=
  match e with KeyError => true | _ => false end.

Definition execute (insn : Insn) : ST t (option Z) :=
  (a <- arg (insn_a insn);;
   b <- arg (insn_b insn);;
   c <- arg (insn_c insn);;
   if negb (in_REIL_INSN (insn_op insn))
   then raise (CpuInstructionError (insn_addr insn) (insn_inum insn))
   else
     try_except
       (match insn_op insn with
        | I_NONE => insn_none insn a b c
        | I_JCC => insn_jcc insn a b c
        | I_STM => insn_stm insn a b c
        | I_LDM => insn_ldm insn a b c
        | _ => raise KeyError
        end)
       is_KeyError
       (fun _ => insn_other insn a b c))%st.

(** [get_ip] calls [get_val()] on the register object, and [class Reg]
    has no such method. *)
Definition get_ip : ST t Z :=
  fun c =>
    (_ <- reg (Registers_ip (arch c)) DEF_REG_VAL false;;
     raise AttributeError)%st c.

Definition set_ip (v : Z) : ST t unit :=
  fun c =>
    (r <- reg (Registers_ip (arch c)) DEF_REG_VAL false;;
     set_val r v)%st c.

(** The value that [cpu.reg(arch.Registers.ip).val] would give, read
    without creating the register. *)
Definition ip_val (c : t) : option Z :=
  reg_val <$> regs c !! canonical (Registers_ip (arch c)) false.

(** The [for] loop of [run] over the instructions that are left;
    [next] is the variable of that name, and the value returned is its
    value when the loop is left. *)
Fixpoint run_insns (insn_list : list Insn) (next : Z) : ST t Z :=
  match insn_list with
  | [] => ret next
  | insn :: rest =>
      (taken <- execute insn;;
       match taken with
       | Some target => ret target
       | None =>
           let next := fst (insn_next insn) in
           set_ip next;;;
           run_insns rest next
       end)%st
  end.

(** One pass through the body of [while True]: the fetch at [next],
    the [for] loop and [reset_temp]; the value returned is [next] at
    the end of the pass. *)
Definition run_pass (storage : Storage) (next : Z) : ST t Z :=
  match get_insn storage next with
  | None => raise (CpuReadError next 0)
  | Some insn_list =>
      (next <- run_insns insn_list next;;
       reset_temp;;;
       ret next)%st
  end.

(** [fuel] passes of [while True].  The loop has no exit: it raises,
    or it is still running after [fuel] passes and about to fetch at
    the address returned. *)
Fixpoint run_loop (fuel : nat) (storage : Storage) (next : Z) : ST t Z :=
  match fuel with
  | O => ret next
  | S fuel' =>
      (next <- run_pass storage next;;
       run_loop fuel' storage next)%st
  end.

Definition run (fuel : nat) (storage : Storage) (addr : Z) : ST t Z :=
  (let next := addr in
   set_storage (Some storage);;;
   set_ip next;;;
   run_loop fuel storage next)%st.

(** The loop of [reset] over the items of the dictionary [regs], in the
    order the iteration yields them. *)
Fixpoint reset_loop (items : list (string * Z)) : ST t unit :=
  match items with
  | [] => ret tt
  | (name, v) :: rest => (reg name v false;;; reset_loop rest)%st
  end.

(** [reset(regs, mem)]: with a dictionary the registers that are missing
    are created from it, without one all registers are dropped. *)
Definition reset (regs : option (list (string * Z))) (mem : option Mem.t)
    : ST t unit :=
  (match regs with
   | Some items => reset_loop items
   | None => fun c => (set_regs ∅ c, Return tt)
   end;;;
   match mem with
   | Some m => fun c => (set_mem m c, Return tt)
   | None => ret tt
   end)%st.

End Cpu.

(** ** class Stack *)
Module Stack.

Definition DEF_STACK_BASE : Z := 0x12000000.

(** The attributes of a [Stack] object; its [mem] is the memory the
    methods below act on. *)
Record t := mk {
  size : Z;
  addr : Z;
  top : Z;
  bottom : Z;
  item_size : Z
}.

(** [Stack(mem, item_size, size = size)]; the region is always
    allocated at [DEF_STACK_BASE]. *)
Definition init (item_size : Z) (size : option Z) : ST Mem.t t :=
  (let size := default 0x1000 size in
   addr <- Mem.alloc (Some DEF_STACK_BASE) (Some size) None;;
   ret (mk size addr (addr + size) (addr + size) item_size))%st.

(** [push(val)]; the stack object after the call is returned. *)
Definition push (v : Z) (s : t) : ST Mem.t t :=
  (let top := top s - item_size s in
   w <- lift (Mem.map_size (item_size s));;
   Mem.store top w v;;;
   ret (mk (size s) (addr s) top (bottom s) (item_size s)))%st.

(** [pop()]: the value read and the stack object after the call. *)
Definition pop (s : t) : ST Mem.t (Z * t) :=
  (w <- lift (Mem.map_size (item_size s));;
   v <- Mem.load (top s) w;;
   ret (v, mk (size s) (addr s) (top s + item_size s) (bottom s)
              (item_size s)))%st.

End Stack.

(** ** class Abi

    An [Abi] object holds a cpu and a storage, and [self.mem] and
    [self.arch] are the memory and the architecture of that cpu.  Only
    the cpu changes, so the methods are state transformers on the cpu
    and [call] takes the storage as an argument. *)
Module Abi.

Definition DUMMY_RET_ADDR : Z := 0xcafebabe.

(** [val + (ptr_len - val % ptr_len)]; Python's [%] raises
    [ZeroDivisionError] on a zero modulus and otherwise gives the
    remainder with the sign of the modulus, as [Z.modulo] does. *)
Definition align (a : Arch) (v : Z) : result Z :=
  if ptr_len a =? 0 then Raise ZeroDivisionError
  else Return (v + (ptr_len a - v mod ptr_len a)).

Definition read (addr size : Z) : ST Cpu.t bytes :=
  Cpu.on_mem (Mem.read addr size).

(** [fill * size] on a string *)
Definition str_times (fill : bytes) (n : Z) : bytes :=
  concat (replicate (Z.to_nat n) fill).

(** [buff(data, addr, fill)]: [data] is a string or a length. *)
Definition buff (data : bytes + Z) (addr : option Z) (fill : option bytes)
    : ST Cpu.t Z :=
  fun c =>
    let '(size, data) :=
      match data with
      | inl s => (len s, Some s)
      | inr n => (n, (fun f => str_times f n) <$> fill)
      end in
    (size <- lift (align (Cpu.arch c) size);;
     Cpu.on_mem (Mem.alloc addr (Some size) data))%st c.

Definition string (s : bytes) : ST Cpu.t Z :=
  buff (inl (s ++ [x00; x00; x00; x00])) None None.

Definition stack (size : option Z) : ST Cpu.t Stack.t :=
  fun c => Cpu.on_mem (Stack.init (ptr_len (Cpu.arch c)) size) c.

(** The loop of [pushargs] over the arguments that are left. *)
Fixpoint pushargs_loop (args : list (bytes + Z)) (stack : Stack.t)
    : ST Cpu.t Stack.t :=
  match args with
  | [] => ret stack
  | a :: rest =>
      (a <- match a with
            | inl s => string s
            | inr n => ret n
            end;;
       stack <- Cpu.on_mem (Stack.push a stack);;
       pushargs_loop rest stack)%st
  end.

Definition pushargs (args : list (bytes + Z)) : ST Cpu.t Stack.t :=
  (let args := rev args in
   stack <- stack None;;
   pushargs_loop args stack)%st.

(** [reg(name, val)]: the register value when [val] is [None], else
    the assignment to it. *)
Definition reg (name : String.string) (v : option Z)
    : ST Cpu.t (option Z) :=
  (r <- Cpu.reg name Cpu.DEF_REG_VAL false;;
   match v with
   | None => ret (Some (reg_val r))
   | Some v => Cpu.set_val r v;;; ret None
   end)%st.

(** How a call of [call] ends within the given number of passes of the
    run loop: it returned, or the cpu is still running and about to
    fetch at [next]. *)
Inductive Completion := Done | Running (next : Z).

(** The statements of [call] before the [try]. *)
Definition call_prepare (args : list (bytes + Z)) : ST Cpu.t unit :=
  fun c =>
    (stack <- pushargs args;;
     stack <- Cpu.on_mem (Stack.push DUMMY_RET_ADDR stack);;
     reg (Registers_sp (Cpu.arch c)) (Some (Stack.top stack));;;
     ret tt)%st c.

(** The [except CpuError as e] clause of [call]. *)
Definition call_except (e : exn) : ST Cpu.t Completion :=
  match exn_addr e with
  | Some a => if negb (a =? DUMMY_RET_ADDR) then raise e else ret Done
  | None => raise e
  end.

Definition call (fuel : nat) (storage : Storage) (addr : Z)
    (args : list (bytes + Z)) : ST Cpu.t Completion :=
  (call_prepare args;;;
   try_except
     (next <- Cpu.run fuel storage addr;; ret (Running next))
     is_CpuError
     call_except)%st.

(** [initial_regs()]: the items of the dictionary that maps every
    general and flag register name to zero. *)
Definition initial_regs (a : Arch) : list (String.string * Z) :=
  (fun name => (name, 0)) <$>
    remove_dups (Registers_general a ++ Registers_flags a).

Definition reset : ST Cpu.t unit :=
  fun c =>
    ((* clear memory *)
     Cpu.on_mem Mem.clear;;;
     (* reset cpu state *)
     Cpu.reset (Some (initial_regs (Cpu.arch c))) None)%st c.

(** How a call of [stdcall] ends within the given number of passes of
    the run loop: with the value of the accumulator, or with the cpu
    still running. *)
Inductive Outcome := Result (v : Z) | Unfinished (next : Z).

Definition stdcall (fuel : nat) (storage : Storage) (addr : Z)
    (args : list (bytes + Z)) : ST Cpu.t Outcome :=
  fun c =>
    ((* init cpu and call target function *)
     reg (Registers_accum (Cpu.arch c)) (Some 0);;;
     done <- call fuel storage addr args;;
     match done with
     | Running next => ret (Unfinished next)
     | Done =>
         (* return accumulator value *)
         r <- Cpu.reg (Registers_accum (Cpu.arch c)) Cpu.DEF_REG_VAL false;;
         ret (Result (reg_val r))
     end)%st c.

Definition cdecl (fuel : nat) (storage : Storage) (addr : Z)
    (args : list (bytes + Z)) : ST Cpu.t Outcome :=
  stdcall fuel storage addr args.

End Abi.

(** ** Concrete machines and programs used by the examples *)

(** Modelled from the spec: the description of 32-bit x86, with pointers
    of 4 bytes. *)
Definition ARCH_X86 : Arch :=
  mkArch 4 "eip" "esp" "eax"
    ["eax"; "ebx"; "ecx"; "edx"; "esi"; "edi"; "ebp"; "esp"]
    ["cf"; "pf"; "af"; "zf"; "sf"; "of"; "df"].

Definition no_arg : Arg := mkArg A_NONE U32 None 0.

(** An unconditional jump to [target], the only REIL instruction of the
    native instruction at [addr], which is [len] bytes long. *)
Definition jmp_insn (addr len target : Z) : Insn :=
  mkInsn addr 0 I_JCC (Const U1 1) no_arg (Const U32 target) (addr + len, 0).

Definition nop_insn (addr : Z) : Insn :=
  mkInsn addr 0 I_NONE no_arg no_arg no_arg (addr + 1, 0).

(** An instruction whose opcode is not a REIL opcode. *)
Definition bad_insn (addr : Z) : Insn :=
  mkInsn addr 0 (I_INVALID 255) no_arg no_arg no_arg (addr + 1, 0).

(** A storage that holds a jump at 0x1000 to [target], and [extra] at
    [target]. *)
Definition jump_storage (target : Z) (extra : option (list Insn)) : Storage :=
  mkStorage
    (fun a => if a =? 0x1000 then Some [jmp_insn 0x1000 2 target]
              else if a =? target then extra
              else None)
    None.

(** A reader that knows the two bytes at 0x1000 and 0x1001 only, and
    answers a request that starts at 0x1000 with what it has of it. *)
Definition short_reader : Reader :=
  fun addr size =>
    if addr =? 0x1000 then Some (take (Z.to_nat size) [xaa; xbb]) else None.

(** A reader that knows the four bytes from 0x1000 on. *)
Definition four_reader : Reader :=
  fun addr size =>
    if addr =? 0x1000
    then Some (take (Z.to_nat size) [xaa; xbb; xcc; xdd])
    else None.

(** A strict memory without a reader in which the two bytes at 0x2000
    and 0x2001 are allocated. *)
Definition two_byte_mem : Mem.t :=
  fst (Mem.alloc (Some 0x2000) (Some 2) None (Mem.init None true)).

(** A strict memory whose reader is [short_reader]. *)
Definition short_mem : Mem.t := Mem.init (Some short_reader) true.

(** A reader that knows no byte at all and answers every request with
    the empty string. *)
Definition empty_reader : Reader := fun addr size => Some [].

(** A strict memory whose reader is [empty_reader]. *)
Definition empty_mem : Mem.t := Mem.init (Some empty_reader) true.

(** The memory of [TestMem.test] after its four stores. *)
Definition test_mem : Mem.t :=
  fst (Mem.store 0 U8 0x88
    (fst (Mem.store 0 U16 0x4444
      (fst (Mem.store 0 U32 0x22222222
        (fst (Mem.store 0 U64 0x1111111111111111
          (Mem.init None false)))))))).

(** ** Notions the statements use *)

(** The integer that the [n]-bit pattern [x] stands for in two's
    complement. *)
Definition twos_complement (n : Z) (x : Z) : Z :=
  if x <? 2 ^ (n - 1) then x else x - 2 ^ n.

(** The value [insn_other] assigns to the destination register: the
    result of [evaluate], read through [get_val]. *)
Definition evaluate_val (op : Opcode) (size : Width) (a b : option Arg)
    : result Z :=
  result_bind (Cpu.evaluate op size a b) (fun r => Return (get_val r)).

(** The memory holds the string [s] from [addr] on. *)
Definition holds (d : gmap Z byte) (addr : Z) (s : bytes) : Prop :=
  forall (i : nat) b, s !! i = Some b -> d !! (addr + Z.of_nat i) = Some b.

(** The state a read leaves when the reader has answered with [s]. *)
Definition filled (m : Mem.t) (addr size : Z) (s : bytes) : Mem.t :=
  Mem.set_data
    (Mem.alloc_loop (Mem.data m) addr (Some s) (range (len s)))
    (Mem.add_query (addr, size) m).

(** Every register object is stored under its own name, as [reg]
    stores it. *)
Definition regs_named (c : Cpu.t) : Prop :=
  forall k r, Cpu.regs c !! k = Some r -> reg_name r = k.

(** An operand that refers to a register carries its name. *)
Definition arg_named (a : Arg) : Prop :=
  match arg_type a with
  | A_REG | A_TEMP => is_Some (arg_name a)
  | A_CONST | A_NONE => True
  end.

(** The value of the register stored under the key [k]. *)
Definition reg_at (c : Cpu.t) (k : string) : option Z :=
  reg_val <$> Cpu.regs c !! k.

(** The method [f] keeps the property [P] of its object, whether it
    returns or raises. *)
Definition keeps {S A} (P : S -> Prop) (f : ST S A) : Prop :=
  forall s s' r, P s -> f s = (s', r) -> P s'.


(** The cpu after the assignment [self.reg(name).val = v], where [k]
    is the canonical name: the register keeps its kind, and one that the
    assignment creates is not temporary. *)
Definition assign (k : string) (v : Z) (c : Cpu.t) : Cpu.t :=
  Cpu.set_regs
    (<[k := mkReg k v (from_option is_temp false (Cpu.regs c !! k))]>
       (Cpu.regs c)) c.

(** The REIL instructions of a function of 32-bit x86 that returns the
    constant [v], held by the storage as one native instruction: the
    constant goes to the accumulator, the return address is loaded from
    the top of the stack, and the jump goes to it. *)
Definition ret_const (addr v : Z) : list Insn :=
  [ mkInsn addr 0 I_STR (Const U32 v) no_arg
      (mkArg A_REG U32 (Some "R_EAX") 0) (addr, 1);
    mkInsn addr 1 I_LDM (mkArg A_REG U32 (Some "R_ESP") 0) no_arg
      (mkArg A_REG U32 (Some "R_ECX") 0) (addr, 2);
    mkInsn addr 2 I_JCC (Const U1 1) no_arg
      (mkArg A_REG U32 (Some "R_ECX") 0) (addr + 5, 0) ].

(** The code storage that holds this function at [addr] and nothing
    else, and has no reader. *)
Definition ret_const_storage (addr v : Z) : Storage :=
  mkStorage (fun a => if a =? addr then Some (ret_const addr v) else None)
    None.

(** The register under the key [k], if it is there, is not temporary. *)
Definition not_temp (c : Cpu.t) (k : string) : Prop :=
  forall r, Cpu.regs c !! k = Some r -> is_temp r = false.

(** REIL instructions that do what a native [pop r] at [addr], one
    byte long, does: the load from the top of the stack and the move of
    the stack pointer. *)
Definition pop_insns (addr : Z) (r : string) : list Insn :=
  [ mkInsn addr 0 I_LDM (mkArg A_REG U32 (Some "R_ESP") 0) no_arg
      (mkArg A_REG U32 (Some r) 0) (addr, 1);
    mkInsn addr 1 I_ADD (mkArg A_REG U32 (Some "R_ESP") 0) (Const U32 4)
      (mkArg A_REG U32 (Some "R_ESP") 0) (addr + 1, 0) ].

(** A REIL instruction that does what a native [jmp r] at [addr], two
    bytes long, does. *)
Definition jmp_reg_insns (addr : Z) (r : string) : list Insn :=
  [ mkInsn addr 0 I_JCC (Const U1 1) no_arg
      (mkArg A_REG U32 (Some r) 0) (addr + 2, 0) ].

(** The code storage with the function [pop ecx; pop eax; jmp ecx] at
    [addr], which returns its first argument, and no reader. *)
Definition first_arg_storage (addr : Z) : Storage :=
  mkStorage
    (fun a =>
       if a =? addr then Some (pop_insns addr "R_ECX")
       else if a =? addr + 1 then Some (pop_insns (addr + 1) "R_EAX")
       else if a =? addr + 2 then Some (jmp_reg_insns (addr + 2) "R_ECX")
       else None)
    None.
(** * Properties *)

(** ** Math *)

Lemma get_val_range (a : Arg) :
  0 <= get_val a < 2 ^ width_bits (arg_size a).
Proof.
  unfold get_val. rewrite Z.land_ones by (destruct (arg_size a); simpl; lia).
  apply Z.mod_pos_bound. destruct (arg_size a); simpl; lia.
Qed.

Lemma width_bits_le_np_width (w : Width) :
  2 ^ width_bits w <= 2 ^ Math.np_width w.
Proof. destruct w; simpl; lia. Qed.

Lemma val_u_get_val (a : Arg) : Math.np_val (Math.val_u a) = get_val a.
Proof.
  unfold Math.val_u, Math.np, Math.np_wrap, Math.val. simpl.
  pose proof (get_val_range a). pose proof (width_bits_le_np_width (arg_size a)).
  apply Z.mod_small. lia.
Qed.

Lemma np_wrap_signed_small (n z : Z) :
  0 < n -> - 2 ^ (n - 1) <= z < 2 ^ (n - 1) -> Math.np_wrap true n z = z.
Proof.
  intros Hn Hz. unfold Math.np_wrap.
  assert (H2 : 2 ^ n = 2 * 2 ^ (n - 1)).
  { replace n with (Z.succ (n - 1)) at 1 by lia. apply Z.pow_succ_r. lia. }
  rewrite Z.mod_small; lia.
Qed.

Lemma val_s_twos_complement (a : Arg) :
  Math.np_val (Math.val_s a) =
  twos_complement (Math.np_width (arg_size a)) (get_val a).
Proof.
  change (Math.np_val (Math.val_s a))
    with (Math.np_wrap true (Math.np_width (arg_size a))
            (Math.np_val (Math.val_u a))).
  rewrite val_u_get_val.
  pose proof (get_val_range a) as Hr.
  pose proof (width_bits_le_np_width (arg_size a)) as Hw.
  set (n := Math.np_width (arg_size a)) in *.
  assert (Hn : 0 < n) by (subst n; destruct (arg_size a); simpl; lia).
  assert (H2 : 2 ^ n = 2 * 2 ^ (n - 1)).
  { replace n with (Z.succ (n - 1)) at 1 by lia. apply Z.pow_succ_r. lia. }
  assert (Hp : 0 < 2 ^ (n - 1)) by (apply Z.pow_pos_nonneg; lia).
  unfold twos_complement, Math.np_wrap.
  destruct (get_val a <? 2 ^ (n - 1)) eqn:E.
  - apply Z.ltb_lt in E. rewrite Z.mod_small; lia.
  - apply Z.ltb_ge in E.
    replace (get_val a + 2 ^ (n - 1))
      with (get_val a - 2 ^ (n - 1) + 1 * 2 ^ n) by lia.
    rewrite Z.mod_add by lia. rewrite Z.mod_small; lia.
Qed.

Lemma twos_complement_range (n x : Z) :
  0 < n -> 0 <= x < 2 ^ n ->
  - 2 ^ (n - 1) <= twos_complement n x < 2 ^ (n - 1).
Proof.
  intros Hn Hx.
  assert (H2 : 2 ^ n = 2 * 2 ^ (n - 1)).
  { replace n with (Z.succ (n - 1)) at 1 by lia. apply Z.pow_succ_r. lia. }
  unfold twos_complement. destruct (x <? 2 ^ (n - 1)) eqn:E.
  - apply Z.ltb_lt in E. lia.
  - apply Z.ltb_ge in E. lia.
Qed.

Lemma val_s_range (a : Arg) :
  let n := Math.np_width (arg_size a) in
  - 2 ^ (n - 1) <= Math.np_val (Math.val_s a) < 2 ^ (n - 1).
Proof.
  intros n. rewrite val_s_twos_complement. apply twos_complement_range.
  - subst n; destruct (arg_size a); simpl; lia.
  - pose proof (get_val_range a). pose proof (width_bits_le_np_width (arg_size a)).
    subst n. lia.
Qed.

(** The floor quotient of two numbers of a signed range stays in the
    range, except for the least number divided by -1. *)
Lemma floor_div_range (M x y : Z) :
  0 < M -> - M <= x < M -> - M <= y < M -> y <> 0 ->
  ~ (x = - M /\ y = -1) ->
  - M <= x / y < M.
Proof.
  intros HM Hx Hy Hy0 Hov.
  destruct (Z_lt_le_dec 0 y) as [Hpos | Hneg].
  - split.
    + apply Z.div_le_lower_bound; nia.
    + apply Z.div_lt_upper_bound; nia.
  - assert (Hy' : 0 < - y) by lia.
    rewrite <- (Z.div_opp_opp x y) by lia.
    split.
    + apply Z.div_le_lower_bound; nia.
    + apply Z.div_lt_upper_bound; nia.
Qed.

Lemma floor_mod_range (M x y : Z) :
  0 < M -> - M <= y < M -> y <> 0 -> - M <= x mod y < M.
Proof.
  intros HM Hy Hy0.
  destruct (Z_lt_le_dec 0 y) as [Hpos | Hneg].
  - pose proof (Z.mod_pos_bound x y Hpos). lia.
  - pose proof (Z.mod_neg_bound x y ltac:(lia)). lia.
Qed.

Lemma np_width_pos (w : Width) : 0 < Math.np_width w.
Proof. destruct w; simpl; lia. Qed.

Lemma eval_s_binop (f : Z -> Z -> Z) (a b : Arg) :
  Math.eval_s (Math.np_binop f) (Some a) (Some b) =
  Return (Math.np_wrap true
            (Z.max (Math.np_width (arg_size a)) (Math.np_width (arg_size b)))
            (f (Math.np_val (Math.val_s a)) (Math.np_val (Math.val_s b)))).
Proof. reflexivity. Qed.

Lemma eval_u_binop (f : Z -> Z -> Z) (a b : Arg) :
  Math.eval_u (Math.np_binop f) (Some a) (Some b) =
  Return (Math.np_wrap false
            (Z.max (Math.np_width (arg_size a)) (Math.np_width (arg_size b)))
            (f (Math.np_val (Math.val_u a)) (Math.np_val (Math.val_u b)))).
Proof. reflexivity. Qed.

(** C1, as the code has it: on two operands of the same width, with a
    divisor that is not zero and no overflow (the least number divided
    by -1), I_SDIV reads both operands in two's complement at the width
    of their numpy type and returns the quotient rounded towards minus
    infinity, which is what [Z.div] is; at U8, I_SDIV(0xFF, 0x02) is -1,
    stored as 0xFF, and I_DIV(0xFF, 0x02) is 0x7F. *)
Theorem sdiv_floor (a b : Arg) :
  let n := Math.np_width (arg_size a) in
  let sa := twos_complement n (get_val a) in
  let sb := twos_complement n (get_val b) in
  arg_size a = arg_size b ->
  sb <> 0 ->
  ~ (sa = - 2 ^ (n - 1) /\ sb = -1) ->
  Math.eval I_SDIV (Some a) (Some b) = Return (sa / sb) /\
  (0 < sb -> sb * (sa / sb) <= sa < sb * (sa / sb + 1)) /\
  (sb < 0 -> sb * (sa / sb + 1) < sa <= sb * (sa / sb)) /\
  Math.eval I_SDIV (Some (Const U8 0xFF)) (Some (Const U8 0x02)) = Return (-1) /\
  evaluate_val I_SDIV U8 (Some (Const U8 0xFF)) (Some (Const U8 0x02))
    = Return 0xFF /\
  Math.eval I_DIV (Some (Const U8 0xFF)) (Some (Const U8 0x02)) = Return 0x7F.
Proof.
  intros n sa sb Hsize Hsb Hov.
  assert (Ha : Math.np_val (Math.val_s a) = sa) by apply val_s_twos_complement.
  assert (Hb : Math.np_val (Math.val_s b) = sb).
  { rewrite val_s_twos_complement, <- Hsize. reflexivity. }
  pose proof (val_s_range a) as Hra. pose proof (val_s_range b) as Hrb.
  cbv zeta in Hra, Hrb. rewrite <- Hsize in Hrb. fold n in Hra, Hrb.
  rewrite Ha in Hra. rewrite Hb in Hrb.
  pose proof (np_width_pos (arg_size a)) as Hn. fold n in Hn.
  assert (HM : 0 < 2 ^ (n - 1)) by (apply Z.pow_pos_nonneg; lia).
  split; [| split; [| split; [| split; [| split]]]].
  - change (Math.eval I_SDIV (Some a) (Some b))
      with (Math.eval_s (Math.np_binop Math.np_divide) (Some a) (Some b)).
    rewrite eval_s_binop, Ha, Hb, <- Hsize. fold n. rewrite Z.max_id.
    unfold Math.np_divide. destruct (sb =? 0) eqn:E; [apply Z.eqb_eq in E; lia |].
    f_equal. apply np_wrap_signed_small; [lia |].
    apply floor_div_range; auto.
  - intros Hpos. pose proof (Z.div_mod sa sb Hsb).
    pose proof (Z.mod_pos_bound sa sb Hpos). lia.
  - intros Hneg. pose proof (Z.div_mod sa sb Hsb).
    pose proof (Z.mod_neg_bound sa sb Hneg). lia.
  - reflexivity.
  - reflexivity.
  - reflexivity.
Qed.

Lemma sdiv_floor_witness :
  Math.eval I_SDIV (Some (Const U16 0xFFF9)) (Some (Const U16 0x0002))
  = Return (-4).
Proof.
  pose proof (sdiv_floor (Const U16 0xFFF9) (Const U16 0x0002)) as H.
  simpl in H.
  destruct H as [H _]; [reflexivity | vm_compute; discriminate | |].
  - vm_compute. intros [H _]. discriminate.
  - exact H.
Defined.

(** C1 as the spec states it fails: at U8, I_SDIV(0xFF, 0x02) is not the
    quotient truncated towards zero, which is 0. *)
Lemma sdiv_trunc_counterexample :
  Z.quot (twos_complement 8 0xFF) (twos_complement 8 0x02) = 0 /\
  Math.eval I_SDIV (Some (Const U8 0xFF)) (Some (Const U8 0x02)) <> Return 0 /\
  evaluate_val I_SDIV U8 (Some (Const U8 0xFF)) (Some (Const U8 0x02))
    <> Return 0x00.
Proof. repeat split; vm_compute; discriminate. Qed.

Lemma val_s_zero (b : Arg) : get_val b = 0 -> Math.np_val (Math.val_s b) = 0.
Proof.
  intros H. rewrite val_s_twos_complement, H. unfold twos_complement.
  pose proof (np_width_pos (arg_size b)).
  assert (0 < 2 ^ (Math.np_width (arg_size b) - 1))
    by (apply Z.pow_pos_nonneg; lia).
  destruct (0 <? 2 ^ (Math.np_width (arg_size b) - 1)) eqn:E;
    [reflexivity | apply Z.ltb_ge in E; lia].
Qed.

Lemma np_wrap_zero (signed : bool) (n : Z) : 0 < n -> Math.np_wrap signed n 0 = 0.
Proof.
  intros Hn. destruct signed.
  - apply np_wrap_signed_small; [lia |].
    assert (0 < 2 ^ (n - 1)) by (apply Z.pow_pos_nonneg; lia). lia.
  - unfold Math.np_wrap. apply Z.mod_0_l.
    assert (0 < 2 ^ n) by (apply Z.pow_pos_nonneg; lia). lia.
Qed.

Lemma np_divide_zero (x : Z) : Math.np_divide x 0 = 0.
Proof. reflexivity. Qed.

Lemma np_remainder_zero (x : Z) : Math.np_remainder x 0 = 0.
Proof. unfold Math.np_remainder. rewrite orb_true_r. reflexivity. Qed.

Lemma max_np_width_pos (v w : Width) :
  0 < Z.max (Math.np_width v) (Math.np_width w).
Proof. pose proof (np_width_pos v). lia. Qed.

(** C2, as the code has it: for every width and every dividend, each of
    I_DIV, I_MOD, I_SDIV and I_SMOD with a divisor whose value is zero
    raises nothing and evaluates to 0, the result numpy gives for an
    integer division by zero. *)
Theorem div_by_zero_returns_zero (op : Opcode) (a b : Arg) :
  op = I_DIV \/ op = I_MOD \/ op = I_SDIV \/ op = I_SMOD ->
  get_val b = 0 ->
  Math.eval op (Some a) (Some b) = Return 0.
Proof.
  intros Hop Hb.
  pose proof (max_np_width_pos (arg_size a) (arg_size b)) as Hw.
  destruct Hop as [-> | [-> | [-> | ->]]].
  - change (Math.eval I_DIV (Some a) (Some b))
      with (Math.eval_u (Math.np_binop Math.np_divide) (Some a) (Some b)).
    rewrite eval_u_binop, (val_u_get_val b), Hb, np_divide_zero.
    rewrite np_wrap_zero by exact Hw. reflexivity.
  - change (Math.eval I_MOD (Some a) (Some b))
      with (Math.eval_u (Math.np_binop Math.np_remainder) (Some a) (Some b)).
    rewrite eval_u_binop, (val_u_get_val b), Hb, np_remainder_zero.
    rewrite np_wrap_zero by exact Hw. reflexivity.
  - change (Math.eval I_SDIV (Some a) (Some b))
      with (Math.eval_s (Math.np_binop Math.np_divide) (Some a) (Some b)).
    rewrite eval_s_binop, (val_s_zero b Hb), np_divide_zero.
    rewrite np_wrap_zero by exact Hw. reflexivity.
  - change (Math.eval I_SMOD (Some a) (Some b))
      with (Math.eval_s (Math.np_binop Math.np_remainder) (Some a) (Some b)).
    rewrite eval_s_binop, (val_s_zero b Hb), np_remainder_zero.
    rewrite np_wrap_zero by exact Hw. reflexivity.
Qed.

Lemma div_by_zero_returns_zero_witness :
  Math.eval I_SMOD (Some (Const U32 0x80000001)) (Some (Const U32 0))
  = Return 0.
Proof.
  apply (div_by_zero_returns_zero I_SMOD (Const U32 0x80000001) (Const U32 0)).
  - right. right. right. reflexivity.
  - reflexivity.
Defined.

(** C2 as the spec states it fails: at U8, I_DIV(1, 0) raises no
    exception at all; it returns a value. *)
Lemma div_by_zero_counterexample :
  ~ raises (Math.eval I_DIV (Some (Const U8 1)) (Some (Const U8 0))) /\
  ~ raises (Math.eval I_MOD (Some (Const U8 1)) (Some (Const U8 0))) /\
  ~ raises (Math.eval I_SDIV (Some (Const U8 1)) (Some (Const U8 0))) /\
  ~ raises (Math.eval I_SMOD (Some (Const U8 1)) (Some (Const U8 0))).
Proof.
  repeat split; intros [e H]; vm_compute in H; discriminate.
Qed.

(** C3, as the code has it: on two operands of the same width with a
    divisor that is not zero, I_SMOD reads both operands in two's
    complement and returns the remainder of the division rounded
    towards minus infinity: it is zero or has the sign of the divisor,
    not of the dividend; at U8, I_SMOD(0xFF, 0x02), that is -1 mod 2,
    yields +1. *)
Theorem smod_sign_of_divisor (a b : Arg) :
  let n := Math.np_width (arg_size a) in
  let sa := twos_complement n (get_val a) in
  let sb := twos_complement n (get_val b) in
  arg_size a = arg_size b ->
  sb <> 0 ->
  Math.eval I_SMOD (Some a) (Some b) = Return (sa mod sb) /\
  sa = sb * (sa / sb) + sa mod sb /\
  (0 < sb -> 0 <= sa mod sb < sb) /\
  (sb < 0 -> sb < sa mod sb <= 0) /\
  Math.eval I_SMOD (Some (Const U8 0xFF)) (Some (Const U8 0x02)) = Return 1.
Proof.
  intros n sa sb Hsize Hsb.
  assert (Ha : Math.np_val (Math.val_s a) = sa) by apply val_s_twos_complement.
  assert (Hb : Math.np_val (Math.val_s b) = sb).
  { rewrite val_s_twos_complement, <- Hsize. reflexivity. }
  pose proof (val_s_range b) as Hrb.
  cbv zeta in Hrb. rewrite <- Hsize in Hrb. fold n in Hrb. rewrite Hb in Hrb.
  pose proof (np_width_pos (arg_size a)) as Hn. fold n in Hn.
  assert (HM : 0 < 2 ^ (n - 1)) by (apply Z.pow_pos_nonneg; lia).
  split; [| split; [| split; [| split]]].
  - change (Math.eval I_SMOD (Some a) (Some b))
      with (Math.eval_s (Math.np_binop Math.np_remainder) (Some a) (Some b)).
    rewrite eval_s_binop, Ha, Hb, <- Hsize. fold n. rewrite Z.max_id.
    f_equal.
    assert (Hrem : Math.np_remainder sa sb = sa mod sb).
    { unfold Math.np_remainder.
      destruct (sa =? 0) eqn:Ea; destruct (sb =? 0) eqn:Eb; simpl;
        try (apply Z.eqb_eq in Eb; lia); [| reflexivity].
      apply Z.eqb_eq in Ea. rewrite Ea. symmetry. apply Z.mod_0_l. exact Hsb. }
    rewrite Hrem. apply np_wrap_signed_small; [lia |].
    apply floor_mod_range; auto.
  - apply Z.div_mod. exact Hsb.
  - intros Hpos. apply Z.mod_pos_bound. exact Hpos.
  - intros Hneg. apply Z.mod_neg_bound. exact Hneg.
  - reflexivity.
Qed.

Lemma smod_sign_of_divisor_witness :
  Math.eval I_SMOD (Some (Const U16 0xFFF9)) (Some (Const U16 0x0002))
  = Return 1.
Proof.
  pose proof (smod_sign_of_divisor (Const U16 0xFFF9) (Const U16 0x0002)) as H.
  destruct H as [H _]; [reflexivity | vm_compute; discriminate |].
  exact H.
Defined.

(** C3 as the spec states it fails: at U8, I_SMOD(0xFF, 0x02) is not the
    remainder with the sign of the dividend, which is -1, stored as
    0xFF. *)
Lemma smod_sign_counterexample :
  Z.rem (twos_complement 8 0xFF) (twos_complement 8 0x02) = -1 /\
  Math.eval I_SMOD (Some (Const U8 0xFF)) (Some (Const U8 0x02))
    <> Return (-1) /\
  evaluate_val I_SMOD U8 (Some (Const U8 0xFF)) (Some (Const U8 0x02))
    <> Return 0xFF.
Proof. repeat split; vm_compute; discriminate. Qed.

(** ** Mem: bytes and little-endian strings *)

Lemma Z_of_byte_of_Z (z : Z) : Z_of_byte (byte_of_Z z) = z mod 256.
Proof.
  unfold Z_of_byte, byte_of_Z.
  pose proof (Z.mod_pos_bound z 256 ltac:(lia)) as Hr.
  destruct (Byte.of_N (Z.to_N (z mod 256))) as [b |] eqn:E.
  - apply Byte.to_of_N in E. rewrite E. apply Z2N.id. lia.
  - apply Byte.of_N_None_iff in E. lia.
Qed.

Lemma length_le_bytes (n : nat) (v : Z) : length (Mem.le_bytes n v) = n.
Proof.
  revert v. induction n as [| n IH]; intros v; simpl; [reflexivity |].
  rewrite IH. reflexivity.
Qed.

Lemma le_value_le_bytes (n : nat) (v : Z) :
  Mem.le_value (Mem.le_bytes n v) = v mod 256 ^ Z.of_nat n.
Proof.
  revert v. induction n as [| n IH]; intros v.
  - simpl. symmetry. apply Z.mod_1_r.
  - cbn [Mem.le_bytes Mem.le_value]. rewrite Z_of_byte_of_Z, IH.
    rewrite Nat2Z.inj_succ, Z.pow_succ_r by lia.
    symmetry. apply Z.rem_mul_r; [lia |].
    apply Z.pow_pos_nonneg; lia.
Qed.

Lemma calcsize_pos (f : Mem.Format) : 0 < Mem.calcsize f.
Proof. destruct f; simpl; lia. Qed.

(** What [pack] returns is a string of [map_length] bytes that [unpack]
    reads back. *)
Lemma pack_unpack (w : Width) (k : Z) (s : bytes) :
  Mem.pack w k = Return s ->
  Mem.map_length w = Return (len s) /\ Mem.unpack w s = Return k.
Proof.
  unfold Mem.pack, Mem.unpack. intros H.
  assert (Hf : exists f, Mem.map_format w = Return f /\
                         Mem.map_length w = Return (Mem.calcsize f)).
  { destruct w; simpl in *; try discriminate; eauto. }
  destruct Hf as (f & Hf & Hl). rewrite Hf in *. simpl in *.
  unfold Mem.struct_pack in H.
  destruct ((0 <=? k) && (k <? 2 ^ (8 * Mem.calcsize f))) eqn:E;
    [| discriminate].
  apply andb_true_iff in E. destruct E as [E1 E2].
  apply Z.leb_le in E1. apply Z.ltb_lt in E2.
  injection H as <-.
  pose proof (calcsize_pos f) as Hpos.
  assert (Hlen : len (Mem.le_bytes (Z.to_nat (Mem.calcsize f)) k)
                 = Mem.calcsize f).
  { unfold len. rewrite length_le_bytes. apply Z2Nat.id. lia. }
  split.
  - rewrite Hlen. exact Hl.
  - unfold Mem.struct_unpack. rewrite Hlen, Z.eqb_refl.
    rewrite le_value_le_bytes, Z2Nat.id by lia.
    f_equal. apply Z.mod_small.
    replace (256 ^ Mem.calcsize f) with (2 ^ (8 * Mem.calcsize f)); [lia |].
    rewrite Z.pow_mul_r by lia. reflexivity.
Qed.

Lemma pack_in_range (w : Width) (k n : Z) :
  Mem.map_length w = Return n -> 0 <= k < 2 ^ (8 * n) ->
  exists s, Mem.pack w k = Return s /\ len s = n.
Proof.
  intros Hn Hk. unfold Mem.pack.
  assert (Hf : exists f, Mem.map_format w = Return f /\ Mem.calcsize f = n).
  { destruct w; simpl in *; try discriminate; injection Hn as <-; eauto. }
  destruct Hf as (f & Hf & Hc). rewrite Hf. simpl. unfold Mem.struct_pack.
  rewrite Hc.
  assert (E : (0 <=? k) && (k <? 2 ^ (8 * n)) = true).
  { apply andb_true_iff. split; [apply Z.leb_le | apply Z.ltb_lt]; lia. }
  rewrite E. eexists. split; [reflexivity |].
  unfold len. rewrite length_le_bytes. apply Z2Nat.id.
  pose proof (calcsize_pos f). lia.
Qed.

(** ** Mem: the loops *)

Lemma range_len {A} (s : list A) : range (len s) = Z.of_nat <$> seq 0 (length s).
Proof. unfold range, len. rewrite Nat2Z.id. reflexivity. Qed.

Lemma _read_loop_holds (d : gmap Z byte) (addr : Z) (s : bytes) :
  forall (j : nat) (acc : bytes),
    (forall (i : nat) b,
        s !! i = Some b -> d !! (addr + Z.of_nat (j + i)) = Some b) ->
    Mem._read_loop d addr (Z.of_nat <$> seq j (length s)) acc
    = Return (acc ++ s).
Proof.
  induction s as [| b s IH]; intros j acc H; simpl.
  - rewrite app_nil_r. reflexivity.
  - pose proof (H 0%nat b eq_refl) as H0. rewrite Nat.add_0_r in H0.
    rewrite H0, IH.
    + rewrite <- app_assoc. reflexivity.
    + intros i b' Hi. specialize (H (S i) b' Hi).
      replace (S j + i)%nat with (j + S i)%nat by lia. exact H.
Qed.

Lemma _read_loop_undefined (d : gmap Z byte) (addr : Z) :
  forall (n j : nat) (acc : bytes) (i : nat),
    (j <= i < j + n)%nat -> d !! (addr + Z.of_nat i) = None ->
    Mem._read_loop d addr (Z.of_nat <$> seq j n) acc
    = Raise (MemReadError addr).
Proof.
  induction n as [| n IH]; intros j acc i Hi Hnone; [lia |].
  simpl. destruct (d !! (addr + Z.of_nat j)) as [b |] eqn:E; [| reflexivity].
  apply (IH (S j) _ i); [| exact Hnone].
  destruct (decide (i = j)) as [-> | Hne]; [congruence | lia].
Qed.

(** What the loop of [_write] does: it stores the first [k] bytes, and
    then it is done, or it meets an undefined address, or the string has
    run out. *)
Lemma _write_loop_spec (addr : Z) (s : bytes) :
  forall (n j : nat) (d d' : gmap Z byte) (r : result unit),
    Mem._write_loop d addr s (Z.of_nat <$> seq j n) = (d', r) ->
    exists k : nat,
      (k <= n)%nat /\
      (forall i : nat, (j <= i < j + k)%nat ->
         is_Some (d !! (addr + Z.of_nat i)) /\
         is_Some (s !! i) /\
         d' !! (addr + Z.of_nat i) = s !! i) /\
      (forall a, (forall i : nat, (j <= i < j + k)%nat -> a <> addr + Z.of_nat i) ->
         d' !! a = d !! a) /\
      ((k = n /\ r = Return tt) \/
       ((k < n)%nat /\ d !! (addr + Z.of_nat (j + k)) = None /\
        r = Raise (MemWriteError addr)) \/
       ((k < n)%nat /\ is_Some (d !! (addr + Z.of_nat (j + k))) /\
        s !! (j + k)%nat = None /\ r = Raise IndexError)).
Proof.
  induction n as [| n IH]; intros j d d' r H.
  - simpl in H. injection H as <- <-. exists 0%nat.
    split; [lia |]. split; [intros; lia |]. split; [reflexivity |].
    left. split; reflexivity.
  - simpl in H. rewrite Nat2Z.id in H.
    destruct (d !! (addr + Z.of_nat j)) as [old |] eqn:Ed.
    + destruct (s !! j) as [b |] eqn:Es.
      * apply IH in H. destruct H as (k & Hk & Hin & Hout & Hend).
        exists (S k). split; [lia |].
        assert (Hj : d' !! (addr + Z.of_nat j) = Some b).
        { rewrite Hout; [apply lookup_insert_eq |]. intros i Hi. lia. }
        split; [| split].
        -- intros i Hi. destruct (decide (i = j)) as [-> | Hne].
           ++ rewrite Ed, Es, Hj. eauto.
           ++ destruct (Hin i ltac:(lia)) as (H1 & H2 & H3).
              rewrite lookup_insert_ne in H1 by lia. eauto.
        -- intros a Ha. rewrite Hout.
           ++ apply lookup_insert_ne. specialize (Ha j ltac:(lia)). congruence.
           ++ intros i Hi. apply Ha. lia.
        -- replace (j + S k)%nat with (S j + k)%nat by lia.
           destruct Hend as [[-> ->] | [(Hlt & Hn & ->) | (Hlt & Hs & Hn & ->)]].
           ++ left. split; reflexivity.
           ++ right. left. split; [lia |].
              rewrite lookup_insert_ne in Hn by lia. split; [exact Hn | reflexivity].
           ++ right. right. split; [lia |].
              rewrite lookup_insert_ne in Hs by lia. repeat split; assumption.
      * injection H as <- <-. exists 0%nat.
        split; [lia |]. split; [intros; lia |]. split; [reflexivity |].
        right. right. rewrite Nat.add_0_r, Ed. split; [lia |]. eauto.
    + injection H as <- <-. exists 0%nat.
      split; [lia |]. split; [intros; lia |]. split; [reflexivity |].
      right. left. rewrite Nat.add_0_r. split; [lia |]. eauto.
Qed.

Lemma lookup_alloc_loop (d : gmap Z byte) (addr : Z) (s : option bytes)
    (n : nat) (a : Z) :
  Mem.alloc_loop d addr s (Z.of_nat <$> seq 0 n) !! a =
  if decide (addr <= a < addr + Z.of_nat n)
  then Some (Mem.alloc_byte s (a - addr))
  else d !! a.
Proof.
  induction n as [| n IH].
  - simpl. case_decide; [lia | reflexivity].
  - rewrite seq_S, fmap_app. unfold Mem.alloc_loop in *.
    rewrite foldl_app. simpl. rewrite lookup_insert, IH.
    repeat case_decide; try lia; try reflexivity.
    f_equal. f_equal. lia.
Qed.

Lemma alloc_byte_lookup (s : bytes) (i : nat) (b : byte) :
  s !! i = Some b -> Mem.alloc_byte (Some s) (Z.of_nat i) = b.
Proof.
  intros H. unfold Mem.alloc_byte, len.
  pose proof (lookup_lt_Some _ _ _ H) as Hlt.
  destruct (Z.of_nat (length s) <=? Z.of_nat i) eqn:E;
    [apply Z.leb_le in E; lia |].
  rewrite Nat2Z.id, H. reflexivity.
Qed.

Lemma holds_alloc_loop (d : gmap Z byte) (addr : Z) (s : bytes) :
  holds (Mem.alloc_loop d addr (Some s) (range (len s))) addr s.
Proof.
  intros i b H. rewrite range_len, lookup_alloc_loop.
  pose proof (lookup_lt_Some _ _ _ H) as Hlt.
  case_decide; [| lia].
  replace (addr + Z.of_nat i - addr) with (Z.of_nat i) by lia.
  f_equal. apply alloc_byte_lookup, H.
Qed.

(** ** Mem: reading *)

Lemma _read_defined (m : Mem.t) (addr : Z) (s : bytes) :
  holds (Mem.data m) addr s -> Mem._read addr (len s) m = (m, Return s).
Proof.
  intros H. unfold Mem._read. rewrite range_len.
  rewrite (_read_loop_holds (Mem.data m) addr s 0 []); [reflexivity |].
  intros i b Hi. apply H, Hi.
Qed.

Lemma read_defined (m : Mem.t) (addr : Z) (s : bytes) :
  holds (Mem.data m) addr s -> Mem.read addr (len s) m = (m, Return s).
Proof.
  intros H. unfold Mem.read, try_except. rewrite (_read_defined _ _ _ H).
  reflexivity.
Qed.

Lemma _read_undefined (m : Mem.t) (addr size i : Z) :
  0 <= i < size -> Mem.data m !! (addr + i) = None ->
  Mem._read addr size m = (m, Raise (MemReadError addr)).
Proof.
  intros Hi Hn. unfold Mem._read, range.
  rewrite (_read_loop_undefined (Mem.data m) addr (Z.to_nat size) 0 []
             (Z.to_nat i)); [reflexivity | lia |].
  rewrite Z2Nat.id by lia. exact Hn.
Qed.

Lemma read_undefined (m : Mem.t) (addr size i : Z) :
  0 <= i < size -> Mem.data m !! (addr + i) = None ->
  Mem.read addr size m =
  match Mem.reader m with
  | None => (m, Raise (MemReadError addr))
  | Some r =>
      match r addr size with
      | None => (Mem.add_query (addr, size) m, Raise (MemReadError addr))
      | Some s => (filled m addr size s, Return s)
      end
  end.
Proof.
  intros Hi Hn. unfold Mem.read, try_except.
  rewrite (_read_undefined m addr size i Hi Hn). simpl.
  destruct (Mem.reader m) as [r |]; [| reflexivity].
  unfold bind, Mem.reader_read. destruct (r addr size) as [s |]; reflexivity.
Qed.

Lemma holds_take (d : gmap Z byte) (addr : Z) (s : bytes) (n : nat) :
  holds d addr s -> holds d addr (take n s).
Proof.
  intros H i b Hi. apply H. rewrite lookup_take_Some in Hi. tauto.
Qed.

(** C5, as the code has it: on a read of a range with an undefined
    byte, a missing reader or a reader that answers [None] makes the
    read fail with MemReadError at the requested address; when the
    reader returns a string, all of that string is installed at the
    address and returned, and when the string is at least as long as
    the request, a subsequent read of the same range is served from the
    map: it returns the requested bytes and leaves the record of reader
    calls as it was. *)
Theorem read_demand_fill (m : Mem.t) (addr size : Z) :
  (exists i, 0 <= i < size /\ Mem.data m !! (addr + i) = None) ->
  (Mem.reader m = None ->
     Mem.read addr size m = (m, Raise (MemReadError addr))) /\
  (forall r, Mem.reader m = Some r -> r addr size = None ->
     exists m1, Mem.read addr size m = (m1, Raise (MemReadError addr)) /\
                Mem.data m1 = Mem.data m) /\
  (forall r s, Mem.reader m = Some r -> r addr size = Some s ->
     exists m1, Mem.read addr size m = (m1, Return s) /\
                holds (Mem.data m1) addr s /\
                Mem.queries m1 = (addr, size) :: Mem.queries m /\
                (size <= len s ->
                   Mem.read addr size m1
                   = (m1, Return (take (Z.to_nat size) s)))).
Proof.
  intros (i & Hi & Hn).
  pose proof (read_undefined m addr size i Hi Hn) as Hread.
  split; [| split].
  - intros Hr. rewrite Hread, Hr. reflexivity.
  - intros r Hr Hnone. rewrite Hread, Hr, Hnone. eexists. split; reflexivity.
  - intros r s Hr Hs. rewrite Hread, Hr, Hs.
    exists (filled m addr size s).
    assert (Hh : holds (Mem.data (filled m addr size s)) addr s)
      by apply holds_alloc_loop.
    split; [reflexivity |]. split; [exact Hh |]. split; [reflexivity |].
    intros Hlen.
    assert (Hsz : size = len (take (Z.to_nat size) s)).
    { unfold len in *. rewrite length_take. lia. }
    rewrite Hsz at 1. apply read_defined, holds_take, Hh.
Qed.

Lemma read_demand_fill_witness :
  exists m1,
    Mem.read 0x1000 4 (Mem.init (Some four_reader) true)
      = (m1, Return [xaa; xbb; xcc; xdd]) /\
    Mem.queries m1 = [(0x1000, 4)] /\
    Mem.read 0x1000 4 m1 = (m1, Return [xaa; xbb; xcc; xdd]).
Proof.
  destruct (read_demand_fill (Mem.init (Some four_reader) true) 0x1000 4)
    as (_ & _ & H).
  { exists 0. split; [lia | reflexivity]. }
  destruct (H four_reader [xaa; xbb; xcc; xdd] eq_refl eq_refl)
    as (m1 & H1 & _ & H2 & H3).
  exists m1. split; [exact H1 |]. split; [exact H2 |].
  apply H3. vm_compute. discriminate.
Defined.

(** C5 as the spec states it fails: a reader that holds only two of the
    four bytes requested returns data, which is installed and returned,
    and the next read of the same range consults the reader again. *)
Lemma demand_fill_counterexample :
  snd (Mem.read 0x1000 4 short_mem) = Return [xaa; xbb] /\
  Mem.data (fst (Mem.read 0x1000 4 short_mem)) !! 0x1000 = Some xaa /\
  Mem.data (fst (Mem.read 0x1000 4 short_mem)) !! 0x1001 = Some xbb /\
  Mem.queries (fst (Mem.read 0x1000 4 short_mem)) = [(0x1000, 4)] /\
  Mem.queries (fst (Mem.read 0x1000 4 (fst (Mem.read 0x1000 4 short_mem))))
  = [(0x1000, 4); (0x1000, 4)].
Proof. vm_compute. repeat split; reflexivity. Qed.

(** The assertions of [TestMem.test] hold on the model. *)
Example TestMem_test :
  Mem.data test_mem =
    list_to_map [(0, x88); (1, x44); (2, x22); (3, x22);
                 (4, x11); (5, x11); (6, x11); (7, x11)] /\
  snd (Mem.load 0 U64 test_mem) = Return 0x1111111122224488 /\
  snd (Mem.load 0 U32 test_mem) = Return (Z.land 0x1111111122224488 0xffffffff) /\
  snd (Mem.load 0 U16 test_mem) = Return (Z.land 0x1111111122224488 0xffff) /\
  snd (Mem.load 0 U8 test_mem) = Return (Z.land 0x1111111122224488 0xff).
Proof. repeat split; vm_compute; reflexivity. Qed.

(** ** Mem: writing *)

Lemma _write_spec (m m' : Mem.t) (addr size : Z) (s : bytes) (r : result unit) :
  Mem._write addr size s m = (m', r) ->
  m' = Mem.set_data (Mem.data m') m /\
  exists k : nat,
    (k <= Z.to_nat size)%nat /\
    (forall i : nat, (i < k)%nat ->
       is_Some (Mem.data m !! (addr + Z.of_nat i)) /\
       is_Some (s !! i) /\
       Mem.data m' !! (addr + Z.of_nat i) = s !! i) /\
    (forall a, ~ (addr <= a < addr + Z.of_nat k) ->
       Mem.data m' !! a = Mem.data m !! a) /\
    ((k = Z.to_nat size /\ r = Return tt) \/
     ((k < Z.to_nat size)%nat /\ Mem.data m !! (addr + Z.of_nat k) = None /\
      r = Raise (MemWriteError addr)) \/
     ((k < Z.to_nat size)%nat /\
      is_Some (Mem.data m !! (addr + Z.of_nat k)) /\
      s !! k = None /\ r = Raise IndexError)).
Proof.
  unfold Mem._write, range. intros H.
  destruct (Mem._write_loop (Mem.data m) addr s
              (Z.of_nat <$> seq 0 (Z.to_nat size))) as [d' r'] eqn:Hl.
  injection H as <- <-. split; [reflexivity |].
  apply _write_loop_spec in Hl. destruct Hl as (k & Hk & Hin & Hout & Hend).
  exists k. simpl. split; [exact Hk |]. split; [| split].
  - intros i Hi. apply Hin. lia.
  - intros a Ha. apply Hout. intros i Hi. lia.
  - simpl in Hend. intuition.
Qed.

(** A write over a range that is defined stores the string. *)
Lemma write_defined (m : Mem.t) (addr : Z) (s : bytes) :
  (forall i, 0 <= i < len s -> is_Some (Mem.data m !! (addr + i))) ->
  exists m', Mem.write addr (len s) s m = (m', Return tt) /\
             holds (Mem.data m') addr s.
Proof.
  intros Hdef. unfold Mem.write, try_except.
  destruct (Mem._write addr (len s) s m) as [m1 r] eqn:Hw.
  apply _write_spec in Hw. destruct Hw as (_ & k & Hk & Hin & _ & Hend).
  unfold len in Hk, Hend. rewrite Nat2Z.id in Hk, Hend.
  destruct Hend as [[-> ->] | [(Hlt & Hn & _) | (Hlt & _ & Hn & _)]].
  - exists m1. split; [reflexivity |]. intros i b Hi.
    destruct (Hin i (lookup_lt_Some _ _ _ Hi)) as (_ & _ & H3).
    rewrite H3. exact Hi.
  - destruct (Hdef (Z.of_nat k)) as [b Hb]; [unfold len; lia | congruence].
  - apply lookup_ge_None in Hn. lia.
Qed.

(** A write that succeeds leaves the string in the memory, whichever
    way it went. *)
Lemma write_ok_holds (m m' : Mem.t) (addr : Z) (s : bytes) :
  Mem.write addr (len s) s m = (m', Return tt) ->
  holds (Mem.data m') addr s.
Proof.
  unfold Mem.write, try_except. intros H.
  destruct (Mem._write addr (len s) s m) as [m1 r] eqn:Hw.
  apply _write_spec in Hw. destruct Hw as (_ & k & Hk & Hin & _ & Hend).
  unfold len in Hk, Hend. rewrite Nat2Z.id in Hk, Hend.
  destruct r as [[] | e].
  - injection H as <-.
    destruct Hend as [[-> _] | [(_ & _ & ?) | (_ & _ & _ & ?)]];
      try discriminate.
    intros i b Hi.
    destruct (Hin i (lookup_lt_Some _ _ _ Hi)) as (_ & _ & H3).
    rewrite H3. exact Hi.
  - destruct (is_MemWriteError e); [| discriminate].
    unfold bind, raise, ret, Mem.reader_read, Mem.alloc in H.
    destruct (Mem.strict m1).
    + destruct (Mem.reader m1) as [rd |]; [| discriminate].
      destruct (rd addr (len s)); [| discriminate].
      injection H as <-. apply holds_alloc_loop.
    + injection H as <-. apply holds_alloc_loop.
Qed.


(** The premise of the round trip is met on every memory whose bytes at
    the range are defined, for every supported width and every value
    below [2^W]. *)
Lemma store_defined (m : Mem.t) (A k n : Z) (W : Width) :
  Mem.map_length W = Return n ->
  0 <= k < 2 ^ (8 * n) ->
  (forall i, 0 <= i < n -> is_Some (Mem.data m !! (A + i))) ->
  exists m', Mem.store A W k m = (m', Return tt).
Proof.
  intros Hn Hk Hdef.
  destruct (pack_in_range W k n Hn Hk) as (s & Hp & Hlen).
  unfold Mem.store, bind, lift. rewrite Hn, Hp. subst n.
  destruct (write_defined m A s Hdef) as (m' & Hw & _).
  exists m'. exact Hw.
Qed.


(** A write whose first undefined address is [addr + k] raises
    MemWriteError after it has stored the [k] bytes before it. *)
Lemma _write_first_undefined (m : Mem.t) (addr size k : Z) (s : bytes) :
  0 <= k < size -> k <= len s ->
  (forall i, 0 <= i < k -> is_Some (Mem.data m !! (addr + i))) ->
  Mem.data m !! (addr + k) = None ->
  exists m1,
    Mem._write addr size s m = (m1, Raise (MemWriteError addr)) /\
    m1 = Mem.set_data (Mem.data m1) m /\
    (forall i : nat, Z.of_nat i < k ->
       Mem.data m1 !! (addr + Z.of_nat i) = s !! i) /\
    (forall a, ~ (addr <= a < addr + k) -> Mem.data m1 !! a = Mem.data m !! a).
Proof.
  intros Hk Hlen Hdef Hundef.
  destruct (Mem._write addr size s m) as [m1 r] eqn:Hw.
  pose proof Hw as Hspec. apply _write_spec in Hspec.
  destruct Hspec as (Hm1 & k' & Hk' & Hin & Hout & Hend).
  assert (Hkk : Z.of_nat k' = k).
  { destruct (Z.lt_trichotomy (Z.of_nat k') k) as [Hlt | [Heq | Hgt]];
      [| exact Heq |].
    - exfalso.
      destruct Hend as [[-> _] | [(_ & Hn & _) | (_ & _ & Hn & _)]].
      + lia.
      + destruct (Hdef (Z.of_nat k') ltac:(lia)) as [b Hb]. congruence.
      + apply lookup_ge_None in Hn. unfold len in Hlen. lia.
    - exfalso. destruct (Hin (Z.to_nat k) ltac:(lia)) as ([b Hb] & _).
      rewrite Z2Nat.id in Hb by lia. congruence. }
  subst k. exists m1.
  destruct Hend as [[-> _] | [(_ & _ & ->) | (_ & [b Hb] & _)]];
    [lia | | congruence].
  split; [reflexivity |]. split; [exact Hm1 |]. split.
  - intros i Hi. apply Hin. lia.
  - exact Hout.
Qed.

Lemma first_undefined (d : gmap Z byte) (addr : Z) :
  forall n : nat,
    (forall i, 0 <= i < Z.of_nat n -> is_Some (d !! (addr + i))) \/
    (exists k, 0 <= k < Z.of_nat n /\ d !! (addr + k) = None /\
               forall i, 0 <= i < k -> is_Some (d !! (addr + i))).
Proof.
  induction n as [| n IH]; [left; intros; lia |].
  destruct IH as [Hall | (k & Hk & Hkn & Hbefore)].
  - destruct (d !! (addr + Z.of_nat n)) as [b |] eqn:E.
    + left. intros i Hi.
      destruct (decide (i = Z.of_nat n)) as [-> | Hne]; [eauto |].
      apply Hall. lia.
    + right. exists (Z.of_nat n). split; [lia |]. split; assumption.
  - right. exists k. split; [lia |]. split; assumption.
Qed.

(** What [write] does once [_write] has raised MemWriteError and left
    the state [m1]. *)
Lemma write_after_MemWriteError (m m1 : Mem.t) (addr size : Z) (s : bytes) :
  Mem._write addr size s m = (m1, Raise (MemWriteError addr)) ->
  m1 = Mem.set_data (Mem.data m1) m ->
  Mem.write addr size s m =
  if Mem.strict m then
    match Mem.reader m with
    | None => (m1, Raise (MemWriteError addr))
    | Some r =>
        match r addr size with
        | None => (Mem.add_query (addr, size) m1, Raise (MemWriteError addr))
        | Some _ =>
            (Mem.set_data
               (Mem.alloc_loop (Mem.data m1) addr (Some s) (range (len s)))
               (Mem.add_query (addr, size) m1), Return tt)
        end
    end
  else
    (Mem.set_data
       (Mem.alloc_loop (Mem.data m1) addr (Some s) (range (len s))) m1,
     Return tt).
Proof.
  intros Hw Hm1. unfold Mem.write, try_except. rewrite Hw.
  cbn [is_MemWriteError].
  assert (Hs : Mem.strict m1 = Mem.strict m) by (rewrite Hm1; reflexivity).
  assert (Hr : Mem.reader m1 = Mem.reader m) by (rewrite Hm1; reflexivity).
  unfold bind. rewrite Hs, Hr.
  destruct (Mem.strict m); [| reflexivity].
  destruct (Mem.reader m) as [r |]; [| reflexivity].
  unfold Mem.reader_read. destruct (r addr size); reflexivity.
Qed.

(** C10: in strict mode with no reader, a write whose first [k] target
    bytes are defined and whose byte [k] is not raises MemWriteError at
    the address of the write after it has replaced those [k] bytes by
    the new data; nothing else changes, and the memory differs from the
    one before as soon as one of the new bytes differs from the old
    one. *)
Theorem failing_write_not_atomic (m : Mem.t) (addr size k : Z) (s : bytes) :
  Mem.strict m = true ->
  Mem.reader m = None ->
  0 <= k < size ->
  k <= len s ->
  (forall i, 0 <= i < k -> is_Some (Mem.data m !! (addr + i))) ->
  Mem.data m !! (addr + k) = None ->
  exists m',
    Mem.write addr size s m = (m', Raise (MemWriteError addr)) /\
    (forall i : nat, Z.of_nat i < k ->
       Mem.data m' !! (addr + Z.of_nat i) = s !! i) /\
    (forall a, ~ (addr <= a < addr + k) ->
       Mem.data m' !! a = Mem.data m !! a) /\
    ((exists i : nat, Z.of_nat i < k /\
                      Mem.data m !! (addr + Z.of_nat i) <> s !! i) ->
     Mem.data m' <> Mem.data m).
Proof.
  intros Hstrict Hreader Hk Hlen Hdef Hundef.
  destruct (_write_first_undefined m addr size k s Hk Hlen Hdef Hundef)
    as (m1 & Hw & Hm1 & Hin & Hout).
  exists m1. split.
  - rewrite (write_after_MemWriteError m m1 addr size s Hw Hm1).
    rewrite Hstrict, Hreader. reflexivity.
  - split; [exact Hin |]. split; [exact Hout |].
    intros (i & Hi & Hne) Heq. apply Hne.
    rewrite <- Heq. apply Hin, Hi.
Qed.

Lemma failing_write_not_atomic_witness :
  exists m',
    Mem.write 0x2000 4 [x11; x22; x33; x44] two_byte_mem
      = (m', Raise (MemWriteError 0x2000)) /\
    Mem.data m' !! 0x2000 = Some x11 /\
    Mem.data m' !! 0x2001 = Some x22 /\
    Mem.data m' <> Mem.data two_byte_mem.
Proof.
  destruct (failing_write_not_atomic two_byte_mem 0x2000 4 2
              [x11; x22; x33; x44])
    as (m' & Hw & Hin & _ & Hne).
  - reflexivity.
  - reflexivity.
  - lia.
  - vm_compute. discriminate.
  - intros i Hi.
    assert (Hc : i = 0 \/ i = 1) by lia.
    destruct Hc as [-> | ->]; vm_compute; eauto.
  - reflexivity.
  - exists m'. split; [exact Hw |].
    split; [apply (Hin 0%nat); lia |].
    split; [apply (Hin 1%nat); lia |].
    apply Hne. exists 0%nat. split; [lia |]. vm_compute. discriminate.
Defined.

(** C6, as the code has it: in strict mode, a write of a string over a
    range with an undefined byte fails with MemWriteError at the address
    of the write when there is no reader or the reader answers [None];
    when the reader returns any string, the empty string included, the
    write succeeds and the memory holds the bytes of the caller at the
    range, whatever the reader returned, and is unchanged elsewhere; and
    after [alloc(addr, size)] every store at [addr] of a width of at
    most [size] bytes succeeds. *)
Theorem strict_write_policy (m : Mem.t) (addr : Z) (s : bytes) :
  Mem.strict m = true ->
  (exists i, 0 <= i < len s /\ Mem.data m !! (addr + i) = None) ->
  (Mem.reader m = None ->
     exists m', Mem.write addr (len s) s m
                = (m', Raise (MemWriteError addr))) /\
  (forall r, Mem.reader m = Some r -> r addr (len s) = None ->
     exists m', Mem.write addr (len s) s m
                = (m', Raise (MemWriteError addr))) /\
  (forall r got, Mem.reader m = Some r -> r addr (len s) = Some got ->
     exists m', Mem.write addr (len s) s m = (m', Return tt) /\
                holds (Mem.data m') addr s /\
                (forall a, ~ (addr <= a < addr + len s) ->
                   Mem.data m' !! a = Mem.data m !! a)) /\
  (forall W n k size,
     Mem.map_length W = Return n -> 0 <= k < 2 ^ (8 * n) -> n <= size ->
     let m1 := fst (Mem.alloc (Some addr) (Some size) None m) in
     exists m2, Mem.store addr W k m1 = (m2, Return tt)).
Proof.
  intros Hstrict (i & Hi & Hn).
  destruct (first_undefined (Mem.data m) addr (length s))
    as [Hall | (k & Hk & Hkn & Hbefore)].
  { destruct (Hall i Hi) as [b Hb]. congruence. }
  fold (len s) in Hk.
  destruct (_write_first_undefined m addr (len s) k s Hk ltac:(lia)
              Hbefore Hkn) as (m1 & Hw & Hm1 & Hin & Hout).
  pose proof (write_after_MemWriteError m m1 addr (len s) s Hw Hm1) as Heq.
  rewrite Hstrict in Heq.
  split; [| split; [| split]].
  - intros Hr. rewrite Hr in Heq. eauto.
  - intros r Hr Hnone. rewrite Hr, Hnone in Heq. eauto.
  - intros r got Hr Hgot. rewrite Hr, Hgot in Heq.
    eexists. split; [exact Heq |]. split.
    + apply holds_alloc_loop.
    + intros a Ha. cbn [Mem.data Mem.set_data].
      rewrite range_len, lookup_alloc_loop.
      fold (len s). case_decide; [lia |].
      apply Hout. lia.
  - intros W n k' size HW Hk' Hsize m2.
    apply (store_defined m2 addr k' n W HW Hk').
    intros j Hj. subst m2. unfold Mem.alloc, bind, ret.
    cbn [fst Mem.data Mem.set_data]. unfold range.
    rewrite lookup_alloc_loop. case_decide; [eauto | lia].
Qed.

Lemma strict_write_policy_witness :
  (exists m', Mem.store 0x2000 U32 0 (Mem.init None true)
              = (m', Raise (MemWriteError 0x2000))) /\
  (exists m2, Mem.store 0x2000 U32 0
                (fst (Mem.alloc (Some 0x2000) (Some 4) None
                        (Mem.init None true)))
              = (m2, Return tt)).
Proof.
  destruct (strict_write_policy (Mem.init None true) 0x2000
              [x00; x00; x00; x00])
    as (H1 & _ & _ & H4).
  - reflexivity.
  - exists 0. split; [vm_compute; split; [discriminate | reflexivity] |].
    reflexivity.
  - split.
    + destruct (H1 eq_refl) as (m' & Hm'). exists m'. exact Hm'.
    + apply (H4 U32 4 0 4); [reflexivity | lia | lia].
Defined.

(** C6 as the spec states it fails: a reader that answers with the
    empty string returns no data, and [write] tests its answer against
    [None] only.  In a strict memory with such a reader and no byte
    defined, a store is not refused with MemWriteError: the reader is
    asked once, the store returns, and the bytes of the caller are in
    the memory. *)
Lemma strict_write_empty_answer_counterexample :
  Mem.strict empty_mem = true /\
  Mem.data empty_mem !! 0x2000 = None /\
  empty_reader 0x2000 4 = Some [] /\
  snd (Mem.store 0x2000 U32 0x11223344 empty_mem) = Return tt /\
  snd (Mem.store 0x2000 U32 0x11223344 empty_mem)
    <> Raise (MemWriteError 0x2000) /\
  Mem.queries (fst (Mem.store 0x2000 U32 0x11223344 empty_mem))
    = [(0x2000, 4)] /\
  Mem.data (fst (Mem.store 0x2000 U32 0x11223344 empty_mem))
    = list_to_map [(0x2000, x44); (0x2001, x33); (0x2002, x22);
                   (0x2003, x11)].
Proof.
  repeat split; try (vm_compute; reflexivity).
  vm_compute. discriminate.
Qed.

(** ** Abi *)

(** C9: with a pointer width that is positive, [align] is never the
    identity: the aligned size is a multiple of the pointer width that
    is strictly greater than the input and at most one pointer width
    above it; a size that is [k] pointer widths is aligned to [k + 1]
    of them, so that [buff] with such a size moves the allocation cursor
    by one pointer width more than asked and defines that many bytes. *)
Theorem align_never_identity (c : Cpu.t) (v k : Z) (fill : option bytes) :
  let p := ptr_len (Cpu.arch c) in
  let base := Mem.alloc_last (Cpu.mem c) in
  0 < p ->
  (exists r, Abi.align (Cpu.arch c) v = Return r /\
             v < r <= v + p /\ r mod p = 0) /\
  Abi.align (Cpu.arch c) (k * p) = Return ((k + 1) * p) /\
  (exists c', Abi.buff (inr (k * p)) None fill c = (c', Return base) /\
              Mem.alloc_last (Cpu.mem c') = base + (k + 1) * p /\
              forall i, 0 <= i < (k + 1) * p ->
                        is_Some (Mem.data (Cpu.mem c') !! (base + i))).
Proof.
  intros p base Hp.
  assert (Hne : (p =? 0) = false) by (apply Z.eqb_neq; lia).
  assert (Hk : Abi.align (Cpu.arch c) (k * p) = Return ((k + 1) * p)).
  { unfold Abi.align. fold p. rewrite Hne, Z.mod_mul by lia.
    f_equal. lia. }
  split; [| split].
  - unfold Abi.align. fold p. rewrite Hne. eexists. split; [reflexivity |].
    pose proof (Z.mod_pos_bound v p Hp) as Hb. split; [lia |].
    pose proof (Z.div_mod v p ltac:(lia)) as Hd.
    replace (v + (p - v mod p)) with ((v / p + 1) * p) by lia.
    apply Z.mod_mul. lia.
  - exact Hk.
  - unfold Abi.buff. cbn [fmap]. unfold bind, lift. rewrite Hk.
    unfold Cpu.on_mem, Mem.alloc, Mem.alloc_addr, bind.
    eexists. split; [reflexivity |].
    cbn [Cpu.mem Cpu.set_mem Mem.alloc_last Mem.set_data Mem.set_alloc_last
         Mem.data].
    fold base. split; [reflexivity |].
    intros i Hi. unfold range. rewrite lookup_alloc_loop.
    case_decide; [eauto | lia].
Qed.

Lemma align_never_identity_witness :
  Abi.align ARCH_X86 8 = Return 12 /\
  Mem.alloc_last (Cpu.mem (fst (Abi.buff (inr 8) None None (Cpu.init ARCH_X86))))
  = Mem.DEF_ALLOC_BASE + 12.
Proof.
  destruct (align_never_identity (Cpu.init ARCH_X86) 8 2 None)
    as (_ & H2 & c' & H3 & H4 & _).
  - reflexivity.
  - split; [exact H2 |].
    change (2 * ptr_len (Cpu.arch (Cpu.init ARCH_X86))) with 8 in H3.
    rewrite H3. exact H4.
Defined.

(** C7, as the code has it: when the statements before the [try] have
    succeeded and [cpu.run] raises [e], [call] returns normally exactly
    when [e] is an instance of CpuError (CpuReadError,
    CpuInstructionError or CpuError itself) whose address is
    DUMMY_RET_ADDR; every other exception, at whatever address,
    propagates to the caller unchanged. *)
Theorem call_recovers_CpuError_at_dummy
    (fuel : nat) (storage : Storage) (addr : Z) (args : list (bytes + Z))
    (c c1 c2 : Cpu.t) (e : exn) :
  Abi.call_prepare args c = (c1, Return tt) ->
  Cpu.run fuel storage addr c1 = (c2, Raise e) ->
  Abi.call fuel storage addr args c =
    (c2, if is_CpuError e && bool_decide (exn_addr e = Some Abi.DUMMY_RET_ADDR)
         then Return Abi.Done else Raise e) /\
  (is_CpuError e = false -> Abi.call fuel storage addr args c = (c2, Raise e)) /\
  (exn_addr e <> Some Abi.DUMMY_RET_ADDR ->
   Abi.call fuel storage addr args c = (c2, Raise e)) /\
  (forall inum, e = CpuInstructionError Abi.DUMMY_RET_ADDR inum ->
   Abi.call fuel storage addr args c = (c2, Return Abi.Done)) /\
  (forall inum, e = CpuReadError Abi.DUMMY_RET_ADDR inum ->
   Abi.call fuel storage addr args c = (c2, Return Abi.Done)).
Proof.
  intros Hprep Hrun.
  assert (Hcall : Abi.call fuel storage addr args c =
    (c2, if is_CpuError e && bool_decide (exn_addr e = Some Abi.DUMMY_RET_ADDR)
         then Return Abi.Done else Raise e)).
  { unfold Abi.call, bind at 1. rewrite Hprep.
    unfold try_except, bind. rewrite Hrun.
    destruct (is_CpuError e) eqn:Hc; [| reflexivity].
    unfold Abi.call_except.
    destruct (exn_addr e) as [a |] eqn:Ha.
    - destruct (a =? Abi.DUMMY_RET_ADDR) eqn:Hd; simpl.
      + apply Z.eqb_eq in Hd. subst a.
        rewrite bool_decide_eq_true_2; reflexivity.
      + apply Z.eqb_neq in Hd.
        rewrite bool_decide_eq_false_2; [reflexivity | congruence].
    - simpl. reflexivity. }
  split; [exact Hcall |]. split; [| split; [| split]].
  - intros Hc. rewrite Hcall, Hc. reflexivity.
  - intros Ha. rewrite Hcall, (bool_decide_eq_false_2 _ Ha), andb_false_r.
    reflexivity.
  - intros inum ->. rewrite Hcall. reflexivity.
  - intros inum ->. rewrite Hcall. reflexivity.
Qed.

Lemma call_recovers_CpuError_at_dummy_witness :
  snd (Abi.call 2 (jump_storage Abi.DUMMY_RET_ADDR None) 0x1000 [inr 7]
         (Cpu.init ARCH_X86))
  = Return Abi.Done.
Proof.
  pose proof (call_recovers_CpuError_at_dummy 2
                (jump_storage Abi.DUMMY_RET_ADDR None) 0x1000 [inr 7]
                (Cpu.init ARCH_X86)
                (fst (Abi.call_prepare [inr 7] (Cpu.init ARCH_X86)))
                (fst (Cpu.run 2 (jump_storage Abi.DUMMY_RET_ADDR None) 0x1000
                        (fst (Abi.call_prepare [inr 7] (Cpu.init ARCH_X86)))))
                (CpuReadError Abi.DUMMY_RET_ADDR 0)) as H.
  destruct H as [H _].
  - etransitivity; [apply surjective_pairing |].
    apply f_equal. vm_compute. reflexivity.
  - etransitivity; [apply surjective_pairing |].
    apply f_equal. vm_compute. reflexivity.
  - rewrite H. reflexivity.
Defined.

(** C7 as the spec states it fails: an error that is not a CpuReadError
    is recovered as well.  With an instruction of an invalid opcode
    stored at the sentinel address, the run raises CpuInstructionError at
    DUMMY_RET_ADDR and [call] returns normally. *)
Lemma call_recovery_counterexample :
  snd (Cpu.run 2
         (jump_storage Abi.DUMMY_RET_ADDR (Some [bad_insn Abi.DUMMY_RET_ADDR]))
         0x1000 (fst (Abi.call_prepare [] (Cpu.init ARCH_X86))))
  = Raise (CpuInstructionError Abi.DUMMY_RET_ADDR 0) /\
  snd (Abi.call 2
         (jump_storage Abi.DUMMY_RET_ADDR (Some [bad_insn Abi.DUMMY_RET_ADDR]))
         0x1000 [] (Cpu.init ARCH_X86))
  = Return Abi.Done /\
  (forall a inum,
     CpuInstructionError Abi.DUMMY_RET_ADDR 0 <> CpuReadError a inum).
Proof.
  split; [vm_compute; reflexivity |].
  split; [vm_compute; reflexivity |].
  intros a inum. discriminate.
Qed.

(** ** Cpu *)

(** [set_ip] makes the register hold the value: the update that [run]
    makes at the start and after every instruction that falls
    through. *)
Lemma ip_val_set_ip (c : Cpu.t) (v : Z) :
  regs_named c -> Cpu.ip_val (fst (Cpu.set_ip v c)) = Some v.
Proof.
  intros Hwf.
  unfold Cpu.set_ip, Cpu.ip_val, bind, Cpu.reg, Cpu.set_val.
  destruct (Cpu.regs c !! Cpu.canonical (Registers_ip (Cpu.arch c)) false)
    as [r |] eqn:E; cbn [fst Cpu.regs Cpu.set_regs Cpu.arch reg_name].
  - rewrite (Hwf _ _ E), lookup_insert_eq. reflexivity.
  - rewrite lookup_insert_eq. reflexivity.
Qed.

(** C8 fails on the code: [run] leaves the [for] loop on a taken branch
    before it reaches [set_ip].  With a jump at 0x1000 to 0x2000, the
    first pass of the loop ends with the cpu about to fetch at 0x2000
    and the instruction pointer register still at 0x1000; the second
    pass does execute the instruction at 0x2000, and the fall-through
    after it sets the register. *)
Theorem ip_stale_after_taken_branch :
  exists c1 c2,
    Cpu.run 1 (jump_storage 0x2000 (Some [nop_insn 0x2000])) 0x1000
      (Cpu.init ARCH_X86) = (c1, Return 0x2000) /\
    Cpu.ip_val c1 = Some 0x1000 /\
    Cpu.run 2 (jump_storage 0x2000 (Some [nop_insn 0x2000])) 0x1000
      (Cpu.init ARCH_X86) = (c2, Return 0x2001) /\
    Cpu.ip_val c2 = Some 0x2001.
Proof.
  eexists. eexists.
  split; [vm_compute; reflexivity |].
  split; [vm_compute; reflexivity |].
  split; [vm_compute; reflexivity |].
  vm_compute. reflexivity.
Qed.

(** The same for every branch target: after the pass that takes the
    jump at 0x1000, the register holds 0x1000 and not the target the
    cpu fetches next. *)
Lemma ip_stale_for_every_target (target : Z) :
  0 <= target < 2 ^ 32 ->
  exists c1,
    Cpu.run 1 (jump_storage target None) 0x1000 (Cpu.init ARCH_X86)
    = (c1, Return target) /\
    Cpu.ip_val c1 = Some 0x1000.
Proof.
  intros Ht.
  assert (Hv : get_val (Const U32 target) = target).
  { unfold get_val. cbn [arg_val arg_size Const width_bits].
    rewrite Z.land_ones by lia. apply Z.mod_small. exact Ht. }
  eexists. split.
  - rewrite <- Hv at 2. reflexivity.
  - reflexivity.
Qed.

(** * Further properties of the code *)

(** ** Math: how the operators relate *)

Lemma pow2_split (w n : Z) : 0 <= w <= n -> 2 ^ n = 2 ^ (n - w) * 2 ^ w.
Proof. intros H. rewrite <- Z.pow_add_r by lia. f_equal. lia. Qed.

(** A numpy conversion keeps the low bits. *)
Lemma np_wrap_mod (signed : bool) (n w z : Z) :
  0 <= w <= n -> 0 < n ->
  Math.np_wrap signed n z mod 2 ^ w = z mod 2 ^ w.
Proof.
  intros Hw Hn.
  assert (Hpw : 0 < 2 ^ w) by (apply Z.pow_pos_nonneg; lia).
  assert (Hpn : 0 < 2 ^ n) by (apply Z.pow_pos_nonneg; lia).
  pose proof (pow2_split w n Hw) as Hs.
  unfold Math.np_wrap. destruct signed.
  - pose proof (Z.div_mod (z + 2 ^ (n - 1)) (2 ^ n) ltac:(lia)) as Hd.
    replace ((z + 2 ^ (n - 1)) mod 2 ^ n - 2 ^ (n - 1))
      with (z + (- ((z + 2 ^ (n - 1)) / 2 ^ n) * 2 ^ (n - w)) * 2 ^ w) by nia.
    apply Z_mod_plus_full.
  - pose proof (Z.div_mod z (2 ^ n) ltac:(lia)) as Hd.
    replace (z mod 2 ^ n)
      with (z + (- (z / 2 ^ n) * 2 ^ (n - w)) * 2 ^ w) by nia.
    apply Z_mod_plus_full.
Qed.

Lemma get_val_Const (w : Width) (v : Z) :
  get_val (Const w v) = v mod 2 ^ width_bits w.
Proof.
  unfold get_val. cbn [Const arg_val arg_size].
  apply Z.land_ones. destruct w; simpl; lia.
Qed.

Lemma width_bits_le (w : Width) : 0 <= width_bits w <= Math.np_width w.
Proof. destruct w; simpl; lia. Qed.

Lemma val_s_mod (a : Arg) (w : Z) :
  0 <= w <= Math.np_width (arg_size a) ->
  Math.np_val (Math.val_s a) mod 2 ^ w = get_val a mod 2 ^ w.
Proof.
  intros Hw.
  change (Math.np_val (Math.val_s a))
    with (Math.np_wrap true (Math.np_width (arg_size a))
            (Math.np_val (Math.val_u a))).
  rewrite np_wrap_mod by (pose proof (np_width_pos (arg_size a)); lia).
  rewrite val_u_get_val. reflexivity.
Qed.

(** I_SMUL and I_MUL agree on the low bits: on two operands of the same
    width they give the same value to every destination that is not
    wider than the numpy type of the operands. *)
Theorem smul_mul_low_bits (W : Width) (a b : Arg) :
  arg_size a = arg_size b ->
  width_bits W <= Math.np_width (arg_size a) ->
  evaluate_val I_SMUL W (Some a) (Some b)
  = evaluate_val I_MUL W (Some a) (Some b).
Proof.
  intros Hsize Hw. unfold evaluate_val, Cpu.evaluate.
  change (Math.eval I_SMUL (Some a) (Some b))
    with (Math.eval_s (Math.np_binop Z.mul) (Some a) (Some b)).
  change (Math.eval I_MUL (Some a) (Some b))
    with (Math.eval_u (Math.np_binop Z.mul) (Some a) (Some b)).
  rewrite eval_s_binop, eval_u_binop, <- Hsize, Z.max_id.
  cbn [result_bind]. rewrite !get_val_Const. f_equal.
  pose proof (width_bits_le W) as HW.
  pose proof (np_width_pos (arg_size a)) as Hn.
  rewrite !np_wrap_mod by lia.
  rewrite !val_u_get_val.
  assert (Hpw : 0 < 2 ^ width_bits W) by (apply Z.pow_pos_nonneg; lia).
  rewrite (Z.mul_mod (Math.np_val _)) by lia.
  rewrite (val_s_mod a), (val_s_mod b) by (rewrite <- ?Hsize; lia).
  rewrite <- Z.mul_mod by lia. reflexivity.
Qed.

Lemma smul_mul_low_bits_witness :
  evaluate_val I_SMUL U8 (Some (Const U8 0xFF)) (Some (Const U8 0x03))
  = evaluate_val I_MUL U8 (Some (Const U8 0xFF)) (Some (Const U8 0x03)).
Proof.
  apply smul_mul_low_bits; [reflexivity | simpl; lia].
Defined.

(** Unsigned division and remainder: on operands of the same width with
    a divisor that is not zero, I_DIV and I_MOD return the quotient [q]
    and the remainder [r] of the unsigned values, with [a = b * q + r]
    and [0 <= r < b]; neither wraps around. *)
Theorem div_mod_unsigned (a b : Arg) :
  arg_size a = arg_size b ->
  get_val b <> 0 ->
  Math.eval I_DIV (Some a) (Some b) = Return (get_val a / get_val b) /\
  Math.eval I_MOD (Some a) (Some b) = Return (get_val a mod get_val b) /\
  get_val a = get_val b * (get_val a / get_val b) + get_val a mod get_val b /\
  0 <= get_val a mod get_val b < get_val b.
Proof.
  intros Hsize Hb.
  pose proof (get_val_range a) as Ha. pose proof (get_val_range b) as Hrb.
  rewrite <- Hsize in Hrb.
  pose proof (width_bits_le_np_width (arg_size a)) as Hw.
  set (n := Math.np_width (arg_size a)) in *.
  assert (Hbpos : 0 < get_val b) by lia.
  assert (Hq : 0 <= get_val a / get_val b <= get_val a).
  { split; [apply Z.div_pos; lia |].
    apply Z.div_le_upper_bound; [lia |].
    pose proof (Z.mul_le_mono_nonneg_r 1 (get_val b) (get_val a)
                  ltac:(lia) ltac:(lia)). lia. }
  pose proof (Z.mod_pos_bound (get_val a) (get_val b) Hbpos) as Hr.
  split; [| split; [| split]].
  - change (Math.eval I_DIV (Some a) (Some b))
      with (Math.eval_u (Math.np_binop Math.np_divide) (Some a) (Some b)).
    rewrite eval_u_binop, !val_u_get_val, <- Hsize, Z.max_id. fold n.
    unfold Math.np_divide.
    destruct (get_val b =? 0) eqn:E; [apply Z.eqb_eq in E; lia |].
    f_equal. unfold Math.np_wrap. apply Z.mod_small. lia.
  - change (Math.eval I_MOD (Some a) (Some b))
      with (Math.eval_u (Math.np_binop Math.np_remainder) (Some a) (Some b)).
    rewrite eval_u_binop, !val_u_get_val, <- Hsize, Z.max_id. fold n.
    assert (Hrem : Math.np_remainder (get_val a) (get_val b)
                   = get_val a mod get_val b).
    { unfold Math.np_remainder.
      destruct (get_val a =? 0) eqn:Ea; destruct (get_val b =? 0) eqn:Eb;
        simpl; try (apply Z.eqb_eq in Eb; lia); [| reflexivity].
      apply Z.eqb_eq in Ea. rewrite Ea. symmetry. apply Z.mod_0_l. lia. }
    rewrite Hrem. f_equal. unfold Math.np_wrap. apply Z.mod_small. lia.
  - apply Z.div_mod. lia.
  - exact Hr.
Qed.

Lemma div_mod_unsigned_witness :
  Math.eval I_DIV (Some (Const U16 1000)) (Some (Const U16 7)) = Return 142 /\
  Math.eval I_MOD (Some (Const U16 1000)) (Some (Const U16 7)) = Return 6.
Proof.
  destruct (div_mod_unsigned (Const U16 1000) (Const U16 7))
    as (H1 & H2 & _); [reflexivity | vm_compute; discriminate |].
  split; [exact H1 | exact H2].
Defined.

(** Subtraction undoes addition: on operands of the same byte width,
    subtracting [b] from the sum that I_ADD returned gives [a] back,
    whatever wrapped around. *)
Theorem add_sub_inverse (a b : Arg) :
  arg_size a = arg_size b ->
  arg_size a <> U1 ->
  exists sum,
    Math.eval I_ADD (Some a) (Some b) = Return sum /\
    0 <= sum < 2 ^ width_bits (arg_size a) /\
    Math.eval I_SUB (Some (Const (arg_size a) sum)) (Some b)
    = Return (get_val a).
Proof.
  intros Hsize HU1.
  pose proof (get_val_range a) as Ha.
  assert (Hn : Math.np_width (arg_size a) = width_bits (arg_size a))
    by (destruct (arg_size a); try reflexivity; congruence).
  set (m := 2 ^ width_bits (arg_size a)) in *.
  assert (Hm : 0 < m) by (subst m; destruct (arg_size a); simpl; lia).
  exists ((get_val a + get_val b) mod m).
  split; [| split].
  - change (Math.eval I_ADD (Some a) (Some b))
      with (Math.eval_u (Math.np_binop Z.add) (Some a) (Some b)).
    rewrite eval_u_binop, !val_u_get_val, <- Hsize, Z.max_id, Hn.
    reflexivity.
  - apply Z.mod_pos_bound. exact Hm.
  - change (Math.eval I_SUB (Some (Const (arg_size a) ((get_val a + get_val b) mod m)))
              (Some b))
      with (Math.eval_u (Math.np_binop Z.sub)
              (Some (Const (arg_size a) ((get_val a + get_val b) mod m)))
              (Some b)).
    rewrite eval_u_binop, !val_u_get_val, get_val_Const.
    cbn [Const arg_size]. rewrite <- Hsize, Z.max_id, Hn. fold m.
    unfold Math.np_wrap. fold m. f_equal.
    rewrite Z.mod_mod by lia.
    rewrite Zminus_mod_idemp_l.
    replace (get_val a + get_val b - get_val b) with (get_val a) by lia.
    apply Z.mod_small. exact Ha.
Qed.

Lemma add_sub_inverse_witness :
  exists sum,
    Math.eval I_ADD (Some (Const U8 0xF0)) (Some (Const U8 0x20)) = Return sum /\
    Math.eval I_SUB (Some (Const U8 sum)) (Some (Const U8 0x20)) = Return 0xF0.
Proof.
  destruct (add_sub_inverse (Const U8 0xF0) (Const U8 0x20))
    as (sum & H1 & _ & H2); [reflexivity | discriminate |].
  exists sum. split; [exact H1 | exact H2].
Defined.

(** The comparisons are unsigned and boolean: I_LT and I_EQ return 1 or
    0 according to the unsigned values of the operands, and of
    [a < b], [a = b] and [b < a] exactly one is 1. *)
Theorem lt_eq_trichotomy (a b : Arg) :
  Math.eval I_LT (Some a) (Some b)
    = Return (if get_val a <? get_val b then 1 else 0) /\
  Math.eval I_EQ (Some a) (Some b)
    = Return (if get_val a =? get_val b then 1 else 0) /\
  exists x y z,
    Math.eval I_LT (Some a) (Some b) = Return x /\
    Math.eval I_EQ (Some a) (Some b) = Return y /\
    Math.eval I_LT (Some b) (Some a) = Return z /\
    x + y + z = 1.
Proof.
  assert (Hlt : forall u v, Math.eval I_LT (Some u) (Some v)
                  = Return (if get_val u <? get_val v then 1 else 0)).
  { intros u v.
    change (Math.eval I_LT (Some u) (Some v))
      with (Return (Math.np_bool (Math.np_val (Math.val_u u)
                                  <? Math.np_val (Math.val_u v)))).
    rewrite !val_u_get_val. reflexivity. }
  assert (Heq : Math.eval I_EQ (Some a) (Some b)
                = Return (if get_val a =? get_val b then 1 else 0)).
  { change (Math.eval I_EQ (Some a) (Some b))
      with (Return (Math.np_bool (Math.np_val (Math.val_u a)
                                  =? Math.np_val (Math.val_u b)))).
    rewrite !val_u_get_val. reflexivity. }
  split; [apply Hlt |]. split; [exact Heq |].
  do 3 eexists. split; [apply Hlt |]. split; [exact Heq |].
  split; [apply Hlt |].
  destruct (Z.ltb_spec (get_val a) (get_val b));
    destruct (Z.eqb_spec (get_val a) (get_val b));
    destruct (Z.ltb_spec (get_val b) (get_val a)); lia.
Qed.

(** ** Mem: widths, policies and failures *)

(** What a successful [pack] has checked and built. *)
Lemma pack_le_bytes (w : Width) (k : Z) (s : bytes) :
  Mem.pack w k = Return s ->
  exists n, Mem.map_length w = Return n /\
            0 < n /\
            width_bits w = 8 * n /\
            0 <= k < 2 ^ (8 * n) /\
            s = Mem.le_bytes (Z.to_nat n) k /\
            len s = n.
Proof.
  intros H. destruct (pack_unpack w k s H) as [Hl _].
  unfold Mem.pack in H.
  destruct w; simpl in H; try discriminate; unfold Mem.struct_pack in H;
    simpl in H;
    match type of H with
    | (if ?c then _ else _) = _ => destruct c eqn:E; [| discriminate]
    end;
    apply andb_true_iff in E; destruct E as [E1 E2];
    apply Z.leb_le in E1; apply Z.ltb_lt in E2;
    injection H as <-;
    eexists; (split; [reflexivity |]); simpl;
    repeat split; lia.
Qed.

Lemma take_le_bytes (n' n : nat) (k : Z) :
  (n' <= n)%nat -> take n' (Mem.le_bytes n k) = Mem.le_bytes n' k.
Proof.
  revert n k. induction n' as [| n' IH]; intros n k Hle; [reflexivity |].
  destruct n as [| n]; [lia |]. simpl. f_equal. apply IH. lia.
Qed.

Lemma map_length_format (w : Width) (n : Z) :
  Mem.map_length w = Return n ->
  exists f, Mem.map_format w = Return f /\ Mem.calcsize f = n.
Proof.
  destruct w; simpl; intros H; try discriminate; injection H as <-; eauto.
Qed.

(** A load after a store that succeeded, from the bytes the store left:
    the step the round trips below share. *)
Lemma load_stored (m : Mem.t) (A k : Z) (W : Width) (s : bytes) :
  Mem.pack W k = Return s ->
  holds (Mem.data m) A s ->
  Mem.load A W m = (m, Return k).
Proof.
  intros Hp Hh. destruct (pack_unpack W k s Hp) as [Hlen Hun].
  unfold Mem.load, bind, lift. rewrite Hlen.
  rewrite (read_defined m A s Hh), Hun. reflexivity.
Qed.

Lemma store_ok_inv (m m' : Mem.t) (A k : Z) (W : Width) :
  Mem.store A W k m = (m', Return tt) ->
  exists s, Mem.pack W k = Return s /\ holds (Mem.data m') A s.
Proof.
  unfold Mem.store, bind, lift. intros H.
  destruct (Mem.map_length W) as [n |] eqn:Hn; [| discriminate].
  destruct (Mem.pack W k) as [s |] eqn:Hp; [| discriminate].
  destruct (pack_unpack W k s Hp) as [Hlen _].
  rewrite Hn in Hlen. injection Hlen as ->.
  exists s. split; [reflexivity |]. apply write_ok_holds with m. exact H.
Qed.

(** Aliasing of widths: after a store that succeeded, a load at the same
    address with a width that is not wider returns the low bits of the
    value stored, as [val & 0xffff...] in [TestMem] has it. *)
Theorem store_load_narrower (m m' : Mem.t) (A k n n' : Z) (W W' : Width) :
  Mem.store A W k m = (m', Return tt) ->
  Mem.map_length W = Return n ->
  Mem.map_length W' = Return n' ->
  n' <= n ->
  Mem.load A W' m' = (m', Return (Z.land k (Z.ones (8 * n')))).
Proof.
  intros Hstore HW HW' Hle.
  destruct (store_ok_inv m m' A k W Hstore) as (s & Hp & Hh).
  destruct (pack_le_bytes W k s Hp) as (n0 & Hn0 & Hpos & _ & Hk & Hs & Hlen).
  rewrite HW in Hn0. injection Hn0 as <-.
  destruct (map_length_format W' n' HW') as (f' & Hf' & Hc').
  assert (Hn' : 0 < n') by (rewrite <- Hc'; apply calcsize_pos).
  unfold Mem.load, bind, lift. rewrite HW'.
  assert (Hh' : holds (Mem.data m') A (take (Z.to_nat n') s))
    by (apply holds_take, Hh).
  assert (Hlen' : len (take (Z.to_nat n') s) = n').
  { unfold len in *. rewrite length_take. lia. }
  rewrite <- Hlen' at 1. rewrite (read_defined m' A _ Hh').
  unfold Mem.unpack. rewrite Hf'. cbn [result_bind].
  unfold Mem.struct_unpack. rewrite Hlen', Hc', Z.eqb_refl.
  rewrite Hs, take_le_bytes by lia.
  rewrite le_value_le_bytes, Z2Nat.id by lia.
  rewrite Z.land_ones by lia. rewrite Z.pow_mul_r by lia. reflexivity.
Qed.

Lemma store_load_narrower_witness :
  Mem.load 0 U16
    (fst (Mem.store 0 U64 0x1111111122224488 (Mem.init None false)))
  = (fst (Mem.store 0 U64 0x1111111122224488 (Mem.init None false)),
     Return 0x4488).
Proof.
  apply (store_load_narrower (Mem.init None false) _ 0 0x1111111122224488
           8 2 U64 U16); [reflexivity | reflexivity | reflexivity | lia].
Defined.

(** What [write] does in lenient mode once [_write] has ended. *)
Lemma write_frame_lenient (m : Mem.t) (A : Z) (s : bytes) :
  Mem.strict m = false ->
  exists m', Mem.write A (len s) s m = (m', Return tt) /\
    holds (Mem.data m') A s /\
    (forall a, ~ (A <= a < A + len s) -> Mem.data m' !! a = Mem.data m !! a) /\
    Mem.queries m' = Mem.queries m /\
    Mem.alloc_last m' = Mem.alloc_last m /\
    Mem.reader m' = Mem.reader m /\
    Mem.strict m' = Mem.strict m.
Proof.
  intros Hstrict.
  destruct (Mem._write A (len s) s m) as [m1 r] eqn:Hw.
  pose proof Hw as Hspec. apply _write_spec in Hspec.
  destruct Hspec as (Hm1 & k & Hk & Hin & Hout & Hend).
  unfold len in Hk, Hend. rewrite Nat2Z.id in Hk, Hend.
  assert (Hfr : forall a, ~ (A <= a < A + len s) ->
                          Mem.data m1 !! a = Mem.data m !! a).
  { intros a Ha. apply Hout. unfold len in Ha. lia. }
  destruct Hend as [[-> ->] | [(Hlt & Hn & ->) | (Hlt & _ & Hn & _)]].
  - exists m1. unfold Mem.write, try_except. rewrite Hw.
    split; [reflexivity |]. split.
    + intros i b Hi.
      destruct (Hin i (lookup_lt_Some _ _ _ Hi)) as (_ & _ & H3).
      rewrite H3. exact Hi.
    + split; [exact Hfr |]. rewrite Hm1. repeat split; reflexivity.
  - rewrite (write_after_MemWriteError m m1 A (len s) s Hw Hm1), Hstrict.
    eexists. split; [reflexivity |]. split; [apply holds_alloc_loop |].
    split.
    + intros a Ha. cbn [Mem.data Mem.set_data].
      rewrite range_len, lookup_alloc_loop. fold (len s).
      case_decide; [lia | apply Hfr, Ha].
    + rewrite Hm1. repeat split; try reflexivity. exact Hstrict.
  - apply lookup_ge_None in Hn. lia.
Qed.

(** In lenient mode a store of a value that fits its width always
    succeeds, defined bytes or not; it changes no byte outside its
    range, does not consult a reader and does not move the allocation
    cursor; the value can be loaded back. *)
Theorem lenient_store_succeeds (m : Mem.t) (A k n : Z) (W : Width) :
  Mem.strict m = false ->
  Mem.map_length W = Return n ->
  0 <= k < 2 ^ (8 * n) ->
  exists m',
    Mem.store A W k m = (m', Return tt) /\
    Mem.load A W m' = (m', Return k) /\
    (forall a, ~ (A <= a < A + n) -> Mem.data m' !! a = Mem.data m !! a) /\
    Mem.queries m' = Mem.queries m /\
    Mem.alloc_last m' = Mem.alloc_last m.
Proof.
  intros Hstrict Hn Hk.
  destruct (pack_in_range W k n Hn Hk) as (s & Hp & Hlen).
  destruct (write_frame_lenient m A s Hstrict)
    as (m' & Hw & Hh & Hfr & Hq & Hal & _).
  exists m'. rewrite Hlen in Hw, Hfr.
  split; [| split; [| split; [| split]]]; auto.
  - unfold Mem.store, bind, lift. rewrite Hn, Hp. exact Hw.
  - apply (load_stored m' A k W s Hp Hh).
Qed.

Lemma lenient_store_succeeds_witness :
  exists m',
    Mem.store 0x5000 U16 0xBEEF (Mem.init None false) = (m', Return tt) /\
    Mem.load 0x5000 U16 m' = (m', Return 0xBEEF).
Proof.
  destruct (lenient_store_succeeds (Mem.init None false) 0x5000 0xBEEF 2 U16)
    as (m' & H1 & H2 & _); [reflexivity | reflexivity | lia |].
  exists m'. split; [exact H1 | exact H2].
Defined.

(** The ways a store can fail, and no other: [KeyError] for the width U1
    and [struct.error] for a value outside the width, both before the
    memory is touched; and MemWriteError at the address of the store,
    which needs strict mode, an undefined byte in the range and no
    reader that knows the address. *)
Theorem store_failure_modes (m m' : Mem.t) (A k : Z) (W : Width) (e : exn) :
  Mem.store A W k m = (m', Raise e) ->
  (e = KeyError /\ W = U1 /\ m' = m) \/
  (e = StructError /\ W <> U1 /\ ~ (0 <= k < 2 ^ width_bits W) /\ m' = m) \/
  (e = MemWriteError A /\ W <> U1 /\ Mem.strict m = true /\
   (exists i, 0 <= i < width_bits W / 8 /\ Mem.data m !! (A + i) = None) /\
   (Mem.reader m = None \/
    exists r, Mem.reader m = Some r /\ r A (width_bits W / 8) = None)).
Proof.
  unfold Mem.store, bind, lift. intros H.
  destruct (Mem.map_length W) as [n |] eqn:Hn.
  2:{ left. destruct W; simpl in Hn; try discriminate.
      injection Hn as <-. injection H as <- <-. auto. }
  assert (HW : W <> U1) by (intros ->; discriminate).
  assert (Hbits : width_bits W = 8 * n /\ 0 < n).
  { destruct W; simpl in *; try congruence; injection Hn as <-; lia. }
  destruct Hbits as [Hbits Hnpos].
  assert (Hdiv : width_bits W / 8 = n).
  { rewrite Hbits, Z.mul_comm. apply Z.div_mul. lia. }
  destruct (Mem.pack W k) as [s |] eqn:Hp.
  2:{ right. left.
      assert (e0 = StructError /\ ~ (0 <= k < 2 ^ (8 * n))) as [-> Hout].
      { unfold Mem.pack in Hp.
        destruct (map_length_format W n Hn) as (f & Hf & Hc).
        rewrite Hf in Hp. simpl in Hp. unfold Mem.struct_pack in Hp.
        rewrite Hc in Hp.
        destruct ((0 <=? k) && (k <? 2 ^ (8 * n))) eqn:E; [discriminate |].
        injection Hp as <-. split; [reflexivity |].
        intros [H1 H2]. apply andb_false_iff in E.
        destruct E as [E | E];
          [apply Z.leb_gt in E | apply Z.ltb_ge in E]; lia. }
      injection H as <- <-. rewrite Hbits. auto. }
  right. right.
  destruct (pack_le_bytes W k s Hp) as (n0 & Hn0 & _ & _ & _ & _ & Hlen).
  rewrite Hn in Hn0. injection Hn0 as <-.
  destruct (Mem._write A n s m) as [m1 r] eqn:Hw.
  pose proof Hw as Hspec. apply _write_spec in Hspec.
  destruct Hspec as (Hm1 & k' & Hk' & _ & _ & Hend).
  rewrite <- Hlen in Hk', Hend. unfold len in Hk', Hend.
  rewrite Nat2Z.id in Hk', Hend.
  destruct Hend as [[-> ->] | [(Hlt & Hnone & ->) | (Hlt & _ & Hnone & _)]].
  - unfold Mem.write, try_except in H. rewrite Hw in H. discriminate.
  - rewrite (write_after_MemWriteError m m1 A n s Hw Hm1) in H.
    rewrite Hdiv.
    assert (Hex : exists i, 0 <= i < n /\ Mem.data m !! (A + i) = None).
    { exists (Z.of_nat k'). unfold len in Hlen. split; [lia | exact Hnone]. }
    destruct (Mem.strict m); [| discriminate].
    destruct (Mem.reader m) as [rd |] eqn:Hr.
    + destruct (rd A n) eqn:Hrd; [discriminate |].
      injection H as <- <-. repeat split; eauto.
    + injection H as <- <-. repeat split; eauto.
  - apply lookup_ge_None in Hnone. lia.
Qed.

Lemma store_failure_modes_witness :
  0x100 < 0 \/ 2 ^ width_bits U8 <= 0x100.
Proof.
  destruct (store_failure_modes (Mem.init None false)
              (Mem.init None false) 0 0x100 U8 StructError)
    as [(H & _) | [(_ & _ & H & _) | (H & _)]];
    [reflexivity | discriminate | | discriminate].
  right. simpl in *. lia.
Defined.

(** ** Mem: allocation *)

(* What an allocation without an address leaves behind. *)
Lemma alloc_anonymous_spec (m : Mem.t) (size : Z) (s : option bytes) :
  exists m',
    Mem.alloc None (Some size) s m = (m', Return (Mem.alloc_last m)) /\
    Mem.alloc_last m' = Mem.alloc_last m + size /\
    (forall (i : nat) d b, Z.of_nat i < size -> s = Some d -> d !! i = Some b ->
       Mem.data m' !! (Mem.alloc_last m + Z.of_nat i) = Some b) /\
    (forall i, 0 <= i < size ->
       (forall d, s = Some d -> len d <= i) ->
       Mem.data m' !! (Mem.alloc_last m + i) = Some x00) /\
    (forall a, ~ (Mem.alloc_last m <= a < Mem.alloc_last m + size) ->
       Mem.data m' !! a = Mem.data m !! a).
Proof.
  unfold Mem.alloc, Mem.alloc_addr, bind.
  eexists. split; [reflexivity |].
  cbn [Mem.alloc_last Mem.set_data Mem.set_alloc_last Mem.data].
  split; [reflexivity |]. unfold range.
  split; [| split].
  - intros i d b Hi -> Hb. rewrite lookup_alloc_loop.
    case_decide; [| lia].
    replace (Mem.alloc_last m + Z.of_nat i - Mem.alloc_last m)
      with (Z.of_nat i) by lia.
    f_equal. apply alloc_byte_lookup, Hb.
  - intros i Hi Hd. rewrite lookup_alloc_loop.
    case_decide; [| lia]. f_equal.
    replace (Mem.alloc_last m + i - Mem.alloc_last m) with i by lia.
    unfold Mem.alloc_byte. destruct s as [d |]; [| reflexivity].
    specialize (Hd d eq_refl).
    destruct (len d <=? i) eqn:E; [reflexivity |].
    apply Z.leb_gt in E. lia.
  - intros a Ha. rewrite lookup_alloc_loop. case_decide; [lia | reflexivity].
Qed.

(** An allocation without an address returns the cursor, moves it by
    the size, and defines exactly the bytes from the cursor on: the
    bytes of the data first, zero bytes where the data has run out; data
    longer than the size is cut.  Nothing outside the range changes.  No
    size is refused: a negative one defines nothing and moves the
    cursor back. *)
Theorem alloc_anonymous (m : Mem.t) (size : Z) (s : option bytes) :
  exists m',
    Mem.alloc None (Some size) s m = (m', Return (Mem.alloc_last m)) /\
    Mem.alloc_last m' = Mem.alloc_last m + size /\
    (forall (i : nat) d b, Z.of_nat i < size -> s = Some d -> d !! i = Some b ->
       Mem.data m' !! (Mem.alloc_last m + Z.of_nat i) = Some b) /\
    (forall i, 0 <= i < size ->
       (forall d, s = Some d -> len d <= i) ->
       Mem.data m' !! (Mem.alloc_last m + i) = Some x00) /\
    (forall a, ~ (Mem.alloc_last m <= a < Mem.alloc_last m + size) ->
       Mem.data m' !! a = Mem.data m !! a).
Proof.
  unfold Mem.alloc, Mem.alloc_addr, bind.
  eexists. split; [reflexivity |].
  cbn [Mem.alloc_last Mem.set_data Mem.set_alloc_last Mem.data].
  split; [reflexivity |]. unfold range.
  split; [| split].
  - intros i d b Hi -> Hb. rewrite lookup_alloc_loop.
    case_decide; [| lia].
    replace (Mem.alloc_last m + Z.of_nat i - Mem.alloc_last m)
      with (Z.of_nat i) by lia.
    f_equal. apply alloc_byte_lookup, Hb.
  - intros i Hi Hd. rewrite lookup_alloc_loop.
    case_decide; [| lia]. f_equal.
    replace (Mem.alloc_last m + i - Mem.alloc_last m) with i by lia.
    unfold Mem.alloc_byte. destruct s as [d |]; [| reflexivity].
    specialize (Hd d eq_refl).
    destruct (len d <=? i) eqn:E; [reflexivity |].
    apply Z.leb_gt in E. lia.
  - intros a Ha. rewrite lookup_alloc_loop. case_decide; [lia | reflexivity].
Qed.

(** Two allocations without an address do not overlap: the second one
    starts where the first one ended and leaves the bytes of the first
    as they are. *)
Theorem alloc_twice_disjoint (m : Mem.t) (size1 size2 : Z)
    (s1 s2 : option bytes) :
  0 <= size2 ->
  exists m1 m2,
    Mem.alloc None (Some size1) s1 m = (m1, Return (Mem.alloc_last m)) /\
    Mem.alloc None (Some size2) s2 m1
      = (m2, Return (Mem.alloc_last m + size1)) /\
    (forall i, 0 <= i < size1 ->
       Mem.data m2 !! (Mem.alloc_last m + i)
       = Mem.data m1 !! (Mem.alloc_last m + i)).
Proof.
  intros Hsize2.
  destruct (alloc_anonymous_spec m size1 s1) as (m1 & H1 & Hl1 & _).
  destruct (alloc_anonymous_spec m1 size2 s2) as (m2 & H2 & _ & _ & _ & Hfr).
  exists m1, m2. rewrite Hl1 in H2, Hfr.
  split; [exact H1 |]. split; [exact H2 |].
  intros i Hi. apply Hfr. lia.
Qed.

Lemma alloc_twice_disjoint_witness :
  exists m1 m2,
    Mem.alloc None (Some 3) (Some [x41; x42; x43]) (Mem.init None true)
      = (m1, Return Mem.DEF_ALLOC_BASE) /\
    Mem.alloc None (Some 8) None m1 = (m2, Return (Mem.DEF_ALLOC_BASE + 3)) /\
    Mem.data m2 !! (Mem.DEF_ALLOC_BASE + 1)
    = Mem.data m1 !! (Mem.DEF_ALLOC_BASE + 1).
Proof.
  destruct (alloc_twice_disjoint (Mem.init None true) 3 8
              (Some [x41; x42; x43]) None) as (m1 & m2 & H1 & H2 & H3);
    [lia |].
  exists m1, m2. split; [exact H1 |]. split; [exact H2 |].
  apply (H3 1). lia.
Defined.

(** ** Mem: what the reader returns and what the caller passes *)

(** A load over a range with an undefined byte, answered by the reader
    with a string whose length is not the number of bytes of the width,
    installs that string and then fails with [struct.error]: the string
    goes to [unpack] as it is. *)
Theorem load_reader_length_mismatch (m : Mem.t) (addr n : Z) (W : Width)
    (r : Reader) (s : bytes) :
  Mem.map_length W = Return n ->
  (exists i, 0 <= i < n /\ Mem.data m !! (addr + i) = None) ->
  Mem.reader m = Some r ->
  r addr n = Some s ->
  len s <> n ->
  Mem.load addr W m = (filled m addr n s, Raise StructError) /\
  holds (Mem.data (filled m addr n s)) addr s.
Proof.
  intros HW (i & Hi & Hnone) Hr Hs Hlen.
  destruct (map_length_format W n HW) as (f & Hf & Hc).
  split; [| apply holds_alloc_loop].
  unfold Mem.load, bind, lift. rewrite HW.
  rewrite (read_undefined m addr n i Hi Hnone), Hr, Hs.
  unfold Mem.unpack. rewrite Hf. cbn [result_bind].
  unfold Mem.struct_unpack. rewrite Hc.
  destruct (len s =? n) eqn:E; [apply Z.eqb_eq in E; lia | reflexivity].
Qed.

Lemma load_reader_length_mismatch_witness :
  snd (Mem.load 0x1000 U32 short_mem) = Return 0 \/
  snd (Mem.load 0x1000 U32 short_mem) = Raise StructError.
Proof.
  right.
  destruct (load_reader_length_mismatch short_mem 0x1000 4 U32 short_reader
              [xaa; xbb]) as [H _].
  - reflexivity.
  - exists 0. split; [lia | reflexivity].
  - reflexivity.
  - reflexivity.
  - vm_compute. discriminate.
  - rewrite H. reflexivity.
Defined.

(** A write whose data is shorter than its size, over bytes that are
    all defined, stores the data and then fails with [IndexError], which
    [write] does not catch. *)
Theorem write_short_data (m : Mem.t) (addr size : Z) (s : bytes) :
  len s < size ->
  (forall i, 0 <= i <= len s -> is_Some (Mem.data m !! (addr + i))) ->
  exists m',
    Mem.write addr size s m = (m', Raise IndexError) /\
    holds (Mem.data m') addr s /\
    (forall a, ~ (addr <= a < addr + len s) ->
       Mem.data m' !! a = Mem.data m !! a).
Proof.
  intros Hlen Hdef.
  destruct (Mem._write addr size s m) as [m1 r] eqn:Hw.
  pose proof Hw as Hspec. apply _write_spec in Hspec.
  destruct Hspec as (Hm1 & k & Hk & Hin & Hout & Hend).
  assert (Hkk : k = length s).
  { destruct (lt_eq_lt_dec k (length s)) as [[Hlt | Heq] | Hgt];
      [| exact Heq |]; exfalso.
    - destruct Hend as [[-> _] | [(_ & Hn & _) | (_ & _ & Hn & _)]].
      + unfold len in Hlen. lia.
      + destruct (Hdef (Z.of_nat k)) as [b Hb]; [unfold len; lia |].
        congruence.
      + apply lookup_ge_None in Hn. lia.
    - destruct (Hin (length s) Hgt) as (_ & [b Hb] & _).
      apply lookup_lt_Some in Hb. lia. }
  subst k.
  assert (Hr : r = Raise IndexError).
  { destruct Hend as [[Heq _] | [(_ & Hn & _) | (_ & _ & _ & ->)]].
    - unfold len in Hlen. lia.
    - destruct (Hdef (len s)) as [b Hb]; [unfold len; lia |].
      unfold len in Hb. congruence.
    - reflexivity. }
  subst r. exists m1. split.
  - unfold Mem.write, try_except. rewrite Hw. reflexivity.
  - split.
    + intros i b Hi.
      destruct (Hin i (lookup_lt_Some _ _ _ Hi)) as (_ & _ & H3).
      rewrite H3. exact Hi.
    + intros a Ha. apply Hout. unfold len in Ha. exact Ha.
Qed.

Lemma write_short_data_witness :
  exists m',
    Mem.write 0x2000 2 [x11] two_byte_mem = (m', Raise IndexError) /\
    Mem.data m' !! 0x2000 = Some x11.
Proof.
  destruct (write_short_data two_byte_mem 0x2000 2 [x11])
    as (m' & H1 & H2 & _).
  - vm_compute. reflexivity.
  - intros i Hi. assert (Hc : i = 0 \/ i = 1) by (unfold len in Hi; simpl in Hi; lia).
    destruct Hc as [-> | ->]; vm_compute; eauto.
  - exists m'. split; [exact H1 |]. apply (H2 0%nat). reflexivity.
Defined.

(** ** Stack *)

(* The stack and the memory that [Stack.init] leaves behind. *)
Lemma stack_init_spec (m : Mem.t) (isz : Z) (size : option Z) :
  exists m' s,
    Stack.init isz size m = (m', Return s) /\
    Stack.addr s = Stack.DEF_STACK_BASE /\
    Stack.size s = default 0x1000 size /\
    Stack.top s = Stack.DEF_STACK_BASE + default 0x1000 size /\
    Stack.bottom s = Stack.top s /\
    Stack.item_size s = isz /\
    (forall i, 0 <= i < default 0x1000 size ->
       Mem.data m' !! (Stack.DEF_STACK_BASE + i) = Some x00) /\
    (forall a, ~ (Stack.DEF_STACK_BASE <= a
                  < Stack.DEF_STACK_BASE + default 0x1000 size) ->
       Mem.data m' !! a = Mem.data m !! a) /\
    Mem.alloc_last m' = Mem.alloc_last m /\
    Mem.reader m' = Mem.reader m /\
    Mem.strict m' = Mem.strict m.
Proof.
  unfold Stack.init, bind, Mem.alloc, ret.
  do 2 eexists. split; [reflexivity |].
  cbn [Stack.addr Stack.size Stack.top Stack.bottom Stack.item_size
       Mem.data Mem.set_data Mem.alloc_last Mem.reader Mem.strict].
  repeat (split; [reflexivity |]). unfold range.
  split; [| split; [| repeat split; reflexivity]].
  - intros i Hi. rewrite lookup_alloc_loop. case_decide; [reflexivity | lia].
  - intros a Ha. rewrite lookup_alloc_loop. case_decide; [lia | reflexivity].
Qed.

(** A new stack always lies at [DEF_STACK_BASE]: whatever the memory
    held there, the region is zero bytes afterwards, top and bottom are
    its end, and nothing else of the memory changes; the size defaults
    to 0x1000. *)
Theorem stack_init_zeroes (m : Mem.t) (isz : Z) (size : option Z) :
  exists m' s,
    Stack.init isz size m = (m', Return s) /\
    Stack.addr s = Stack.DEF_STACK_BASE /\
    Stack.size s = default 0x1000 size /\
    Stack.top s = Stack.DEF_STACK_BASE + default 0x1000 size /\
    Stack.bottom s = Stack.top s /\
    Stack.item_size s = isz /\
    (forall i, 0 <= i < default 0x1000 size ->
       Mem.data m' !! (Stack.DEF_STACK_BASE + i) = Some x00) /\
    (forall a, ~ (Stack.DEF_STACK_BASE <= a
                  < Stack.DEF_STACK_BASE + default 0x1000 size) ->
       Mem.data m' !! a = Mem.data m !! a) /\
    Mem.alloc_last m' = Mem.alloc_last m /\
    Mem.reader m' = Mem.reader m /\
    Mem.strict m' = Mem.strict m.
Proof.
  unfold Stack.init, bind, Mem.alloc, ret.
  do 2 eexists. split; [reflexivity |].
  cbn [Stack.addr Stack.size Stack.top Stack.bottom Stack.item_size
       Mem.data Mem.set_data Mem.alloc_last Mem.reader Mem.strict].
  repeat (split; [reflexivity |]). unfold range.
  split; [| split; [| repeat split; reflexivity]].
  - intros i Hi. rewrite lookup_alloc_loop. case_decide; [reflexivity | lia].
  - intros a Ha. rewrite lookup_alloc_loop. case_decide; [lia | reflexivity].
Qed.

(** A pop after a push that succeeded returns the value pushed and the
    stack as it was before the push, and leaves the memory as the push
    left it. *)
Theorem push_pop_roundtrip (m m' : Mem.t) (s s' : Stack.t) (v : Z) :
  Stack.push v s m = (m', Return s') ->
  Stack.pop s' m' = (m', Return (v, s)) /\
  Stack.top s' = Stack.top s - Stack.item_size s.
Proof.
  unfold Stack.push, bind, lift. intros H.
  destruct (Mem.map_size (Stack.item_size s)) as [W |] eqn:HW;
    [| discriminate].
  destruct (Mem.store (Stack.top s - Stack.item_size s) W v m)
    as [m1 [[] | e]] eqn:Hst; [| discriminate].
  injection H as <- <-.
  split; [| reflexivity].
  destruct (store_ok_inv _ _ _ _ _ Hst) as (b & Hp & Hh).
  unfold Stack.pop, bind, lift.
  cbn [Stack.item_size Stack.top Stack.size Stack.addr Stack.bottom].
  rewrite HW, (load_stored m1 _ v W b Hp Hh). unfold ret.
  destruct s as [sz ad tp bt isz]. cbn.
  repeat f_equal. lia.
Qed.

Lemma push_pop_roundtrip_witness :
  exists m1 s0 m2 s1,
    Stack.init 4 (Some 16) (Mem.init None true) = (m1, Return s0) /\
    Stack.push 0x42424242 s0 m1 = (m2, Return s1) /\
    Stack.pop s1 m2 = (m2, Return (0x42424242, s0)).
Proof.
  destruct (Stack.init 4 (Some 16) (Mem.init None true)) as [m1 r0] eqn:H0.
  assert (Hr0 : exists s0, r0 = Return s0).
  { apply (f_equal snd) in H0. vm_compute in H0. subst r0. eauto. }
  destruct Hr0 as [s0 ->].
  destruct (Stack.push 0x42424242 s0 m1) as [m2 r1] eqn:H1.
  assert (Hr1 : exists s1, r1 = Return s1).
  { injection H0 as <- <-. apply (f_equal snd) in H1. vm_compute in H1.
    subst r1. eauto. }
  destruct Hr1 as [s1 ->].
  exists m1, s0, m2, s1. split; [reflexivity |]. split; [exact H1 |].
  apply (push_pop_roundtrip m1 m2 s0 s1 0x42424242 H1).
Defined.

Lemma Mem_eta (m : Mem.t) (d : gmap Z byte) :
  d = Mem.data m -> Mem.set_data d m = m.
Proof. intros ->. destruct m. reflexivity. Qed.

(** The stack checks no bounds; misuse ends in a memory fault.  Without
    a reader, a pop from a stack whose top byte is undefined, as on a
    new stack, fails with MemReadError at the top; in strict mode a push
    onto a stack with no defined byte below the top fails with
    MemWriteError at the new top, and the memory is unchanged. *)
Theorem stack_faults (m : Mem.t) (s : Stack.t) (W : Width) (v : Z) :
  Mem.map_size (Stack.item_size s) = Return W ->
  Mem.reader m = None ->
  (Mem.data m !! Stack.top s = None ->
     Stack.pop s m = (m, Raise (MemReadError (Stack.top s)))) /\
  (Mem.strict m = true ->
   0 <= v < 2 ^ (8 * Stack.item_size s) ->
   Mem.data m !! (Stack.top s - Stack.item_size s) = None ->
     Stack.push v s m
     = (m, Raise (MemWriteError (Stack.top s - Stack.item_size s)))).
Proof.
  intros HW Hr.
  assert (Hn : Mem.map_length W = Return (Stack.item_size s) /\
               0 < Stack.item_size s).
  { unfold Mem.map_size in HW.
    repeat match type of HW with
           | (if ?c then _ else _) = _ =>
               destruct c eqn:?; [injection HW as <- |]
           end; try discriminate;
      match goal with E : (_ =? _) = true |- _ =>
        apply Z.eqb_eq in E; rewrite E end; split; (reflexivity || lia). }
  destruct Hn as [Hn Hpos].
  split.
  - intros Hnone. unfold Stack.pop, bind, lift. rewrite HW.
    unfold Mem.load, bind, lift. rewrite Hn.
    rewrite (read_undefined m (Stack.top s) (Stack.item_size s) 0), Hr;
      [reflexivity | lia |].
    rewrite Z.add_0_r. exact Hnone.
  - intros Hstrict Hv Hnone. unfold Stack.push, bind, lift. rewrite HW.
    destruct (pack_in_range W v _ Hn Hv) as (b & Hp & Hlen).
    unfold Mem.store, bind, lift. rewrite Hn, Hp.
    destruct (_write_first_undefined m (Stack.top s - Stack.item_size s)
                (Stack.item_size s) 0 b) as (m1 & Hw & Hm1 & _ & Hout);
      [lia | unfold len; lia | intros; lia | rewrite Z.add_0_r; exact Hnone |].
    rewrite (write_after_MemWriteError _ _ _ _ _ Hw Hm1), Hstrict, Hr.
    assert (Heq : m1 = m).
    { rewrite Hm1. apply Mem_eta. apply map_eq. intros a.
      apply Hout. lia. }
    rewrite Heq. reflexivity.
Qed.

Lemma stack_faults_witness :
  exists m s,
    Stack.init 4 None (Mem.init None true) = (m, Return s) /\
    Stack.pop s m = (m, Raise (MemReadError (Stack.DEF_STACK_BASE + 0x1000))).
Proof.
  destruct (stack_init_spec (Mem.init None true) 4 None)
    as (m & s & Hinit & _ & _ & Htop & _ & Hisz & _ & Hout & _ & Hrd & _).
  exists m, s. split; [exact Hinit |].
  change (Stack.top s = Stack.DEF_STACK_BASE + 0x1000) in Htop.
  change (forall a, ~ (Stack.DEF_STACK_BASE <= a < Stack.DEF_STACK_BASE + 0x1000) ->
                    Mem.data m !! a = Mem.data (Mem.init None true) !! a)
    in Hout.
  destruct (stack_faults m s U32 0) as [Hpop _].
  - rewrite Hisz. reflexivity.
  - rewrite Hrd. reflexivity.
  - rewrite <- Htop. apply Hpop. rewrite Hout; [reflexivity |].
    rewrite Htop. lia.
Defined.

(** ** Cpu: register names *)

Lemma upper_ascii_idempotent (c : ascii) :
  upper_ascii (upper_ascii c) = upper_ascii c.
Proof. destruct c as [[] [] [] [] [] [] [] []]; reflexivity. Qed.

Lemma upper_idempotent (s : string) : upper (upper s) = upper s.
Proof.
  induction s as [| c s IH]; [reflexivity |].
  simpl. rewrite upper_ascii_idempotent, IH. reflexivity.
Qed.

Lemma substring_0_0 (s : string) : substring 0 0 s = EmptyString.
Proof. destruct s; reflexivity. Qed.

Lemma canonical_prefixed (c : ascii) (s : string) (t : bool) :
  c = "R"%char \/ c = "V"%char ->
  Cpu.canonical (String c (String "_" (upper s))) t
  = String c (String "_" (upper s)).
Proof.
  intros Hc. unfold Cpu.canonical. cbn [upper]. rewrite upper_idempotent.
  destruct Hc as [-> | ->];
    change (upper_ascii "V") with "V"%char;
    change (upper_ascii "R") with "R"%char;
    change (upper_ascii "_") with "_"%char;
    cbn [substring]; rewrite substring_0_0; reflexivity.
Qed.

(** Register names are canonical after one call of [reg]: the name under
    which a register is stored is found again from itself, whatever the
    temp flag, and from any spelling of the name that differs in case
    only. *)
Theorem canonical_idempotent (name : string) (t t' : bool) :
  Cpu.canonical (Cpu.canonical name t) t' = Cpu.canonical name t /\
  Cpu.canonical (upper name) t = Cpu.canonical name t.
Proof.
  split.
  - assert (Hc : Cpu.canonical name t =
                 if (String.eqb (substring 0 2 (upper name)) "R_"
                     || String.eqb (substring 0 2 (upper name)) "V_")%bool
                 then upper name
                 else ((if t then "V" else "R") +:+ "_" +:+ upper name))
      by reflexivity.
    rewrite Hc. clear Hc.
    destruct (String.eqb (substring 0 2 (upper name)) "R_"
              || String.eqb (substring 0 2 (upper name)) "V_")%bool eqn:E.
    + unfold Cpu.canonical. rewrite upper_idempotent, E. reflexivity.
    + destruct t.
      * change ("V" +:+ "_" +:+ upper name)
          with (String "V" (String "_" (upper name))).
        apply canonical_prefixed. auto.
      * change ("R" +:+ "_" +:+ upper name)
          with (String "R" (String "_" (upper name))).
        apply canonical_prefixed. auto.
  - unfold Cpu.canonical. rewrite upper_idempotent. reflexivity.
Qed.

(** ** Cpu: what the operations keep *)

Lemma keeps_ret {S A} (P : S -> Prop) (x : A) : keeps P (ret x).
Proof. intros s s' r Hs H. injection H as <- _. exact Hs. Qed.

Lemma keeps_raise {S A} (P : S -> Prop) (e : exn) : keeps P (@raise S A e).
Proof. intros s s' r Hs H. injection H as <- _. exact Hs. Qed.

Lemma keeps_lift {S A} (P : S -> Prop) (x : result A) : keeps P (lift x).
Proof. intros s s' r Hs H. injection H as <- _. exact Hs. Qed.

Lemma keeps_bind {S A B} (P : S -> Prop) (m : ST S A) (k : A -> ST S B) :
  keeps P m -> (forall x, keeps P (k x)) -> keeps P (bind m k).
Proof.
  intros Hm Hk s s' r Hs H. unfold bind in H.
  destruct (m s) as [s1 [x | e]] eqn:E.
  - apply (Hk x s1 s' r); [apply (Hm s s1 _ Hs E) | exact H].
  - injection H as <- _. apply (Hm s s1 _ Hs E).
Qed.

Lemma keeps_try_except {S A} (P : S -> Prop) (m : ST S A)
    (handles : exn -> bool) (h : exn -> ST S A) :
  keeps P m -> (forall e, keeps P (h e)) -> keeps P (try_except m handles h).
Proof.
  intros Hm Hh s s' r Hs H. unfold try_except in H.
  destruct (m s) as [s1 [x | e]] eqn:E.
  - injection H as <- _. apply (Hm s s1 _ Hs E).
  - destruct (handles e).
    + apply (Hh e s1 s' r); [apply (Hm s s1 _ Hs E) | exact H].
    + injection H as <- _. apply (Hm s s1 _ Hs E).
Qed.

Lemma keeps_dep {S A} (P : S -> Prop) (f : S -> ST S A) :
  (forall s0, keeps P (f s0)) -> keeps P (fun s => f s s).
Proof. intros H s s' r Hs E. apply (H s s s' r Hs E). Qed.

Ltac keeps_step :=
  match goal with
  | |- keeps _ (bind _ _) => apply keeps_bind; [| intros ?]
  | |- keeps _ (ret _) => apply keeps_ret
  | |- keeps _ (raise _) => apply keeps_raise
  | |- keeps _ (lift _) => apply keeps_lift
  | |- keeps _ (try_except _ _ _) => apply keeps_try_except; [| intros ?]
  | |- keeps _ (match ?x with _ => _ end) => destruct x
  end.

(** *** The memory operations of a run keep the setup of the memory *)









(** *** From the primitives to the run loop *)

Section CpuKeeps.

Variable P : Cpu.t -> Prop.
Hypothesis P_reg : forall n v t, keeps P (Cpu.reg n v t).
Hypothesis P_set_val : forall r v, keeps P (Cpu.set_val r v).
Hypothesis P_reset_temp : keeps P Cpu.reset_temp.
Hypothesis P_store : forall a W v, keeps P (Cpu.on_mem (Mem.store a W v)).
Hypothesis P_load : forall a W, keeps P (Cpu.on_mem (Mem.load a W)).

Lemma keeps_reg_of (name : option string) (t : bool) :
  keeps P (Cpu.reg_of name t).
Proof. destruct name; [apply P_reg | apply keeps_raise]. Qed.

Lemma keeps_arg (a : Arg) : keeps P (Cpu.arg a).
Proof.
  unfold Cpu.arg. destruct (arg_type a); repeat keeps_step;
    apply keeps_reg_of.
Qed.

Lemma keeps_insn_other (insn : Insn) (a b c : option Arg) :
  keeps P (Cpu.insn_other insn a b c).
Proof.
  unfold Cpu.insn_other.
  keeps_step; [apply keeps_lift |].
  keeps_step; [apply keeps_reg_of |].
  keeps_step; [apply P_set_val | apply keeps_ret].
Qed.

Lemma keeps_execute (insn : Insn) : keeps P (Cpu.execute insn).
Proof.
  unfold Cpu.execute.
  keeps_step; [apply keeps_arg |].
  keeps_step; [apply keeps_arg |].
  keeps_step; [apply keeps_arg |].
  destruct (negb (in_REIL_INSN (insn_op insn))); [apply keeps_raise |].
  apply keeps_try_except; [| intros; apply keeps_insn_other].
  destruct (insn_op insn); try apply keeps_raise.
  - apply keeps_ret.
  - unfold Cpu.insn_jcc. keeps_step; [apply keeps_lift |].
    destruct (negb (x2 =? 0)); [| apply keeps_ret].
    keeps_step; [apply keeps_lift | apply keeps_ret].
  - unfold Cpu.insn_stm. keeps_step; [apply keeps_lift |].
    keeps_step; [apply keeps_lift |].
    keeps_step; [apply P_store | apply keeps_ret].
  - unfold Cpu.insn_ldm. keeps_step; [apply keeps_lift |].
    keeps_step; [apply P_load |].
    keeps_step; [apply keeps_reg_of |].
    keeps_step; [apply P_set_val | apply keeps_ret].
Qed.

Lemma keeps_set_ip (v : Z) : keeps P (Cpu.set_ip v).
Proof.
  unfold Cpu.set_ip.
  apply (keeps_dep P (fun c0 =>
    bind (Cpu.reg (Registers_ip (Cpu.arch c0)) Cpu.DEF_REG_VAL false)
         (fun r => Cpu.set_val r v))).
  intros c0. keeps_step; [apply P_reg | apply P_set_val].
Qed.

Lemma keeps_run_insns (insn_list : list Insn) :
  forall next, keeps P (Cpu.run_insns insn_list next).
Proof.
  induction insn_list as [| insn rest IH]; intros next; simpl.
  - apply keeps_ret.
  - keeps_step; [apply keeps_execute |].
    destruct x as [target |]; [apply keeps_ret |].
    keeps_step; [apply keeps_set_ip | apply IH].
Qed.

Lemma keeps_run_pass (storage : Storage) (next : Z) :
  keeps P (Cpu.run_pass storage next).
Proof.
  unfold Cpu.run_pass. destruct (get_insn storage next);
    [| apply keeps_raise].
  keeps_step; [apply keeps_run_insns |].
  keeps_step; [apply P_reset_temp | apply keeps_ret].
Qed.

Lemma keeps_run_loop (fuel : nat) (storage : Storage) :
  forall next, keeps P (Cpu.run_loop fuel storage next).
Proof.
  induction fuel as [| fuel IH]; intros next; simpl.
  - apply keeps_ret.
  - keeps_step; [apply keeps_run_pass | apply IH].
Qed.

End CpuKeeps.









(** *** The register table *)

Lemma reg_named (n : string) (v : Z) (t : bool) : keeps regs_named (Cpu.reg n v t).
Proof.
  intros c c' r Hc H. unfold Cpu.reg in H.
  destruct (Cpu.regs c !! Cpu.canonical n t) eqn:E; injection H as <- _;
    [exact Hc |].
  intros k x Hk. cbn [Cpu.regs Cpu.set_regs] in Hk.
  rewrite lookup_insert in Hk. case_decide as Hd.
  - injection Hk as <-. exact Hd.
  - apply Hc, Hk.
Qed.

Lemma set_val_named (x : Reg) (v : Z) : keeps regs_named (Cpu.set_val x v).
Proof.
  intros c c' r Hc H. injection H as <- _.
  intros k y Hk. cbn [Cpu.regs Cpu.set_regs] in Hk.
  rewrite lookup_insert in Hk. case_decide as Hd.
  - injection Hk as <-. exact Hd.
  - apply Hc, Hk.
Qed.

Lemma reset_temp_named : keeps regs_named Cpu.reset_temp.
Proof.
  intros c c' r Hc H. injection H as <- _.
  intros k y Hk. cbn [Cpu.regs Cpu.set_regs] in Hk.
  apply map_lookup_filter_Some in Hk. apply Hc, Hk.
Qed.

Lemma on_mem_named {A} (f : ST Mem.t A) : keeps regs_named (Cpu.on_mem f).
Proof.
  intros c c' r Hc H. unfold Cpu.on_mem in H.
  destruct (f (Cpu.mem c)). injection H as <- _. exact Hc.
Qed.

(** Every register object is stored under its own canonical name, which
    is what makes an assignment to [reg(name).val] reach the register
    that a later [reg(name)] finds: it holds on a new cpu, and
    [execute] and [run] keep it, whether they return or raise. *)
Theorem regs_named_invariant (a : Arch) :
  regs_named (Cpu.init a) /\
  (forall insn, keeps regs_named (Cpu.execute insn)) /\
  (forall fuel storage addr, keeps regs_named (Cpu.run fuel storage addr)).
Proof.
  split; [| split].
  - intros k r Hk. cbn in Hk. rewrite lookup_empty in Hk. discriminate.
  - intros insn. apply keeps_execute.
    + apply reg_named.
    + apply set_val_named.
    + intros. apply on_mem_named.
    + intros. apply on_mem_named.
  - intros fuel storage addr. unfold Cpu.run.
    apply keeps_bind.
    + intros c c' r Hc H. injection H as <- _. exact Hc.
    + intros _. apply keeps_bind.
      * apply keeps_set_ip; [apply reg_named | apply set_val_named].
      * intros _. apply keeps_run_loop.
        -- apply reg_named.
        -- apply set_val_named.
        -- apply reset_temp_named.
        -- intros. apply on_mem_named.
        -- intros. apply on_mem_named.
Qed.



(** ** Cpu: single instructions *)

Lemma bind_eq {S A B} (m : ST S A) (k : A -> ST S B) (s s' : S) (x : A) :
  m s = (s', Return x) -> bind m k s = k x s'.
Proof. intros H. unfold bind. rewrite H. reflexivity. Qed.

Lemma bind_raise {S A B} (m : ST S A) (k : A -> ST S B) (s s' : S) (e : exn) :
  m s = (s', Raise e) -> bind m k s = (s', Raise e).
Proof. intros H. unfold bind. rewrite H. reflexivity. Qed.

Lemma arg_const (a : Arg) (c : Cpu.t) :
  arg_type a = A_CONST -> Cpu.arg a c = (c, Return (Some a)).
Proof. intros H. unfold Cpu.arg. rewrite H. reflexivity. Qed.

Lemma arg_none (a : Arg) (c : Cpu.t) :
  arg_type a = A_NONE -> Cpu.arg a c = (c, Return None).
Proof. intros H. unfold Cpu.arg. rewrite H. reflexivity. Qed.

(** What [reg] returns and leaves. *)
Lemma reg_spec (n : string) (v : Z) (t : bool) (c : Cpu.t) :
  exists c' r,
    Cpu.reg n v t c = (c', Return r) /\
    Cpu.regs c' !! Cpu.canonical n t = Some r /\
    Cpu.mem c' = Cpu.mem c /\
    Cpu.arch c' = Cpu.arch c /\
    (forall k x, Cpu.regs c !! k = Some x -> Cpu.regs c' !! k = Some x) /\
    (forall k, k <> Cpu.canonical n t -> Cpu.regs c' !! k = Cpu.regs c !! k) /\
    (Cpu.regs c !! Cpu.canonical n t = None ->
       r = mkReg (Cpu.canonical n t) v t).
Proof.
  unfold Cpu.reg.
  destruct (Cpu.regs c !! Cpu.canonical n t) as [r |] eqn:E.
  - exists c, r. repeat split; auto. discriminate.
  - do 2 eexists. split; [reflexivity |].
    cbn [Cpu.regs Cpu.set_regs Cpu.mem Cpu.arch].
    split; [apply lookup_insert_eq |]. repeat split; auto.
    + intros k x Hk. rewrite lookup_insert_ne; [exact Hk | congruence].
    + intros k Hk. apply lookup_insert_ne. congruence.
Qed.

(** An operand that is well formed resolves without an exception; the
    memory and the registers that exist stay as they are. *)
Lemma arg_returns (a : Arg) (c : Cpu.t) :
  arg_named a ->
  exists c' v,
    Cpu.arg a c = (c', Return v) /\
    Cpu.mem c' = Cpu.mem c /\
    Cpu.arch c' = Cpu.arch c /\
    (forall k x, Cpu.regs c !! k = Some x -> Cpu.regs c' !! k = Some x).
Proof.
  unfold arg_named, Cpu.arg. intros H.
  destruct (arg_type a).
  - exists c, None. auto.
  - destruct H as [n Hn]. rewrite Hn. cbn [Cpu.reg_of].
    destruct (reg_spec n Cpu.DEF_REG_VAL false c)
      as (c' & r & Hr & _ & Hm & Ha & Hk & _).
    exists c'. eexists. rewrite (bind_eq _ _ _ _ _ Hr). auto.
  - destruct H as [n Hn]. rewrite Hn. cbn [Cpu.reg_of].
    destruct (reg_spec n Cpu.DEF_REG_VAL true c)
      as (c' & r & Hr & _ & Hm & Ha & Hk & _).
    exists c'. eexists. rewrite (bind_eq _ _ _ _ _ Hr). auto.
  - exists c, (Some a). auto.
Qed.

(** An instruction whose opcode is not a REIL opcode raises
    CpuInstructionError with the address and the index of the
    instruction, once its operands have been resolved; the memory and
    the registers that existed are as before. *)
Theorem execute_invalid_opcode (insn : Insn) (c : Cpu.t) :
  in_REIL_INSN (insn_op insn) = false ->
  arg_named (insn_a insn) -> arg_named (insn_b insn) ->
  arg_named (insn_c insn) ->
  exists c',
    Cpu.execute insn c
    = (c', Raise (CpuInstructionError (insn_addr insn) (insn_inum insn))) /\
    Cpu.mem c' = Cpu.mem c /\
    (forall k x, Cpu.regs c !! k = Some x -> Cpu.regs c' !! k = Some x).
Proof.
  intros Hop Ha Hb Hc.
  destruct (arg_returns _ c Ha) as (c1 & va & H1 & Hm1 & _ & Hk1).
  destruct (arg_returns _ c1 Hb) as (c2 & vb & H2 & Hm2 & _ & Hk2).
  destruct (arg_returns _ c2 Hc) as (c3 & vc & H3 & Hm3 & _ & Hk3).
  exists c3. unfold Cpu.execute.
  rewrite (bind_eq _ _ _ _ _ H1), (bind_eq _ _ _ _ _ H2),
    (bind_eq _ _ _ _ _ H3), Hop.
  split; [reflexivity |]. split; [congruence | auto].
Qed.

Lemma execute_invalid_opcode_witness :
  Cpu.execute (bad_insn 0x1000) (Cpu.init ARCH_X86)
  = (Cpu.init ARCH_X86, Raise (CpuInstructionError 0x1000 0)).
Proof.
  destruct (execute_invalid_opcode (bad_insn 0x1000) (Cpu.init ARCH_X86))
    as (c' & H & _); [reflexivity | exact I | exact I | exact I |].
  rewrite H. f_equal.
  apply (f_equal fst) in H. cbn in H. symmetry. exact H.
Defined.

Lemma try_except_return {S A} (m : ST S A) (handles : exn -> bool)
    (h : exn -> ST S A) (s s' : S) (x : A) :
  m s = (s', Return x) -> try_except m handles h s = (s', Return x).
Proof. intros H. unfold try_except. rewrite H. reflexivity. Qed.

Lemma try_except_handled {S A} (m : ST S A) (handles : exn -> bool)
    (h : exn -> ST S A) (s s' : S) (e : exn) :
  m s = (s', Raise e) -> handles e = true ->
  try_except m handles h s = h e s'.
Proof. intros H He. unfold try_except. rewrite H, He. reflexivity. Qed.

Lemma try_except_passed {S A} (m : ST S A) (handles : exn -> bool)
    (h : exn -> ST S A) (s s' : S) (e : exn) :
  m s = (s', Raise e) -> handles e = false ->
  try_except m handles h s = (s', Raise e).
Proof. intros H He. unfold try_except. rewrite H, He. reflexivity. Qed.

(** What [execute] does once the three operands have resolved without
    creating a register. *)
Lemma execute_resolved (insn : Insn) (c : Cpu.t) (va vb vc : option Arg) :
  Cpu.arg (insn_a insn) c = (c, Return va) ->
  Cpu.arg (insn_b insn) c = (c, Return vb) ->
  Cpu.arg (insn_c insn) c = (c, Return vc) ->
  in_REIL_INSN (insn_op insn) = true ->
  Cpu.execute insn c =
  try_except
    (match insn_op insn with
     | I_NONE => Cpu.insn_none insn va vb vc
     | I_JCC => Cpu.insn_jcc insn va vb vc
     | I_STM => Cpu.insn_stm insn va vb vc
     | I_LDM => Cpu.insn_ldm insn va vb vc
     | _ => raise KeyError
     end)
    Cpu.is_KeyError
    (fun _ => Cpu.insn_other insn va vb vc) c.
Proof.
  intros Ha Hb Hc Hop. unfold Cpu.execute.
  rewrite (bind_eq _ _ _ _ _ Ha), (bind_eq _ _ _ _ _ Hb),
    (bind_eq _ _ _ _ _ Hc), Hop. reflexivity.
Qed.

(** I_JCC: with a condition that is zero the instruction falls through,
    with any other condition it returns the value of its third operand
    as the address to continue at; nothing of the cpu changes. *)
Theorem execute_jcc (insn : Insn) (c : Cpu.t) (a target : Arg)
    (vb : option Arg) :
  insn_op insn = I_JCC ->
  Cpu.arg (insn_a insn) c = (c, Return (Some a)) ->
  Cpu.arg (insn_b insn) c = (c, Return vb) ->
  Cpu.arg (insn_c insn) c = (c, Return (Some target)) ->
  Cpu.execute insn c =
  (c, Return (if get_val a =? 0 then None else Some (get_val target))).
Proof.
  intros Hop Ha Hb Hc.
  rewrite (execute_resolved insn c _ _ _ Ha Hb Hc) by (rewrite Hop; reflexivity).
  rewrite Hop. apply try_except_return.
  unfold Cpu.insn_jcc, bind, lift, ret. cbn [Cpu.get_val_of].
  destruct (get_val a =? 0); reflexivity.
Qed.

Lemma execute_jcc_witness :
  Cpu.execute (jmp_insn 0x1000 2 0x2000) (Cpu.init ARCH_X86)
  = (Cpu.init ARCH_X86, Return (Some 0x2000)).
Proof.
  apply (execute_jcc (jmp_insn 0x1000 2 0x2000) (Cpu.init ARCH_X86)
           (Const U1 1) (Const U32 0x2000) None); reflexivity.
Defined.

Lemma eval_returns_op (op : Opcode) (va vb : option Arg) (v : Z) :
  Math.eval op va vb = Return v ->
  in_REIL_INSN op = true /\
  forall (T : Type) (x1 x2 x3 x4 y : T),
    match op with
    | I_NONE => x1 | I_JCC => x2 | I_STM => x3 | I_LDM => x4 | _ => y
    end = y.
Proof.
  intros H. destruct op; try discriminate; split; reflexivity.
Qed.

(** Every other opcode writes its destination: when [Math.eval] returns
    [v] for the resolved operands, the destination register holds the
    low bits of [v] at the width of the destination operand afterwards;
    the memory and all other registers are as before. *)
Theorem execute_writes_destination (insn : Insn) (c : Cpu.t)
    (va vb : option Arg) (v : Z) (n : string) :
  Cpu.arg (insn_a insn) c = (c, Return va) ->
  Cpu.arg (insn_b insn) c = (c, Return vb) ->
  Math.eval (insn_op insn) va vb = Return v ->
  arg_type (insn_c insn) = A_REG ->
  arg_name (insn_c insn) = Some n ->
  regs_named c ->
  exists c',
    Cpu.execute insn c = (c', Return None) /\
    reg_at c' (Cpu.canonical n false)
    = Some (v mod 2 ^ width_bits (arg_size (insn_c insn))) /\
    Cpu.mem c' = Cpu.mem c /\
    (forall k, k <> Cpu.canonical n false ->
               Cpu.regs c' !! k = Cpu.regs c !! k).
Proof.
  intros Ha Hb Hev Hty Hname Hwf.
  destruct (eval_returns_op _ _ _ _ Hev) as [Hop Hdisp].
  destruct (reg_spec n Cpu.DEF_REG_VAL false c)
    as (c1 & r1 & Hr & Hl1 & Hm1 & _ & _ & Hfr1 & _).
  assert (Hwf1 : regs_named c1) by (apply (reg_named _ _ _ _ _ _ Hwf Hr)).
  assert (Hc : Cpu.arg (insn_c insn) c
               = (c1, Return (Some (Const (arg_size (insn_c insn))
                                          (reg_val r1))))).
  { unfold Cpu.arg. rewrite Hty, Hname. cbn [Cpu.reg_of].
    rewrite (bind_eq _ _ _ _ _ Hr). reflexivity. }
  assert (Hr1 : Cpu.reg n Cpu.DEF_REG_VAL false c1 = (c1, Return r1)).
  { unfold Cpu.reg. rewrite Hl1. reflexivity. }
  eexists. split; [| split; [| split]].
  - unfold Cpu.execute.
    rewrite (bind_eq _ _ _ _ _ Ha), (bind_eq _ _ _ _ _ Hb),
      (bind_eq _ _ _ _ _ Hc), Hop.
    cbn [negb]. rewrite Hdisp.
    rewrite (try_except_handled _ _ _ c1 c1 KeyError);
      [| reflexivity | reflexivity].
    unfold Cpu.insn_other, Cpu.evaluate. rewrite Hev. cbn [result_bind].
    unfold bind at 1. unfold lift. rewrite Hname. cbn [Cpu.reg_of].
    rewrite (bind_eq _ _ _ _ _ Hr1).
    unfold bind, Cpu.set_val, ret. reflexivity.
  - unfold reg_at. cbn [Cpu.regs Cpu.set_regs].
    rewrite (Hwf1 _ _ Hl1), lookup_insert_eq. cbn [fmap option_fmap option_map reg_val].
    rewrite get_val_Const. reflexivity.
  - cbn [Cpu.mem Cpu.set_regs]. exact Hm1.
  - intros k Hk. cbn [Cpu.regs Cpu.set_regs].
    rewrite (Hwf1 _ _ Hl1), lookup_insert_ne by congruence.
    apply Hfr1, Hk.
Qed.

Lemma execute_writes_destination_witness :
  exists c',
    Cpu.execute
      (mkInsn 0x1000 0 I_ADD (Const U8 0xF0) (Const U8 0x20)
         (mkArg A_REG U8 (Some "al") 0) (0x1000, 1))
      (Cpu.init ARCH_X86) = (c', Return None) /\
    reg_at c' "R_AL" = Some 0x10.
Proof.
  destruct (execute_writes_destination
              (mkInsn 0x1000 0 I_ADD (Const U8 0xF0) (Const U8 0x20)
                 (mkArg A_REG U8 (Some "al") 0) (0x1000, 1))
              (Cpu.init ARCH_X86) (Some (Const U8 0xF0)) (Some (Const U8 0x20))
              0x10 "al") as (c' & H1 & H2 & _);
    try reflexivity.
  - intros k r Hk. cbn in Hk. rewrite lookup_empty in Hk. discriminate.
  - exists c'. split; [exact H1 | exact H2].
Defined.

(** An I_STM that returns has stored its first operand. *)
Lemma execute_stm_inv (insn : Insn) (c c1 : Cpu.t) (a target : Arg)
    (vb : option Arg) (res : option Z) :
  insn_op insn = I_STM ->
  Cpu.arg (insn_a insn) c = (c, Return (Some a)) ->
  Cpu.arg (insn_b insn) c = (c, Return vb) ->
  Cpu.arg (insn_c insn) c = (c, Return (Some target)) ->
  Cpu.execute insn c = (c1, Return res) ->
  exists m1,
    Mem.store (get_val target) (arg_size (insn_a insn)) (get_val a) (Cpu.mem c)
    = (m1, Return tt) /\
    c1 = Cpu.set_mem m1 c /\ res = None.
Proof.
  intros Hop Ha Hb Hc H.
  rewrite (execute_resolved insn c _ _ _ Ha Hb Hc) in H
    by (rewrite Hop; reflexivity).
  rewrite Hop in H. unfold try_except in H.
  unfold Cpu.insn_stm, bind, lift, Cpu.on_mem in H. cbn [Cpu.get_val_of] in H.
  destruct (Mem.store (get_val target) (arg_size (insn_a insn)) (get_val a)
              (Cpu.mem c)) as [m1 [[] | e]] eqn:Hst.
  - unfold ret in H. injection H as <- <-. eauto.
  - destruct (Cpu.is_KeyError e); [| discriminate].
    unfold Cpu.insn_other, Cpu.evaluate in H. rewrite Hop in H.
    destruct a, vb; discriminate.
Qed.

(** An I_LDM whose load returns [v] leaves [v] in its destination. *)
Lemma execute_ldm_loaded (insn : Insn) (c : Cpu.t) (a : Arg)
    (vb : option Arg) (n : string) (m1 : Mem.t) (v : Z) :
  insn_op insn = I_LDM ->
  Cpu.arg (insn_a insn) c = (c, Return (Some a)) ->
  Cpu.arg (insn_b insn) c = (c, Return vb) ->
  arg_type (insn_c insn) = A_REG ->
  arg_name (insn_c insn) = Some n ->
  regs_named c ->
  Mem.load (get_val a) (arg_size (insn_c insn)) (Cpu.mem c) = (m1, Return v) ->
  exists c',
    Cpu.execute insn c = (c', Return None) /\
    reg_at c' (Cpu.canonical n false) = Some v /\
    Cpu.mem c' = m1.
Proof.
  intros Hop Ha Hb Hty Hname Hwf Hload.
  destruct (reg_spec n Cpu.DEF_REG_VAL false c)
    as (c1 & r1 & Hr & Hl1 & Hm1 & _ & _ & _ & _).
  assert (Hwf1 : regs_named c1) by (apply (reg_named _ _ _ _ _ _ Hwf Hr)).
  assert (Hc : Cpu.arg (insn_c insn) c
               = (c1, Return (Some (Const (arg_size (insn_c insn))
                                          (reg_val r1))))).
  { unfold Cpu.arg. rewrite Hty, Hname. cbn [Cpu.reg_of].
    rewrite (bind_eq _ _ _ _ _ Hr). reflexivity. }
  assert (Hr1 : forall m, Cpu.reg n Cpu.DEF_REG_VAL false (Cpu.set_mem m c1)
                          = (Cpu.set_mem m c1, Return r1)).
  { intros m. unfold Cpu.reg. cbn [Cpu.regs Cpu.set_mem]. rewrite Hl1.
    reflexivity. }
  eexists. split; [| split].
  - unfold Cpu.execute.
    rewrite (bind_eq _ _ _ _ _ Ha), (bind_eq _ _ _ _ _ Hb),
      (bind_eq _ _ _ _ _ Hc), Hop.
    cbn [negb in_REIL_INSN]. apply try_except_return.
    unfold Cpu.insn_ldm. unfold bind at 1. unfold lift.
    cbn [Cpu.get_val_of].
    assert (Hl : Cpu.on_mem (Mem.load (get_val a) (arg_size (insn_c insn))) c1
                 = (Cpu.set_mem m1 c1, Return v)).
    { unfold Cpu.on_mem. rewrite Hm1, Hload. reflexivity. }
    rewrite (bind_eq _ _ _ _ _ Hl). rewrite Hname. cbn [Cpu.reg_of].
    rewrite (bind_eq _ _ _ _ _ (Hr1 m1)).
    unfold bind, Cpu.set_val, ret. reflexivity.
  - unfold reg_at. cbn [Cpu.regs Cpu.set_regs Cpu.set_mem].
    rewrite (Hwf1 _ _ Hl1), lookup_insert_eq. reflexivity.
  - reflexivity.
Qed.

(** Store and load through the cpu: after an I_STM of a constant that
    returned, an I_LDM of the same width from the same address leaves
    the value of the constant in its destination register and the bytes
    of the memory as they are. *)
Theorem stm_ldm_roundtrip (c c1 : Cpu.t) (W Wa : Width) (v addr x : Z)
    (n : string) (ad1 i1 ad2 i2 : Z) (nx1 nx2 : Z * Z) :
  regs_named c ->
  Cpu.execute (mkInsn ad1 i1 I_STM (Const W v) no_arg (Const Wa addr) nx1) c
  = (c1, Return None) ->
  exists c2,
    Cpu.execute
      (mkInsn ad2 i2 I_LDM (Const Wa addr) no_arg
         (mkArg A_REG W (Some n) x) nx2) c1
    = (c2, Return None) /\
    reg_at c2 (Cpu.canonical n false) = Some (get_val (Const W v)) /\
    Cpu.mem c2 = Cpu.mem c1.
Proof.
  intros Hwf Hstm.
  destruct (execute_stm_inv
              (mkInsn ad1 i1 I_STM (Const W v) no_arg (Const Wa addr) nx1)
              c c1 (Const W v) (Const Wa addr) None None
              eq_refl eq_refl eq_refl eq_refl Hstm) as (m1 & Hst & -> & _).
  cbn [insn_a arg_size Const] in Hst.
  destruct (store_ok_inv _ _ _ _ _ Hst) as (s & Hp & Hh).
  pose proof (load_stored m1 _ _ W s Hp Hh) as Hload.
  apply (execute_ldm_loaded
           (mkInsn ad2 i2 I_LDM (Const Wa addr) no_arg
              (mkArg A_REG W (Some n) x) nx2)
           (Cpu.set_mem m1 c) (Const Wa addr) None n m1);
    try reflexivity.
  - intros k r Hk. apply (Hwf k r Hk).
  - exact Hload.
Qed.

Lemma stm_ldm_roundtrip_witness :
  exists c1 c2,
    Cpu.execute
      (mkInsn 0x1000 0 I_STM (Const U32 0xDEADBEEF) no_arg (Const U32 0x8000)
         (0x1000, 1))
      (Cpu.set_mem (Mem.init None false) (Cpu.init ARCH_X86))
    = (c1, Return None) /\
    Cpu.execute
      (mkInsn 0x1000 1 I_LDM (Const U32 0x8000) no_arg
         (mkArg A_REG U32 (Some "eax") 0) (0x1000, 2)) c1
    = (c2, Return None) /\
    reg_at c2 "R_EAX" = Some 0xDEADBEEF.
Proof.
  assert (Hstm : Cpu.execute
      (mkInsn 0x1000 0 I_STM (Const U32 0xDEADBEEF) no_arg (Const U32 0x8000)
         (0x1000, 1))
      (Cpu.set_mem (Mem.init None false) (Cpu.init ARCH_X86))
    = (fst (Cpu.execute
              (mkInsn 0x1000 0 I_STM (Const U32 0xDEADBEEF) no_arg
                 (Const U32 0x8000) (0x1000, 1))
              (Cpu.set_mem (Mem.init None false) (Cpu.init ARCH_X86))),
       Return None)).
  { etransitivity; [apply surjective_pairing |].
    apply f_equal. vm_compute. reflexivity. }
  assert (Hwf : regs_named
                  (Cpu.set_mem (Mem.init None false) (Cpu.init ARCH_X86))).
  { intros k r Hk. cbn in Hk. rewrite lookup_empty in Hk. discriminate. }
  destruct (stm_ldm_roundtrip _ _ U32 U32 _ _ 0 "eax" _ _ 0x1000 1
              _ (0x1000, 2) Hwf Hstm) as (c2 & H1 & H2 & _).
  eexists. exists c2. split; [exact Hstm |]. split; [exact H1 | exact H2].
Defined.

(** ** Cpu: the run loop *)

Lemma set_ip_spec (v : Z) (c : Cpu.t) :
  exists c',
    Cpu.set_ip v c = (c', Return tt) /\
    Cpu.mem c' = Cpu.mem c /\
    (regs_named c -> Cpu.ip_val c' = Some v).
Proof.
  exists (fst (Cpu.set_ip v c)). split; [| split].
  - unfold Cpu.set_ip, bind, Cpu.reg, Cpu.set_val.
    destruct (Cpu.regs c !! Cpu.canonical (Registers_ip (Cpu.arch c)) false);
      reflexivity.
  - unfold Cpu.set_ip, bind, Cpu.reg, Cpu.set_val.
    destruct (Cpu.regs c !! Cpu.canonical (Registers_ip (Cpu.arch c)) false);
      reflexivity.
  - apply ip_val_set_ip.
Qed.

(** A run that starts at an address the storage has no instructions for
    stops in the first pass with CpuReadError at that address: the
    instruction pointer holds the address, the bytes of the memory are
    untouched, and the reader of the storage is attached. *)
Theorem run_unknown_address (fuel : nat) (storage : Storage) (addr : Z)
    (c : Cpu.t) :
  get_insn storage addr = None ->
  regs_named c ->
  exists c',
    Cpu.run (S fuel) storage addr c = (c', Raise (CpuReadError addr 0)) /\
    Cpu.ip_val c' = Some addr /\
    Mem.data (Cpu.mem c') = Mem.data (Cpu.mem c) /\
    Mem.reader (Cpu.mem c') = storage_reader storage.
Proof.
  intros Hget Hwf.
  set (c0 := Cpu.set_mem (Mem.set_reader (storage_reader storage) (Cpu.mem c)) c).
  destruct (set_ip_spec addr c0) as (c1 & Hip & Hm & Hval).
  exists c1. split; [| split; [| split]].
  - unfold Cpu.run. unfold bind at 1. cbn [Cpu.set_storage]. fold c0.
    rewrite (bind_eq _ _ _ _ _ Hip).
    cbn [Cpu.run_loop]. unfold bind, Cpu.run_pass. rewrite Hget. reflexivity.
  - apply Hval. intros k r Hk. apply (Hwf k r Hk).
  - rewrite Hm. reflexivity.
  - rewrite Hm. reflexivity.
Qed.

Lemma run_unknown_address_witness :
  exists c',
    Cpu.run 1 (jump_storage 0x2000 None) 0x3000 (Cpu.init ARCH_X86)
    = (c', Raise (CpuReadError 0x3000 0)) /\
    Cpu.ip_val c' = Some 0x3000.
Proof.
  destruct (run_unknown_address 0 (jump_storage 0x2000 None) 0x3000
              (Cpu.init ARCH_X86)) as (c' & H1 & H2 & _).
  - reflexivity.
  - intros k r Hk. cbn in Hk. rewrite lookup_empty in Hk. discriminate.
  - exists c'. split; [exact H1 | exact H2].
Defined.

(** ** Abi: reset *)

Lemma reset_loop_names (v0 : Z) (names : list string) :
  forall c,
    exists c',
      Cpu.reset_loop ((fun n => (n, v0)) <$> names) c = (c', Return tt) /\
      Cpu.mem c' = Cpu.mem c /\
      (forall k r, Cpu.regs c !! k = Some r -> Cpu.regs c' !! k = Some r) /\
      (forall n, n ∈ names ->
         exists r, Cpu.regs c' !! Cpu.canonical n false = Some r /\
                   (Cpu.regs c !! Cpu.canonical n false = None ->
                    r = mkReg (Cpu.canonical n false) v0 false)).
Proof.
  induction names as [| n rest IH]; intros c.
  - exists c. repeat split; auto. intros n Hn. inversion Hn.
  - destruct (reg_spec n v0 false c)
      as (c1 & r1 & Hr & Hl1 & Hm1 & _ & Hk1 & Hfr1 & Hnew1).
    destruct (IH c1) as (c' & Hloop & Hm & Hk & Hnames).
    exists c'. split; [| split; [| split]].
    + cbn [fmap list_fmap Cpu.reset_loop].
      rewrite (bind_eq _ _ _ _ _ Hr). exact Hloop.
    + congruence.
    + auto.
    + intros n' Hn'. apply elem_of_cons in Hn'.
      destruct Hn' as [-> | Hin].
      * exists r1. split; [apply Hk, Hl1 | exact Hnew1].
      * destruct (Hnames n' Hin) as (r & Hr' & Hnew).
        exists r. split; [exact Hr' |]. intros Hnone.
        destruct (decide (Cpu.canonical n' false = Cpu.canonical n false))
          as [Heq | Hne].
        -- rewrite Heq in *. rewrite (Hk _ _ Hl1) in Hr'.
           injection Hr' as <-. apply Hnew1, Hnone.
        -- apply Hnew. rewrite Hfr1 by exact Hne. exact Hnone.
Qed.

(** [Abi.reset] drops all bytes of the memory and keeps its allocation
    cursor; it creates the general and flag registers that are missing
    with the value 0, and leaves every register that exists as it is:
    an existing register is not set to zero. *)
Theorem abi_reset_keeps_registers (c : Cpu.t) :
  exists c',
    Abi.reset c = (c', Return tt) /\
    Mem.data (Cpu.mem c') = ∅ /\
    Mem.alloc_last (Cpu.mem c') = Mem.alloc_last (Cpu.mem c) /\
    (forall k r, Cpu.regs c !! k = Some r -> Cpu.regs c' !! k = Some r) /\
    (forall n,
       n ∈ Registers_general (Cpu.arch c) ++ Registers_flags (Cpu.arch c) ->
       exists r, Cpu.regs c' !! Cpu.canonical n false = Some r /\
                 (Cpu.regs c !! Cpu.canonical n false = None ->
                  reg_val r = 0 /\ is_temp r = false)).
Proof.
  set (c0 := Cpu.set_mem (Mem.set_data ∅ (Cpu.mem c)) c).
  destruct (reset_loop_names 0
              (remove_dups (Registers_general (Cpu.arch c)
                            ++ Registers_flags (Cpu.arch c))) c0)
    as (c' & Hloop & Hm & Hk & Hnames).
  exists c'. split; [| split; [| split; [| split]]].
  - unfold Abi.reset. unfold bind at 1.
    unfold Cpu.on_mem, Mem.clear. fold c0.
    unfold Cpu.reset, Abi.initial_regs.
    rewrite (bind_eq _ _ _ _ _ Hloop). reflexivity.
  - rewrite Hm. reflexivity.
  - rewrite Hm. reflexivity.
  - intros k r Hr. apply Hk. exact Hr.
  - intros n Hn. destruct (Hnames n) as (r & Hr & Hnew).
    { apply elem_of_remove_dups. exact Hn. }
    exists r. split; [exact Hr |]. intros Hnone.
    rewrite (Hnew Hnone). split; reflexivity.
Qed.

(** ** Abi: buffers and strings *)

Lemma set_mem_eta (c : Cpu.t) : Cpu.set_mem (Cpu.mem c) c = c.
Proof. destruct c. reflexivity. Qed.

Lemma str_times_single (b : byte) (n : Z) :
  Abi.str_times [b] n = replicate (Z.to_nat n) b.
Proof.
  unfold Abi.str_times. induction (Z.to_nat n) as [| k IH]; [reflexivity |].
  simpl. rewrite IH. reflexivity.
Qed.

(** What [buff] allocates when no address is given. *)
Lemma buff_anonymous (c : Cpu.t) (size : Z) (data : bytes + Z)
    (fill : option bytes) (d : option bytes) :
  0 < ptr_len (Cpu.arch c) ->
  (size, d) = match data with
              | inl s => (len s, Some s)
              | inr n => (n, (fun f => Abi.str_times f n) <$> fill)
              end ->
  let base := Mem.alloc_last (Cpu.mem c) in
  let total := size + (ptr_len (Cpu.arch c) - size mod ptr_len (Cpu.arch c)) in
  exists c',
    Abi.buff data None fill c = (c', Return base) /\
    size < total <= size + ptr_len (Cpu.arch c) /\
    Mem.alloc_last (Cpu.mem c') = base + total /\
    Cpu.regs c' = Cpu.regs c /\
    (forall (i : nat) s b, Z.of_nat i < total -> d = Some s -> s !! i = Some b ->
       Mem.data (Cpu.mem c') !! (base + Z.of_nat i) = Some b) /\
    (forall i, 0 <= i < total -> (forall s, d = Some s -> len s <= i) ->
       Mem.data (Cpu.mem c') !! (base + i) = Some x00) /\
    (forall a, ~ (base <= a < base + total) ->
       Mem.data (Cpu.mem c') !! a = Mem.data (Cpu.mem c) !! a).
Proof.
  intros Hp Hd base total.
  assert (Hne : (ptr_len (Cpu.arch c) =? 0) = false) by (apply Z.eqb_neq; lia).
  destruct (alloc_anonymous_spec (Cpu.mem c) total d)
    as (m' & Ha & Hl & Hin & Hz & Hout).
  exists (Cpu.set_mem m' c).
  pose proof (Z.mod_pos_bound size (ptr_len (Cpu.arch c)) Hp) as Hb.
  split; [| split; [| split; [| split; [| split; [| split]]]]].
  - unfold Abi.buff. rewrite <- Hd. unfold bind, lift, Abi.align.
    rewrite Hne. unfold Cpu.on_mem. fold total. rewrite Ha. reflexivity.
  - subst total. lia.
  - exact Hl.
  - reflexivity.
  - exact Hin.
  - exact Hz.
  - exact Hout.
Qed.

(** [buff(n, fill = b)] with a fill of one byte: the buffer starts at
    the allocation cursor, its first [n] bytes are [b], and the bytes
    that alignment adds after them, at least one and at most one pointer
    width, are zero. *)
Theorem buff_fill (c : Cpu.t) (n : Z) (b : byte) :
  0 < ptr_len (Cpu.arch c) ->
  0 <= n ->
  let base := Mem.alloc_last (Cpu.mem c) in
  let total := n + (ptr_len (Cpu.arch c) - n mod ptr_len (Cpu.arch c)) in
  exists c',
    Abi.buff (inr n) None (Some [b]) c = (c', Return base) /\
    n < total <= n + ptr_len (Cpu.arch c) /\
    (forall i, 0 <= i < n ->
       Mem.data (Cpu.mem c') !! (base + i) = Some b) /\
    (forall i, n <= i < total ->
       Mem.data (Cpu.mem c') !! (base + i) = Some x00) /\
    Mem.alloc_last (Cpu.mem c') = base + total.
Proof.
  intros Hp Hn base total.
  destruct (buff_anonymous c n (inr n) (Some [b])
              (Some (Abi.str_times [b] n)) Hp eq_refl)
    as (c' & Hbuff & Htot & Hl & _ & Hin & Hz & _).
  fold base total in Hbuff, Htot, Hl, Hin, Hz.
  exists c'. split; [exact Hbuff |]. split; [exact Htot |].
  split; [| split; [| exact Hl]].
  - intros i Hi.
    specialize (Hin (Z.to_nat i) (Abi.str_times [b] n) b).
    rewrite Z2Nat.id in Hin by lia. apply Hin; [lia | reflexivity |].
    rewrite str_times_single. apply lookup_replicate_2. lia.
  - intros i Hi. apply Hz; [lia |].
    intros s Hs. injection Hs as <-.
    unfold len. rewrite str_times_single, length_replicate. lia.
Qed.

Lemma buff_fill_witness :
  exists c',
    Abi.buff (inr 6) None (Some [x41]) (Cpu.init ARCH_X86)
    = (c', Return Mem.DEF_ALLOC_BASE) /\
    Mem.data (Cpu.mem c') !! (Mem.DEF_ALLOC_BASE + 5) = Some x41 /\
    Mem.data (Cpu.mem c') !! (Mem.DEF_ALLOC_BASE + 7) = Some x00 /\
    Mem.alloc_last (Cpu.mem c') = Mem.DEF_ALLOC_BASE + 8.
Proof.
  destruct (buff_fill (Cpu.init ARCH_X86) 6 x41)
    as (c' & H1 & _ & H2 & H3 & H4); [simpl; lia | lia |].
  exists c'. split; [exact H1 |].
  split; [apply (H2 5); lia |].
  split; [| exact H4].
  apply (H3 7). vm_compute. split; [discriminate | reflexivity].
Defined.

(** [string(s)] returns an address from which the memory holds [s]
    followed by its four zero bytes and at least one more zero byte of
    alignment; reading it back through [read] gives the string and its
    terminator. *)
Theorem string_read_back (c : Cpu.t) (s : bytes) :
  0 < ptr_len (Cpu.arch c) ->
  let base := Mem.alloc_last (Cpu.mem c) in
  exists c',
    Abi.string s c = (c', Return base) /\
    Abi.read base (len s + 4) c' = (c', Return (s ++ [x00; x00; x00; x00])) /\
    Mem.data (Cpu.mem c') !! (base + len s + 4) = Some x00 /\
    len s + 4 < Mem.alloc_last (Cpu.mem c') - base.
Proof.
  intros Hp base.
  set (d := s ++ [x00; x00; x00; x00]).
  destruct (buff_anonymous c (len d) (inl d) None (Some d) Hp eq_refl)
    as (c' & Hbuff & Htot & Hl & _ & Hin & Hz & _).
  fold base in Hbuff, Hl, Hin, Hz.
  assert (Hlen : len d = len s + 4).
  { unfold len, d. rewrite length_app. simpl. lia. }
  assert (H0 : 0 <= len d) by (unfold len; lia).
  exists c'. split; [exact Hbuff |]. split; [| split].
  - unfold Abi.read, Cpu.on_mem. rewrite <- Hlen.
    rewrite (read_defined (Cpu.mem c') base d).
    + rewrite set_mem_eta. reflexivity.
    + intros i b Hi. apply (Hin i d b); [| reflexivity | exact Hi].
      apply lookup_lt_Some in Hi. unfold len in *. lia.
  - replace (base + len s + 4) with (base + len d) by lia.
    apply Hz; [lia |]. intros s0 Hs0. injection Hs0 as <-. lia.
  - rewrite Hl. lia.
Qed.

Lemma string_read_back_witness :
  exists c',
    Abi.string [x68; x69] (Cpu.init ARCH_X86) = (c', Return Mem.DEF_ALLOC_BASE) /\
    Abi.read Mem.DEF_ALLOC_BASE 6 c'
    = (c', Return [x68; x69; x00; x00; x00; x00]).
Proof.
  destruct (string_read_back (Cpu.init ARCH_X86) [x68; x69])
    as (c' & H1 & H2 & _); [simpl; lia |].
  exists c'. split; [exact H1 | exact H2].
Defined.

(** ** Abi: the stack a call prepares *)

Lemma map_size_length (p : Z) (W : Width) :
  Mem.map_size p = Return W -> Mem.map_length W = Return p /\ 0 < p.
Proof.
  unfold Mem.map_size. intros HW.
  repeat match type of HW with
         | (if ?c then _ else _) = _ =>
             destruct c eqn:?; [injection HW as <- |]
         end; try discriminate;
    match goal with E : (_ =? _) = true |- _ =>
      apply Z.eqb_eq in E; rewrite E end; split; (reflexivity || lia).
Qed.

Lemma holds_frame (d d' : gmap Z byte) (a : Z) (bs : bytes) :
  holds d a bs ->
  (forall x, a <= x < a + len bs -> d' !! x = d !! x) ->
  holds d' a bs.
Proof.
  intros H Hfr i b Hi. rewrite Hfr; [apply H, Hi |].
  apply lookup_lt_Some in Hi. unfold len. lia.
Qed.

(** A push onto defined bytes. *)
Lemma push_defined (m : Mem.t) (s : Stack.t) (v : Z) (W : Width) :
  Mem.map_size (Stack.item_size s) = Return W ->
  0 <= v < 2 ^ (8 * Stack.item_size s) ->
  (forall a, Stack.top s - Stack.item_size s <= a < Stack.top s ->
             is_Some (Mem.data m !! a)) ->
  exists m' bs,
    Stack.push v s m
    = (m', Return (Stack.mk (Stack.size s) (Stack.addr s)
                     (Stack.top s - Stack.item_size s) (Stack.bottom s)
                     (Stack.item_size s))) /\
    Mem.pack W v = Return bs /\
    len bs = Stack.item_size s /\
    holds (Mem.data m') (Stack.top s - Stack.item_size s) bs /\
    (forall a, ~ (Stack.top s - Stack.item_size s <= a < Stack.top s) ->
               Mem.data m' !! a = Mem.data m !! a) /\
    (forall a, is_Some (Mem.data m !! a) -> is_Some (Mem.data m' !! a)).
Proof.
  intros HW Hv Hdef.
  destruct (map_size_length _ _ HW) as [Hn Hpos].
  destruct (pack_in_range W v _ Hn Hv) as (bs & Hp & Hlen).
  set (a0 := Stack.top s - Stack.item_size s) in *.
  destruct (Mem._write a0 (len bs) bs m) as [m1 r] eqn:Hw.
  pose proof Hw as Hspec. apply _write_spec in Hspec.
  destruct Hspec as (_ & k & Hk & Hin & Hout & Hend).
  unfold len in Hk, Hend. rewrite Nat2Z.id in Hk, Hend.
  assert (Hlen' : Z.of_nat (length bs) = Stack.item_size s) by exact Hlen.
  destruct Hend as [[-> ->] | [(Hlt & Hnone & _) | (Hlt & _ & Hnone & _)]].
  2:{ destruct (Hdef (a0 + Z.of_nat k)) as [b Hb]; [subst a0; lia | congruence]. }
  2:{ apply lookup_ge_None in Hnone. lia. }
  assert (Hholds : holds (Mem.data m1) a0 bs).
  { intros i b Hi.
    destruct (Hin i (lookup_lt_Some _ _ _ Hi)) as (_ & _ & H3).
    rewrite H3. exact Hi. }
  assert (Hfr : forall a, ~ (a0 <= a < Stack.top s) ->
                          Mem.data m1 !! a = Mem.data m !! a).
  { intros a Ha. apply Hout. subst a0. lia. }
  exists m1, bs. split; [| split; [| split; [| split; [| split]]]]; auto.
  - unfold Stack.push, bind, lift. rewrite HW.
    unfold Mem.store, bind, lift. rewrite Hn, Hp. fold a0.
    rewrite <- Hlen. unfold Mem.write, try_except. rewrite Hw. reflexivity.
  - intros a Ha.
    destruct (decide (a0 <= a < Stack.top s)) as [Hr | Hr].
    + destruct (Hin (Z.to_nat (a - a0)) ltac:(subst a0; lia))
        as (_ & Hs & H3).
      replace (a0 + Z.of_nat (Z.to_nat (a - a0))) with a in H3 by lia.
      rewrite H3. exact Hs.
    + rewrite (Hfr a Hr). exact Ha.
Qed.

(** The loop of [pushargs] over integers: the [j]-th value pushed ends
    [j + 1] items below the old top. *)
Lemma pushargs_loop_ints (W : Width) (l : list Z) :
  forall (s : Stack.t) (c : Cpu.t),
    Mem.map_size (Stack.item_size s) = Return W ->
    Forall (fun v => 0 <= v < 2 ^ (8 * Stack.item_size s)) l ->
    (forall a, Stack.top s - Stack.item_size s * len l <= a < Stack.top s ->
               is_Some (Mem.data (Cpu.mem c) !! a)) ->
    exists c',
      Abi.pushargs_loop (inr <$> l) s c
      = (c', Return (Stack.mk (Stack.size s) (Stack.addr s)
                       (Stack.top s - Stack.item_size s * len l)
                       (Stack.bottom s) (Stack.item_size s))) /\
      Cpu.regs c' = Cpu.regs c /\
      Cpu.arch c' = Cpu.arch c /\
      (forall a, ~ (Stack.top s - Stack.item_size s * len l <= a < Stack.top s) ->
                 Mem.data (Cpu.mem c') !! a = Mem.data (Cpu.mem c) !! a) /\
      (forall a, is_Some (Mem.data (Cpu.mem c) !! a) ->
                 is_Some (Mem.data (Cpu.mem c') !! a)) /\
      (forall (j : nat) v, l !! j = Some v ->
         exists bs, Mem.pack W v = Return bs /\
                    holds (Mem.data (Cpu.mem c'))
                      (Stack.top s - Stack.item_size s * (Z.of_nat j + 1)) bs).
Proof.
  induction l as [| v rest IH]; intros s c HW Hall Hdef.
  - exists c. cbn [fmap list_fmap Abi.pushargs_loop]. unfold ret, len.
    cbn [length]. rewrite Z.mul_0_r, Z.sub_0_r.
    destruct s. repeat split; auto. intros j v Hj. discriminate.
  - destruct (map_size_length _ _ HW) as [Hn Hpos].
    apply Forall_cons in Hall. destruct Hall as [Hv Hrest].
    assert (Hlen : len (v :: rest) = len rest + 1)
      by (unfold len; cbn [length]; lia).
    assert (Hlr : 0 <= len rest) by (unfold len; lia).
    rewrite Hlen in *.
    destruct (push_defined (Cpu.mem c) s v W HW Hv)
      as (m1 & bs & Hpush & Hp & Hbl & Hh & Hfr & Hd1).
    { intros a Ha. apply Hdef. nia. }
    set (s1 := Stack.mk (Stack.size s) (Stack.addr s)
                 (Stack.top s - Stack.item_size s) (Stack.bottom s)
                 (Stack.item_size s)) in *.
    destruct (IH s1 (Cpu.set_mem m1 c) HW Hrest)
      as (c' & Hloop & Hregs & Harch & Hfr' & Hd' & Hst).
    { intros a Ha. cbn [Cpu.mem Cpu.set_mem]. apply Hd1, Hdef.
      subst s1. cbn [Stack.top Stack.item_size] in Ha. nia. }
    subst s1. cbn [Stack.top Stack.item_size Stack.size Stack.addr
                   Stack.bottom Cpu.mem Cpu.set_mem Cpu.regs Cpu.arch] in *.
    exists c'. split; [| split; [| split; [| split; [| split]]]]; auto.
    + cbn [fmap list_fmap Abi.pushargs_loop]. unfold bind at 1, ret.
      assert (Hon : Cpu.on_mem (Stack.push v s) c
                    = (Cpu.set_mem m1 c,
                       Return (Stack.mk (Stack.size s) (Stack.addr s)
                                 (Stack.top s - Stack.item_size s)
                                 (Stack.bottom s) (Stack.item_size s))))
        by (unfold Cpu.on_mem; rewrite Hpush; reflexivity).
      rewrite (bind_eq _ _ _ _ _ Hon), Hloop.
      match goal with
      | |- (_, Return (Stack.mk _ _ ?x _ _)) = (_, Return (Stack.mk _ _ ?y _ _)) =>
          replace x with y by lia
      end.
      reflexivity.
    + intros a Ha. rewrite Hfr' by nia. apply Hfr. nia.
    + intros j x Hj. destruct j as [| j].
      * injection Hj as <-. exists bs. split; [exact Hp |].
        replace (Stack.top s - Stack.item_size s * (Z.of_nat 0 + 1))
          with (Stack.top s - Stack.item_size s) by lia.
        apply (holds_frame _ _ _ _ Hh). intros y Hy. apply Hfr'. nia.
      * destruct (Hst j x Hj) as (bs' & Hp' & Hh').
        exists bs'. split; [exact Hp' |].
        replace (Stack.top s - Stack.item_size s * (Z.of_nat (S j) + 1))
          with (Stack.top s - Stack.item_size s
                - Stack.item_size s * (Z.of_nat j + 1)) by lia.
        exact Hh'.
Qed.

Lemma rev_is_reverse {A} (l : list A) : rev l = reverse l.
Proof. unfold reverse. apply rev_alt. Qed.

Lemma assign_named (k : string) (v : Z) (c : Cpu.t) :
  regs_named c -> regs_named (assign k v c).
Proof.
  intros Hwf k' r. unfold assign. cbn [Cpu.regs Cpu.set_regs].
  destruct (decide (k = k')) as [<- | Hne].
  - rewrite lookup_insert_eq. intros [= <-]. reflexivity.
  - rewrite lookup_insert_ne by exact Hne. apply Hwf.
Qed.

Lemma assign_lookup (k : string) (v : Z) (c : Cpu.t) :
  Cpu.regs (assign k v c) !! k
  = Some (mkReg k v (from_option is_temp false (Cpu.regs c !! k))).
Proof. unfold assign. cbn [Cpu.regs Cpu.set_regs]. apply lookup_insert_eq. Qed.

Lemma assign_lookup_ne (k k' : string) (v : Z) (c : Cpu.t) :
  k <> k' -> Cpu.regs (assign k v c) !! k' = Cpu.regs c !! k'.
Proof.
  intros H. unfold assign. cbn [Cpu.regs Cpu.set_regs].
  apply lookup_insert_ne, H.
Qed.

(** The assignment [self.reg(name).val = v], followed by [k]. *)
Lemma assign_then {A} (n : string) (v : Z) (k : ST Cpu.t A) (c : Cpu.t) :
  regs_named c ->
  (r <- Cpu.reg n Cpu.DEF_REG_VAL false;; Cpu.set_val r v;;; k)%st c
  = k (assign (Cpu.canonical n false) v c).
Proof.
  intros Hwf. unfold bind at 1. unfold Cpu.reg. cbv zeta. unfold assign.
  destruct (Cpu.regs c !! Cpu.canonical n false) as [r |] eqn:E.
  - unfold bind, Cpu.set_val. rewrite (Hwf _ _ E). reflexivity.
  - unfold bind, Cpu.set_val.
    cbn [reg_name is_temp Cpu.regs Cpu.mem Cpu.arch Cpu.set_regs from_option].
    rewrite insert_insert_eq. reflexivity.
Qed.

Lemma abi_reg_assign (n : string) (v : Z) (c : Cpu.t) :
  regs_named c ->
  Abi.reg n (Some v) c = (assign (Cpu.canonical n false) v c, Return None).
Proof.
  intros Hwf. unfold Abi.reg.
  rewrite (assign_then n v (ret None) c Hwf). reflexivity.
Qed.

Lemma set_ip_assign (v : Z) (c : Cpu.t) :
  regs_named c ->
  Cpu.set_ip v c
  = (assign (Cpu.canonical (Registers_ip (Cpu.arch c)) false) v c, Return tt).
Proof.
  intros Hwf. unfold Cpu.set_ip.
  transitivity
    ((r <- Cpu.reg (Registers_ip (Cpu.arch c)) Cpu.DEF_REG_VAL false;;
      Cpu.set_val r v;;; ret tt)%st c).
  - unfold bind, ret.
    destruct (Cpu.reg (Registers_ip (Cpu.arch c)) Cpu.DEF_REG_VAL false c)
      as [c1 [r |]]; reflexivity.
  - rewrite (assign_then _ v (ret tt) c Hwf). reflexivity.
Qed.

(** A register operand whose register exists resolves to its value and
    changes nothing. *)
Lemma arg_reg_present (a : Arg) (n : string) (r : Reg) (c : Cpu.t) :
  arg_type a = A_REG -> arg_name a = Some n ->
  Cpu.regs c !! Cpu.canonical n false = Some r ->
  Cpu.arg a c = (c, Return (Some (Const (arg_size a) (reg_val r)))).
Proof.
  intros Ht Hn Hl. unfold Cpu.arg. rewrite Ht, Hn. cbn [Cpu.reg_of].
  unfold bind, Cpu.reg. cbv zeta. rewrite Hl. reflexivity.
Qed.

(** The destination operand resolves, creating its register when it is
    missing; an assignment to the register afterwards gives the same
    cpu as one before. *)
Lemma arg_dest (a : Arg) (n : string) (c : Cpu.t) :
  arg_type a = A_REG -> arg_name a = Some n -> regs_named c ->
  exists c1 x,
    Cpu.arg a c = (c1, Return (Some x)) /\
    regs_named c1 /\
    Cpu.mem c1 = Cpu.mem c /\
    (forall v, assign (Cpu.canonical n false) v c1
               = assign (Cpu.canonical n false) v c).
Proof.
  intros Ht Hn Hwf.
  destruct (Cpu.regs c !! Cpu.canonical n false) as [r |] eqn:E.
  - exists c, (Const (arg_size a) (reg_val r)).
    split; [apply (arg_reg_present a n r c Ht Hn E) |].
    split; [exact Hwf |]. split; reflexivity.
  - eexists _, _. split; [| split; [| split]].
    + unfold Cpu.arg. rewrite Ht, Hn. cbn [Cpu.reg_of].
      unfold bind, Cpu.reg. cbv zeta. rewrite E. reflexivity.
    + intros k r. cbn [Cpu.regs Cpu.set_regs].
      destruct (decide (Cpu.canonical n false = k)) as [<- | Hne].
      * rewrite lookup_insert_eq. intros [= <-]. reflexivity.
      * rewrite lookup_insert_ne by exact Hne. apply Hwf.
    + reflexivity.
    + intros v. unfold assign.
      cbn [Cpu.regs Cpu.mem Cpu.arch Cpu.set_regs].
      rewrite lookup_insert_eq, insert_insert_eq, E. reflexivity.
Qed.

(** An opcode that [Math.eval] knows, with a register as destination. *)
Lemma execute_other_assign (insn : Insn) (c : Cpu.t) (va vb : option Arg)
    (v : Z) (n : string) :
  Cpu.arg (insn_a insn) c = (c, Return va) ->
  Cpu.arg (insn_b insn) c = (c, Return vb) ->
  Math.eval (insn_op insn) va vb = Return v ->
  arg_type (insn_c insn) = A_REG ->
  arg_name (insn_c insn) = Some n ->
  regs_named c ->
  Cpu.execute insn c
  = (assign (Cpu.canonical n false)
       (v mod 2 ^ width_bits (arg_size (insn_c insn))) c, Return None).
Proof.
  intros Ha Hb Hev Hty Hname Hwf.
  destruct (eval_returns_op _ _ _ _ Hev) as [Hop Hdisp].
  destruct (arg_dest _ n c Hty Hname Hwf) as (c1 & x & Hc & Hwf1 & _ & Has).
  unfold Cpu.execute.
  rewrite (bind_eq _ _ _ _ _ Ha), (bind_eq _ _ _ _ _ Hb),
    (bind_eq _ _ _ _ _ Hc), Hop.
  cbn [negb]. rewrite Hdisp.
  rewrite (try_except_handled _ _ _ c1 c1 KeyError);
    [| reflexivity | reflexivity].
  unfold Cpu.insn_other, Cpu.evaluate. rewrite Hev. cbn [result_bind].
  unfold bind at 1. unfold lift. rewrite Hname. cbn [Cpu.reg_of].
  rewrite (assign_then n _ _ c1 Hwf1), Has, get_val_Const. reflexivity.
Qed.

(** I_LDM from defined memory into a register. *)
Lemma execute_ldm_assign (insn : Insn) (c : Cpu.t) (a : Arg)
    (vb : option Arg) (n : string) (v : Z) :
  insn_op insn = I_LDM ->
  Cpu.arg (insn_a insn) c = (c, Return (Some a)) ->
  Cpu.arg (insn_b insn) c = (c, Return vb) ->
  arg_type (insn_c insn) = A_REG ->
  arg_name (insn_c insn) = Some n ->
  regs_named c ->
  Mem.load (get_val a) (arg_size (insn_c insn)) (Cpu.mem c)
  = (Cpu.mem c, Return v) ->
  Cpu.execute insn c = (assign (Cpu.canonical n false) v c, Return None).
Proof.
  intros Hop Ha Hb Hty Hname Hwf Hload.
  destruct (arg_dest _ n c Hty Hname Hwf) as (c1 & x & Hc & Hwf1 & Hm1 & Has).
  unfold Cpu.execute.
  rewrite (bind_eq _ _ _ _ _ Ha), (bind_eq _ _ _ _ _ Hb),
    (bind_eq _ _ _ _ _ Hc), Hop.
  cbn [negb in_REIL_INSN].
  assert (Hbody : Cpu.insn_ldm insn (Some a) vb (Some x) c1
                  = (assign (Cpu.canonical n false) v c, Return None)).
  { unfold Cpu.insn_ldm. unfold bind at 1. unfold lift.
    cbn [Cpu.get_val_of].
    assert (Hon : Cpu.on_mem
                    (Mem.load (get_val a) (arg_size (insn_c insn))) c1
                  = (c1, Return v)).
    { unfold Cpu.on_mem. rewrite Hm1, Hload, <- Hm1, set_mem_eta.
      reflexivity. }
    rewrite (bind_eq _ _ _ _ _ Hon), Hname. cbn [Cpu.reg_of].
    rewrite (assign_then n _ _ c1 Hwf1), Has. reflexivity. }
  apply try_except_return. exact Hbody.
Qed.

(** The stack that [call] prepares for integer arguments, as the bytes
    of the memory. *)
Lemma call_prepare_spec (c : Cpu.t) (ns : list Z) (W : Width) (p : Z) :
  ptr_len (Cpu.arch c) = p ->
  Mem.map_size p = Return W ->
  Forall (fun v => 0 <= v < 2 ^ (8 * p)) (Abi.DUMMY_RET_ADDR :: ns) ->
  p * (len ns + 1) <= 0x1000 ->
  regs_named c ->
  exists c',
    Abi.call_prepare (inr <$> ns) c = (c', Return tt) /\
    Cpu.regs c'
    = Cpu.regs (assign (Cpu.canonical (Registers_sp (Cpu.arch c)) false)
                  (Stack.DEF_STACK_BASE + 0x1000 - p * (len ns + 1)) c) /\
    Cpu.arch c' = Cpu.arch c /\
    (exists bs, Mem.pack W Abi.DUMMY_RET_ADDR = Return bs /\
       holds (Mem.data (Cpu.mem c'))
         (Stack.DEF_STACK_BASE + 0x1000 - p * (len ns + 1)) bs) /\
    (forall (i : nat) v, ns !! i = Some v ->
       exists bs, Mem.pack W v = Return bs /\
         holds (Mem.data (Cpu.mem c'))
           (Stack.DEF_STACK_BASE + 0x1000 - p * (len ns + 1)
            + p * (Z.of_nat i + 1)) bs).
Proof.
  intros Hp HW Hall Hroom Hwf.
  set (sp := Stack.DEF_STACK_BASE + 0x1000 - p * (len ns + 1)).
  destruct (map_size_length _ _ HW) as [Hn Hpos].
  apply Forall_cons in Hall. destruct Hall as [Hdummy Hns].
  assert (Hlen0 : 0 <= len ns) by (unfold len; lia).
  (* the new stack *)
  destruct (stack_init_spec (Cpu.mem c) p None)
    as (m0 & s0 & Hinit & Haddr & Hsize & Htop & Hbot & Hisz & Hzero & _).
  change (default 4096 None) with 4096 in *.
  set (c0 := Cpu.set_mem m0 c).
  assert (Hstack : Abi.stack None c = (c0, Return s0)).
  { unfold Abi.stack, Cpu.on_mem. rewrite Hp, Hinit. reflexivity. }
  (* the arguments, last one first *)
  assert (Hlenr : len (reverse ns) = len ns)
    by (unfold len; rewrite length_reverse; reflexivity).
  destruct (pushargs_loop_ints W (reverse ns) s0 c0)
    as (c1 & Hloop & Hregs1 & Harch1 & Hfr1 & Hd1 & Hst1).
  { rewrite Hisz. exact HW. }
  { rewrite Hisz. apply Forall_reverse. exact Hns. }
  { intros a Ha. rewrite Hisz, Htop, Hlenr in Ha.
    replace a with (Stack.DEF_STACK_BASE + (a - Stack.DEF_STACK_BASE))
      by lia.
    unfold c0. cbn [Cpu.mem Cpu.set_mem].
    rewrite Hzero by nia. eauto. }
  rewrite ?Hisz, ?Htop in Hloop, Hfr1, Hst1.
  rewrite Hlenr in Hloop, Hfr1.
  set (s1 := Stack.mk (Stack.size s0) (Stack.addr s0)
               (Stack.DEF_STACK_BASE + 4096 - p * len ns)
               (Stack.bottom s0) p) in *.
  assert (Hpush : Abi.pushargs (inr <$> ns) c = (c1, Return s1)).
  { unfold Abi.pushargs. rewrite (bind_eq _ _ _ _ _ Hstack).
    rewrite rev_is_reverse, <- fmap_reverse. exact Hloop. }
  (* the sentinel *)
  destruct (push_defined (Cpu.mem c1) s1 Abi.DUMMY_RET_ADDR W)
    as (m2 & bs & Hp2 & Hpk & Hbl & Hh2 & Hfr2 & _).
  { exact HW. }
  { exact Hdummy. }
  { intros a Ha. cbn [Stack.top Stack.item_size s1] in Ha.
    apply Hd1. unfold c0. cbn [Cpu.mem Cpu.set_mem].
    replace a with (Stack.DEF_STACK_BASE + (a - Stack.DEF_STACK_BASE))
      by lia.
    rewrite Hzero by nia. eauto. }
  cbn [Stack.top Stack.item_size Stack.size Stack.addr Stack.bottom s1]
    in Hp2, Hh2, Hfr2.
  replace (Stack.DEF_STACK_BASE + 4096 - p * len ns - p) with sp
    in Hp2, Hh2, Hfr2 by (subst sp; lia).
  set (c2 := Cpu.set_mem m2 c1).
  assert (Hregs2 : Cpu.regs c2 = Cpu.regs c) by exact Hregs1.
  assert (Harch2 : Cpu.arch c2 = Cpu.arch c) by exact Harch1.
  assert (Hwf2 : regs_named c2).
  { intros k r Hk. rewrite Hregs2 in Hk. apply (Hwf k r Hk). }
  eexists. split; [| split; [| split; [| split]]].
  - unfold Abi.call_prepare. rewrite (bind_eq _ _ _ _ _ Hpush).
    assert (Hon : Cpu.on_mem (Stack.push Abi.DUMMY_RET_ADDR s1) c1
                  = (c2, Return (Stack.mk (Stack.size s0) (Stack.addr s0) sp
                                   (Stack.bottom s0) p)))
      by (unfold Cpu.on_mem; rewrite Hp2; reflexivity).
    rewrite (bind_eq _ _ _ _ _ Hon). cbn [Stack.top].
    rewrite (bind_eq _ _ _ _ _ (abi_reg_assign _ sp c2 Hwf2)).
    reflexivity.
  - unfold assign. cbn [Cpu.regs Cpu.set_regs].
    rewrite Hregs2. reflexivity.
  - exact Harch2.
  - exists bs. split; [exact Hpk | exact Hh2].
  - intros i v Hi.
    pose proof (lookup_lt_Some _ _ _ Hi) as Hlt.
    destruct (Hst1 (length ns - S i)%nat v) as (bs' & Hpk' & Hh').
    { rewrite reverse_lookup by lia.
      replace (length ns - S (length ns - S i))%nat with i by lia. exact Hi. }
    destruct (pack_le_bytes W v bs' Hpk') as (n0 & Hn0 & _ & _ & _ & _ & Hbl').
    rewrite Hn in Hn0. injection Hn0 as <-.
    exists bs'. split; [exact Hpk' |].
    assert (Hpos' : Stack.DEF_STACK_BASE + 4096
                    - p * (Z.of_nat (length ns - S i) + 1)
                    = sp + p * (Z.of_nat i + 1)).
    { subst sp. unfold len. rewrite Nat2Z.inj_sub by lia.
      rewrite Nat2Z.inj_succ. lia. }
    rewrite Hpos' in Hh'.
    unfold assign. cbn [Cpu.mem Cpu.set_regs Cpu.set_mem c2].
    apply (holds_frame _ _ _ _ Hh'). intros y Hy. apply Hfr2.
    rewrite Hbl' in Hy. nia.
Qed.

(** The stack that [call] prepares for integer arguments.  With a
    pointer width that [map_size] knows, arguments and sentinel that fit
    a pointer and room for them on the stack, the statements before the
    [try] succeed; the stack pointer register holds the new top, the
    sentinel return address lies at the top, and argument [i] lies
    [i + 1] pointers above it, so that the first argument is at the
    lowest address. *)
Theorem call_prepare_layout (c : Cpu.t) (ns : list Z) (W : Width) :
  let p := ptr_len (Cpu.arch c) in
  let sp := Stack.DEF_STACK_BASE + 0x1000 - p * (len ns + 1) in
  Mem.map_size p = Return W ->
  Forall (fun v => 0 <= v < 2 ^ (8 * p)) (Abi.DUMMY_RET_ADDR :: ns) ->
  p * (len ns + 1) <= 0x1000 ->
  regs_named c ->
  exists c',
    Abi.call_prepare (inr <$> ns) c = (c', Return tt) /\
    reg_at c' (Cpu.canonical (Registers_sp (Cpu.arch c)) false) = Some sp /\
    Mem.load sp W (Cpu.mem c') = (Cpu.mem c', Return Abi.DUMMY_RET_ADDR) /\
    (forall (i : nat) v, ns !! i = Some v ->
       Mem.load (sp + p * (Z.of_nat i + 1)) W (Cpu.mem c')
       = (Cpu.mem c', Return v)).
Proof.
  intros p sp HW Hall Hroom Hwf.
  destruct (call_prepare_spec c ns W p eq_refl HW Hall Hroom Hwf)
    as (c' & Hprep & Hregs & _ & (bs & Hpk & Hh) & Hargs).
  exists c'. split; [exact Hprep |]. split; [| split].
  - unfold reg_at. rewrite Hregs, assign_lookup. reflexivity.
  - apply (load_stored _ _ _ W bs Hpk Hh).
  - intros i v Hi. destruct (Hargs i v Hi) as (bs' & Hpk' & Hh').
    apply (load_stored _ _ _ W bs' Hpk' Hh').
Qed.

Lemma call_prepare_layout_witness :
  exists c',
    Abi.call_prepare [inr 0x42424242; inr 7] (Cpu.init ARCH_X86)
    = (c', Return tt) /\
    reg_at c' "R_ESP" = Some (0x12000000 + 0x1000 - 12) /\
    Mem.load (0x12000000 + 0x1000 - 8) U32 (Cpu.mem c')
    = (Cpu.mem c', Return 0x42424242).
Proof.
  destruct (call_prepare_layout (Cpu.init ARCH_X86) [0x42424242; 7] U32)
    as (c' & H1 & H2 & _ & H4).
  - reflexivity.
  - repeat constructor; vm_compute; discriminate.
  - vm_compute. discriminate.
  - intros k r Hk. cbn in Hk. rewrite lookup_empty in Hk. discriminate.
  - exists c'. split; [exact H1 |]. split; [exact H2 |].
    apply (H4 0%nat 0x42424242). reflexivity.
Defined.

(** ** Abi: a call from the pushing of the arguments to the result *)

(** The run of the function that returns a constant, on a stack whose
    top holds the return address [ra] at which the storage has no code:
    the run ends with the read error at [ra], and the accumulator holds
    the constant. *)
Lemma run_ret_const (c : Cpu.t) (storage : Storage) (addr v sp ra x : Z)
    (t : bool) (bs : list byte) (fuel : nat) :
  Cpu.arch c = ARCH_X86 ->
  regs_named c ->
  Cpu.regs c !! "R_EAX" = Some (mkReg "R_EAX" x false) ->
  Cpu.regs c !! "R_ESP" = Some (mkReg "R_ESP" sp t) ->
  0 <= sp < 2 ^ 32 ->
  0 <= ra < 2 ^ 32 ->
  0 <= v < 2 ^ 32 ->
  Mem.pack U32 ra = Return bs ->
  holds (Mem.data (Cpu.mem c)) sp bs ->
  get_insn storage addr = Some (ret_const addr v) ->
  get_insn storage ra = None ->
  exists c',
    Cpu.run (S (S fuel)) storage addr c = (c', Raise (CpuReadError ra 0)) /\
    Cpu.regs c' !! "R_EAX" = Some (mkReg "R_EAX" v false).
Proof.
  intros Harch Hwf Hax Hsp Hspr Hrar Hv Hpk Hh Hprog Hend.
  unfold Cpu.run. cbv zeta.
  (* the storage is attached *)
  set (c4 := Cpu.set_mem
               (Mem.set_reader (storage_reader storage) (Cpu.mem c)) c).
  assert (Hst : Cpu.set_storage (Some storage) c = (c4, Return tt))
    by reflexivity.
  rewrite (bind_eq _ _ _ _ _ Hst).
  assert (Hwf4 : regs_named c4) by exact Hwf.
  assert (Harch4 : Cpu.arch c4 = ARCH_X86) by exact Harch.
  pose proof (set_ip_assign addr c4 Hwf4) as Hip.
  rewrite Harch4 in Hip.
  change (Cpu.canonical (Registers_ip ARCH_X86) false) with "R_EIP" in Hip.
  rewrite (bind_eq _ _ _ _ _ Hip). clear Hip.
  set (c5 := assign "R_EIP" addr c4).
  assert (Hwf5 : regs_named c5) by (apply assign_named, Hwf4).
  (* first instruction: the constant goes to the accumulator *)
  set (i0 := mkInsn addr 0 I_STR (Const U32 v) no_arg
               (mkArg A_REG U32 (Some "R_EAX") 0) (addr, 1)).
  set (i1 := mkInsn addr 1 I_LDM (mkArg A_REG U32 (Some "R_ESP") 0) no_arg
               (mkArg A_REG U32 (Some "R_ECX") 0) (addr, 2)).
  set (i2 := mkInsn addr 2 I_JCC (Const U1 1) no_arg
               (mkArg A_REG U32 (Some "R_ECX") 0) (addr + 5, 0)).
  assert (Hsmall : forall z, 0 <= z < 2 ^ 32 -> get_val (Const U32 z) = z).
  { intros z Hz. rewrite get_val_Const. apply Z.mod_small. exact Hz. }
  assert (He0 : Cpu.execute i0 c5 = (assign "R_EAX" v c5, Return None)).
  { rewrite (execute_other_assign i0 c5 (Some (Const U32 v)) None
               (get_val (Const U32 v)) "R_EAX");
      try reflexivity; [| exact Hwf5].
    change (Cpu.canonical "R_EAX" false) with "R_EAX".
    cbn [insn_c i0 arg_size]. rewrite Hsmall by exact Hv.
    change (width_bits U32) with 32.
    rewrite Z.mod_small by exact Hv. reflexivity. }
  set (c6 := assign "R_EAX" v c5) in *.
  assert (Hwf6 : regs_named c6) by (apply assign_named, Hwf5).
  pose proof (set_ip_assign addr c6 Hwf6) as Hip6.
  replace (Cpu.arch c6) with ARCH_X86 in Hip6 by (symmetry; exact Harch).
  change (Cpu.canonical (Registers_ip ARCH_X86) false) with "R_EIP" in Hip6.
  set (c7 := assign "R_EIP" addr c6) in *.
  assert (Hwf7 : regs_named c7) by (apply assign_named, Hwf6).
  (* second instruction: the return address is loaded *)
  assert (Hsp7 : Cpu.regs c7 !! "R_ESP" = Some (mkReg "R_ESP" sp t)).
  { unfold c7, c6, c5. rewrite !assign_lookup_ne by discriminate. exact Hsp. }
  assert (He1 : Cpu.execute i1 c7 = (assign "R_ECX" ra c7, Return None)).
  { apply (execute_ldm_assign i1 c7 (Const U32 sp) None "R_ECX" ra);
      try reflexivity.
    - exact (arg_reg_present (mkArg A_REG U32 (Some "R_ESP") 0) "R_ESP"
               (mkReg "R_ESP" sp t) c7 eq_refl eq_refl Hsp7).
    - exact Hwf7.
    - rewrite Hsmall by exact Hspr. apply (load_stored _ _ _ _ bs Hpk).
      exact Hh. }
  set (c8 := assign "R_ECX" ra c7) in *.
  assert (Hwf8 : regs_named c8) by (apply assign_named, Hwf7).
  pose proof (set_ip_assign addr c8 Hwf8) as Hip8.
  replace (Cpu.arch c8) with ARCH_X86 in Hip8 by (symmetry; exact Harch).
  change (Cpu.canonical (Registers_ip ARCH_X86) false) with "R_EIP" in Hip8.
  set (c9 := assign "R_EIP" addr c8) in *.
  (* third instruction: the jump to it *)
  assert (He2 : Cpu.execute i2 c9 = (c9, Return (Some ra))).
  { assert (Hcx : exists tc, Cpu.regs c9 !! "R_ECX"
                             = Some (mkReg "R_ECX" ra tc)).
    { unfold c9. rewrite assign_lookup_ne by discriminate.
      unfold c8. rewrite assign_lookup. eauto. }
    destruct Hcx as [tc Hcx].
    rewrite (execute_resolved i2 c9 (Some (Const U1 1)) None
               (Some (Const U32 ra))); try reflexivity.
    - apply try_except_return. cbn [insn_op i2].
      unfold Cpu.insn_jcc, bind, lift, ret. cbn [Cpu.get_val_of].
      rewrite Hsmall by exact Hrar. reflexivity.
    - exact (arg_reg_present (mkArg A_REG U32 (Some "R_ECX") 0) "R_ECX"
               (mkReg "R_ECX" ra tc) c9 eq_refl eq_refl Hcx). }
  assert (Hins : Cpu.run_insns (ret_const addr v) addr c5
                 = (c9, Return ra)).
  { unfold ret_const. fold i0 i1 i2. cbn [Cpu.run_insns].
    rewrite (bind_eq _ _ _ _ _ He0). cbn [insn_next i0 fst].
    rewrite (bind_eq _ _ _ _ _ Hip6).
    rewrite (bind_eq _ _ _ _ _ He1). cbn [insn_next i1 fst].
    rewrite (bind_eq _ _ _ _ _ Hip8).
    rewrite (bind_eq _ _ _ _ _ He2). reflexivity. }
  (* the pass ends, the next fetch fails *)
  eexists. split.
  - cbn [Cpu.run_loop]. unfold Cpu.run_pass at 1. rewrite Hprog.
    unfold bind at 1. unfold bind at 1. rewrite Hins.
    unfold bind at 1. unfold Cpu.reset_temp at 1. unfold ret at 1.
    unfold bind at 1. unfold Cpu.run_pass. rewrite Hend. reflexivity.
  - cbn [Cpu.regs Cpu.set_regs].
    apply map_lookup_filter_Some. split; [| reflexivity].
    unfold c9, c8, c7. rewrite !assign_lookup_ne by discriminate.
    unfold c6. rewrite assign_lookup.
    unfold c5. rewrite assign_lookup_ne by discriminate.
    change (Cpu.regs c4) with (Cpu.regs c). rewrite Hax. reflexivity.
Qed.

(** [cdecl], and with it [stdcall], returns what the function left in
    the accumulator.  For the function of 32-bit x86 that stores a
    constant in the accumulator and jumps to the return address on top
    of the stack, whatever integer arguments fit on the stack and
    whatever the cpu held before, as long as its accumulator is not a
    temporary register: the sentinel pushed by [call] sends the run to
    an address without code, [call] swallows that error, and the result
    is the constant. *)
Theorem cdecl_returns_constant (c : Cpu.t) (storage : Storage)
    (addr v : Z) (ns : list Z) (fuel : nat) :
  Cpu.arch c = ARCH_X86 ->
  regs_named c ->
  (forall r, Cpu.regs c !! "R_EAX" = Some r -> is_temp r = false) ->
  get_insn storage addr = Some (ret_const addr v) ->
  get_insn storage Abi.DUMMY_RET_ADDR = None ->
  0 <= v < 2 ^ 32 ->
  Forall (fun a => 0 <= a < 2 ^ 32) ns ->
  4 * (len ns + 1) <= 0x1000 ->
  exists c',
    Abi.cdecl (S (S fuel)) storage addr (inr <$> ns) c
    = (c', Return (Abi.Result v)).
Proof.
  intros Harch Hwf Htmp Hprog Hend Hv Hns Hroom.
  unfold Abi.cdecl, Abi.stdcall. rewrite Harch.
  change (Registers_accum ARCH_X86) with "eax".
  rewrite (bind_eq _ _ _ _ _ (abi_reg_assign "eax" 0 c Hwf)).
  change (Cpu.canonical "eax" false) with "R_EAX".
  set (c0 := assign "R_EAX" 0 c).
  assert (Hwf0 : regs_named c0) by (apply assign_named, Hwf).
  assert (Harch0 : Cpu.arch c0 = ARCH_X86) by exact Harch.
  assert (Hax0 : Cpu.regs c0 !! "R_EAX" = Some (mkReg "R_EAX" 0 false)).
  { unfold c0. rewrite assign_lookup.
    destruct (Cpu.regs c !! "R_EAX") as [r |] eqn:E; [| reflexivity].
    cbn [from_option]. rewrite (Htmp r eq_refl). reflexivity. }
  (* the stack of the call *)
  destruct (call_prepare_spec c0 ns U32 4)
    as (c3 & Hprep & Hregs3 & Harch3 & (bs & Hpk & Hh) & _).
  { rewrite Harch0. reflexivity. }
  { reflexivity. }
  { constructor;
      [vm_compute; split; [discriminate | reflexivity] | exact Hns]. }
  { exact Hroom. }
  { exact Hwf0. }
  rewrite Harch0 in Hregs3, Harch3.
  change (Cpu.canonical (Registers_sp ARCH_X86) false) with "R_ESP" in Hregs3.
  set (sp := Stack.DEF_STACK_BASE + 4096 - 4 * (len ns + 1)) in *.
  assert (Hlen0 : 0 <= len ns) by (unfold len; lia).
  assert (Hsp : 0 <= sp < 2 ^ 32)
    by (unfold sp, Stack.DEF_STACK_BASE; lia).
  assert (Hwf3 : regs_named c3).
  { intros k r. rewrite Hregs3. apply assign_named, Hwf0. }
  assert (Hax3 : Cpu.regs c3 !! "R_EAX" = Some (mkReg "R_EAX" 0 false)).
  { rewrite Hregs3, assign_lookup_ne by discriminate. exact Hax0. }
  assert (Hsp3 : exists t, Cpu.regs c3 !! "R_ESP"
                           = Some (mkReg "R_ESP" sp t)).
  { rewrite Hregs3, assign_lookup. eauto. }
  destruct Hsp3 as [tsp Hsp3].
  (* the function runs and returns to the sentinel *)
  destruct (run_ret_const c3 storage addr v sp Abi.DUMMY_RET_ADDR 0 tsp bs
              fuel Harch3 Hwf3 Hax3 Hsp3 Hsp)
    as (c' & Hrun & Hax'); try assumption.
  { vm_compute. split; [discriminate | reflexivity]. }
  exists c'.
  assert (Hcall : Abi.call (S (S fuel)) storage addr (inr <$> ns) c0
                  = (c', Return Abi.Done)).
  { unfold Abi.call. rewrite (bind_eq _ _ _ _ _ Hprep).
    rewrite (try_except_handled _ _ _ c3 c' (CpuReadError Abi.DUMMY_RET_ADDR 0));
      [reflexivity | | reflexivity].
    apply bind_raise. exact Hrun. }
  rewrite (bind_eq _ _ _ _ _ Hcall).
  unfold bind, Cpu.reg. cbv zeta.
  change (Cpu.canonical "eax" false) with "R_EAX".
  rewrite Hax'. reflexivity.
Qed.

Lemma cdecl_returns_constant_witness :
  exists c',
    Abi.cdecl 2 (ret_const_storage 0x1000 0x33) 0x1000 [inr 1; inr 2]
      (Cpu.init ARCH_X86)
    = (c', Return (Abi.Result 0x33)).
Proof.
  apply (cdecl_returns_constant (Cpu.init ARCH_X86)
           (ret_const_storage 0x1000 0x33) 0x1000 0x33 [1; 2] 0%nat).
  - reflexivity.
  - intros k r Hk. cbn in Hk. rewrite lookup_empty in Hk. discriminate.
  - intros r Hk. cbn in Hk. rewrite lookup_empty in Hk. discriminate.
  - reflexivity.
  - reflexivity.
  - lia.
  - repeat constructor; lia.
  - vm_compute. discriminate.
Defined.

(** One pass of the run loop over a native [pop r]: the register holds
    the item on top of the stack, the stack pointer has moved up by 4,
    and the next fetch is at the following byte. *)
Lemma run_pass_pop (c : Cpu.t) (storage : Storage) (addr sp x : Z)
    (r : string) (bs : list byte) :
  Cpu.arch c = ARCH_X86 ->
  regs_named c ->
  Cpu.regs c !! "R_ESP" = Some (mkReg "R_ESP" sp false) ->
  not_temp c r ->
  Cpu.canonical r false = r -> r <> "R_ESP" -> r <> "R_EIP" ->
  0 <= sp -> sp + 4 < 2 ^ 32 ->
  Mem.pack U32 x = Return bs ->
  holds (Mem.data (Cpu.mem c)) sp bs ->
  get_insn storage addr = Some (pop_insns addr r) ->
  exists c',
    Cpu.run_pass storage addr c = (c', Return (addr + 1)) /\
    Cpu.mem c' = Cpu.mem c /\
    Cpu.arch c' = Cpu.arch c /\
    regs_named c' /\
    Cpu.regs c' !! "R_ESP" = Some (mkReg "R_ESP" (sp + 4) false) /\
    Cpu.regs c' !! r = Some (mkReg r x false) /\
    (forall k y, k <> r -> k <> "R_ESP" -> k <> "R_EIP" ->
       Cpu.regs c !! k = Some (mkReg k y false) ->
       Cpu.regs c' !! k = Some (mkReg k y false)).
Proof.
  intros Harch Hwf Hsp Hnt Hcan Hr1 Hr2 Hsp0 Hsp4 Hpk Hh Hprog.
  set (i0 := mkInsn addr 0 I_LDM (mkArg A_REG U32 (Some "R_ESP") 0) no_arg
               (mkArg A_REG U32 (Some r) 0) (addr, 1)).
  set (i1 := mkInsn addr 1 I_ADD (mkArg A_REG U32 (Some "R_ESP") 0)
               (Const U32 4) (mkArg A_REG U32 (Some "R_ESP") 0)
               (addr + 1, 0)).
  assert (Hsmall : forall z, 0 <= z < 2 ^ 32 -> get_val (Const U32 z) = z).
  { intros z Hz. rewrite get_val_Const. apply Z.mod_small. exact Hz. }
  (* the load *)
  assert (He0 : Cpu.execute i0 c = (assign r x c, Return None)).
  { rewrite <- Hcan at 1.
    apply (execute_ldm_assign i0 c (Const U32 sp) None r x);
      try reflexivity.
    - exact (arg_reg_present (mkArg A_REG U32 (Some "R_ESP") 0) "R_ESP"
               (mkReg "R_ESP" sp false) c eq_refl eq_refl Hsp).
    - exact Hwf.
    - rewrite Hsmall by lia. apply (load_stored _ _ _ _ bs Hpk). exact Hh. }
  set (c1 := assign r x c) in *.
  assert (Hwf1 : regs_named c1) by (apply assign_named, Hwf).
  pose proof (set_ip_assign addr c1 Hwf1) as Hip1.
  replace (Cpu.arch c1) with ARCH_X86 in Hip1 by (symmetry; exact Harch).
  change (Cpu.canonical (Registers_ip ARCH_X86) false) with "R_EIP" in Hip1.
  set (c2 := assign "R_EIP" addr c1) in *.
  assert (Hwf2 : regs_named c2) by (apply assign_named, Hwf1).
  (* the stack pointer moves *)
  assert (Hsp2 : Cpu.regs c2 !! "R_ESP" = Some (mkReg "R_ESP" sp false)).
  { unfold c2, c1. rewrite !assign_lookup_ne by congruence. exact Hsp. }
  assert (He1 : Cpu.execute i1 c2 = (assign "R_ESP" (sp + 4) c2, Return None)).
  { rewrite (execute_other_assign i1 c2 (Some (Const U32 sp))
               (Some (Const U32 4)) (sp + 4) "R_ESP");
      try reflexivity.
    - cbn [insn_c i1 arg_size]. change (width_bits U32) with 32.
      rewrite Z.mod_small by lia. reflexivity.
    - exact (arg_reg_present (mkArg A_REG U32 (Some "R_ESP") 0) "R_ESP"
               (mkReg "R_ESP" sp false) c2 eq_refl eq_refl Hsp2).
    - cbn [insn_op i1 Math.eval]. rewrite eval_u_binop, !val_u_get_val.
      rewrite !Hsmall by lia. cbn [arg_size Const Math.np_width Z.max].
      unfold Math.np_wrap. change (Z.max 32 32) with 32.
      rewrite Z.mod_small by lia. reflexivity.
    - exact Hwf2. }
  set (c3 := assign "R_ESP" (sp + 4) c2) in *.
  assert (Hwf3 : regs_named c3) by (apply assign_named, Hwf2).
  pose proof (set_ip_assign (addr + 1) c3 Hwf3) as Hip3.
  replace (Cpu.arch c3) with ARCH_X86 in Hip3 by (symmetry; exact Harch).
  change (Cpu.canonical (Registers_ip ARCH_X86) false) with "R_EIP" in Hip3.
  set (c4 := assign "R_EIP" (addr + 1) c3) in *.
  assert (Hwf4 : regs_named c4) by (apply assign_named, Hwf3).
  assert (Hins : Cpu.run_insns (pop_insns addr r) addr c
                 = (c4, Return (addr + 1))).
  { unfold pop_insns. fold i0 i1. cbn [Cpu.run_insns].
    rewrite (bind_eq _ _ _ _ _ He0). cbn [insn_next i0 fst].
    rewrite (bind_eq _ _ _ _ _ Hip1).
    rewrite (bind_eq _ _ _ _ _ He1). cbn [insn_next i1 fst].
    rewrite (bind_eq _ _ _ _ _ Hip3). reflexivity. }
  eexists. split; [| split; [| split; [| split; [| split; [| split]]]]].
  - unfold Cpu.run_pass. rewrite Hprog.
    rewrite (bind_eq _ _ _ _ _ Hins). reflexivity.
  - reflexivity.
  - reflexivity.
  - intros k y Hk. cbn [Cpu.regs Cpu.set_regs] in Hk.
    apply map_lookup_filter_Some in Hk. apply (Hwf4 k y), Hk.
  - cbn [Cpu.regs Cpu.set_regs].
    apply map_lookup_filter_Some. split; [| reflexivity].
    unfold c4. rewrite assign_lookup_ne by discriminate.
    unfold c3. rewrite assign_lookup, Hsp2. reflexivity.
  - cbn [Cpu.regs Cpu.set_regs].
    apply map_lookup_filter_Some. split; [| reflexivity].
    unfold c4, c3, c2. rewrite !assign_lookup_ne by congruence.
    unfold c1. rewrite assign_lookup.
    destruct (Cpu.regs c !! r) as [y |] eqn:E; [| reflexivity].
    cbn [from_option]. rewrite (Hnt y E). reflexivity.
  - intros k y Hk1 Hk2 Hk3 Hk. cbn [Cpu.regs Cpu.set_regs].
    apply map_lookup_filter_Some. split; [| reflexivity].
    unfold c4, c3, c2, c1. rewrite !assign_lookup_ne by congruence.
    exact Hk.
Qed.

(** One pass of the run loop over a native [jmp r]: the next fetch is
    at the value of the register. *)
Lemma run_pass_jmp_reg (c : Cpu.t) (storage : Storage) (addr ra : Z)
    (r : string) (t : bool) :
  Cpu.regs c !! r = Some (mkReg r ra t) ->
  Cpu.canonical r false = r ->
  0 <= ra < 2 ^ 32 ->
  get_insn storage addr = Some (jmp_reg_insns addr r) ->
  exists c',
    Cpu.run_pass storage addr c = (c', Return ra) /\
    (forall k y, Cpu.regs c !! k = Some (mkReg k y false) ->
       Cpu.regs c' !! k = Some (mkReg k y false)).
Proof.
  intros Hr Hcan Hra Hprog.
  set (i0 := mkInsn addr 0 I_JCC (Const U1 1) no_arg
               (mkArg A_REG U32 (Some r) 0) (addr + 2, 0)).
  assert (He : Cpu.execute i0 c = (c, Return (Some ra))).
  { rewrite (execute_resolved i0 c (Some (Const U1 1)) None
               (Some (Const U32 ra))); try reflexivity.
    - apply try_except_return. cbn [insn_op i0].
      unfold Cpu.insn_jcc, bind, lift, ret. cbn [Cpu.get_val_of].
      rewrite (get_val_Const U32 ra). change (width_bits U32) with 32.
      rewrite Z.mod_small by exact Hra. reflexivity.
    - rewrite <- Hcan in Hr at 1.
      exact (arg_reg_present (mkArg A_REG U32 (Some r) 0) r
               (mkReg r ra t) c eq_refl eq_refl Hr). }
  eexists. split.
  - unfold Cpu.run_pass. rewrite Hprog. unfold jmp_reg_insns. fold i0.
    cbn [Cpu.run_insns]. unfold bind at 1.
    rewrite (bind_eq _ _ _ _ _ He). reflexivity.
  - intros k y Hk. cbn [Cpu.regs Cpu.set_regs].
    apply map_lookup_filter_Some. split; [exact Hk | reflexivity].
Qed.

(** [stdcall] passes the arguments and returns the accumulator.  For
    the function [pop ecx; pop eax; jmp ecx], which returns its first
    argument, whatever integer arguments fit on the stack and whatever
    the cpu held before, as long as the three registers are not
    temporary ones: the run ends at the sentinel that [call] pushed, and
    the result is the first argument. *)
Theorem stdcall_returns_first_argument (c : Cpu.t) (storage : Storage)
    (addr a : Z) (ns : list Z) (fuel : nat) :
  Cpu.arch c = ARCH_X86 ->
  regs_named c ->
  not_temp c "R_EAX" -> not_temp c "R_ECX" -> not_temp c "R_ESP" ->
  get_insn storage addr = Some (pop_insns addr "R_ECX") ->
  get_insn storage (addr + 1) = Some (pop_insns (addr + 1) "R_EAX") ->
  get_insn storage (addr + 2) = Some (jmp_reg_insns (addr + 2) "R_ECX") ->
  get_insn storage Abi.DUMMY_RET_ADDR = None ->
  Forall (fun x => 0 <= x < 2 ^ 32) (a :: ns) ->
  4 * (len (a :: ns) + 1) <= 0x1000 ->
  exists c',
    Abi.stdcall (4 + fuel) storage addr (inr <$> a :: ns) c
    = (c', Return (Abi.Result a)).
Proof.
  intros Harch Hwf Hax Hcx Hsx Hp0 Hp1 Hp2 Hend Hns Hroom.
  unfold Abi.stdcall. rewrite Harch.
  change (Registers_accum ARCH_X86) with "eax".
  rewrite (bind_eq _ _ _ _ _ (abi_reg_assign "eax" 0 c Hwf)).
  change (Cpu.canonical "eax" false) with "R_EAX".
  set (c0 := assign "R_EAX" 0 c).
  assert (Hwf0 : regs_named c0) by (apply assign_named, Hwf).
  assert (Harch0 : Cpu.arch c0 = ARCH_X86) by exact Harch.
  (* the stack of the call *)
  destruct (call_prepare_spec c0 (a :: ns) U32 4)
    as (c3 & Hprep & Hregs3 & Harch3 & (bs & Hpk & Hh) & Hargs).
  { rewrite Harch0. reflexivity. }
  { reflexivity. }
  { constructor;
      [vm_compute; split; [discriminate | reflexivity] | exact Hns]. }
  { exact Hroom. }
  { exact Hwf0. }
  destruct (Hargs 0%nat a eq_refl) as (bsa & Hpka & Hha). clear Hargs.
  rewrite Harch0 in Hregs3, Harch3.
  change (Cpu.canonical (Registers_sp ARCH_X86) false) with "R_ESP" in Hregs3.
  set (sp := Stack.DEF_STACK_BASE + 4096 - 4 * (len (a :: ns) + 1)) in *.
  change (sp + 4 * (Z.of_nat 0 + 1)) with (sp + 4) in Hha.
  assert (Hlen0 : 0 <= len (a :: ns)) by (unfold len; lia).
  assert (Hsp : 0 <= sp /\ sp + 8 < 2 ^ 32)
    by (unfold sp, Stack.DEF_STACK_BASE; lia).
  (* the storage is attached *)
  set (c4 := Cpu.set_mem
               (Mem.set_reader (storage_reader storage) (Cpu.mem c3)) c3).
  assert (Hwf4 : regs_named c4).
  { intros k r. change (Cpu.regs c4) with (Cpu.regs c3). rewrite Hregs3.
    apply assign_named, Hwf0. }
  pose proof (set_ip_assign addr c4 Hwf4) as Hip.
  replace (Cpu.arch c4) with ARCH_X86 in Hip by (symmetry; exact Harch3).
  change (Cpu.canonical (Registers_ip ARCH_X86) false) with "R_EIP" in Hip.
  set (c5 := assign "R_EIP" addr c4) in *.
  assert (Hwf5 : regs_named c5) by (apply assign_named, Hwf4).
  assert (Hlook5 : forall k, k <> "R_EIP" ->
            Cpu.regs c5 !! k = Cpu.regs (assign "R_ESP" sp c0) !! k).
  { intros k Hk. unfold c5. rewrite assign_lookup_ne by congruence.
    change (Cpu.regs c4) with (Cpu.regs c3). rewrite Hregs3. reflexivity. }
  assert (Hsp5 : Cpu.regs c5 !! "R_ESP" = Some (mkReg "R_ESP" sp false)).
  { rewrite Hlook5, assign_lookup by discriminate.
    unfold c0. rewrite assign_lookup_ne by discriminate.
    destruct (Cpu.regs c !! "R_ESP") as [y |] eqn:E; [| reflexivity].
    cbn [from_option]. rewrite (Hsx y E). reflexivity. }
  assert (Hax5 : Cpu.regs c5 !! "R_EAX" = Some (mkReg "R_EAX" 0 false)).
  { rewrite Hlook5, assign_lookup_ne by discriminate.
    unfold c0. rewrite assign_lookup.
    destruct (Cpu.regs c !! "R_EAX") as [y |] eqn:E; [| reflexivity].
    cbn [from_option]. rewrite (Hax y E). reflexivity. }
  assert (Hcx5 : not_temp c5 "R_ECX").
  { intros y. rewrite Hlook5, assign_lookup_ne by discriminate.
    unfold c0. rewrite assign_lookup_ne by discriminate. apply Hcx. }
  (* pop ecx *)
  destruct (run_pass_pop c5 storage addr sp Abi.DUMMY_RET_ADDR "R_ECX" bs)
    as (c6 & Hpass1 & Hm6 & Harch6 & Hwf6 & Hsp6 & Hcx6 & Hfr6);
    try assumption; try reflexivity; try discriminate; try lia.
  (* pop eax *)
  destruct (run_pass_pop c6 storage (addr + 1) (sp + 4) a "R_EAX" bsa)
    as (c7 & Hpass2 & Hm7 & Harch7 & Hwf7 & Hsp7 & Hax7 & Hfr7);
    try assumption; try reflexivity; try discriminate; try lia.
  { rewrite Harch6. exact Harch3. }
  { intros y Hy.
    rewrite (Hfr6 "R_EAX" 0 ltac:(discriminate) ltac:(discriminate)
               ltac:(discriminate) Hax5) in Hy.
    injection Hy as <-. reflexivity. }
  { rewrite Hm6. exact Hha. }
  (* jmp ecx *)
  destruct (run_pass_jmp_reg c7 storage (addr + 1 + 1) Abi.DUMMY_RET_ADDR
              "R_ECX" false)
    as (c8 & Hpass3 & Hfr8).
  { apply Hfr7; try discriminate. exact Hcx6. }
  { reflexivity. }
  { vm_compute. split; [discriminate | reflexivity]. }
  { replace (addr + 1 + 1) with (addr + 2) by lia. exact Hp2. }
  assert (Hrun : Cpu.run (4 + fuel) storage addr c3
                 = (c8, Raise (CpuReadError Abi.DUMMY_RET_ADDR 0))).
  { unfold Cpu.run. cbv zeta.
    assert (Hst : Cpu.set_storage (Some storage) c3 = (c4, Return tt))
      by reflexivity.
    rewrite (bind_eq _ _ _ _ _ Hst), (bind_eq _ _ _ _ _ Hip).
    change (4 + fuel)%nat with (S (S (S (S fuel)))).
    cbn [Cpu.run_loop].
    rewrite (bind_eq _ _ _ _ _ Hpass1), (bind_eq _ _ _ _ _ Hpass2),
      (bind_eq _ _ _ _ _ Hpass3).
    apply bind_raise. unfold Cpu.run_pass. rewrite Hend. reflexivity. }
  exists c8.
  assert (Hcall : Abi.call (4 + fuel) storage addr (inr <$> a :: ns) c0
                  = (c8, Return Abi.Done)).
  { unfold Abi.call. rewrite (bind_eq _ _ _ _ _ Hprep).
    rewrite (try_except_handled _ _ _ c3 c8
               (CpuReadError Abi.DUMMY_RET_ADDR 0));
      [reflexivity | apply bind_raise; exact Hrun | reflexivity]. }
  rewrite (bind_eq _ _ _ _ _ Hcall).
  unfold bind, Cpu.reg. cbv zeta.
  change (Cpu.canonical "eax" false) with "R_EAX".
  rewrite (Hfr8 "R_EAX" a Hax7). reflexivity.
Qed.

Lemma stdcall_returns_first_argument_witness :
  exists c',
    Abi.stdcall 4 (first_arg_storage 0x41414141) 0x41414141
      [inr 0x42424242; inr 7] (Cpu.init ARCH_X86)
    = (c', Return (Abi.Result 0x42424242)).
Proof.
  apply (stdcall_returns_first_argument (Cpu.init ARCH_X86)
           (first_arg_storage 0x41414141) 0x41414141 0x42424242 [7] 0%nat);
    try reflexivity;
    try (intros r Hk; cbn in Hk; rewrite lookup_empty in Hk; discriminate).
  - intros k r Hk. cbn in Hk. rewrite lookup_empty in Hk. discriminate.
  - repeat constructor; lia.
  - vm_compute. discriminate.
Defined.

(** ** Math: the unary operators *)

(** I_NOT and I_NEG work at the width of the numpy type of the operand,
    which is 8 bits for a 1-bit operand: I_NOT returns the complement
    of the operand at that width, and I_NEG its two's complement
    negation, which is the complement plus one, wrapped.  The second
    operand plays no part. *)
Theorem not_neg_complement (a : Arg) (b : option Arg) :
  let n := Math.np_width (arg_size a) in
  Math.eval I_NOT (Some a) b = Return (2 ^ n - 1 - get_val a) /\
  Math.eval I_NEG (Some a) b = Return ((2 ^ n - get_val a) mod 2 ^ n) /\
  result_bind (Math.eval I_NOT (Some a) b)
    (fun v => Return ((v + 1) mod 2 ^ n))
  = Math.eval I_NEG (Some a) b.
Proof.
  intros n.
  pose proof (get_val_range a) as Hr.
  pose proof (width_bits_le (arg_size a)) as Hw. fold n in Hw.
  assert (Hpow : 2 ^ width_bits (arg_size a) <= 2 ^ n)
    by (apply Z.pow_le_mono_r; lia).
  assert (Hnot : Math.eval I_NOT (Some a) b
                 = Return (2 ^ n - 1 - get_val a)).
  { cbn [Math.eval Math.eval_u1]. f_equal.
    unfold Math.np_unop. rewrite val_u_get_val.
    cbn [Math.np Math.np_val Math.np_signed Math.np_bits Math.val_u].
    fold n. unfold Math.np_wrap, Z.lnot.
    rewrite <- (Z.mod_add _ 1) by lia.
    rewrite Z.mod_small by lia. lia. }
  assert (Hneg : Math.eval I_NEG (Some a) b
                 = Return ((2 ^ n - get_val a) mod 2 ^ n)).
  { cbn [Math.eval Math.eval_u1]. f_equal.
    unfold Math.np_unop. rewrite val_u_get_val.
    cbn [Math.np Math.np_val Math.np_signed Math.np_bits Math.val_u].
    fold n. unfold Math.np_wrap.
    rewrite <- (Z.mod_add (- get_val a) 1) by lia. f_equal. lia. }
  split; [exact Hnot |]. split; [exact Hneg |].
  rewrite Hnot, Hneg. cbn [result_bind]. do 2 f_equal. lia.
Qed.
